(** * Semantic search plugin: embedding, similarity and search services

    A shallow embedding of the plugin's three services
    ([embedding-service.js], [vector-service.js], [search-service.js]),
    of the lifecycle hook that attaches embeddings to outgoing writes
    with the validation of its configuration, and of the controllers of
    the search API, followed by the properties the specification states
    about them and by further properties read off the code.  The order
    facts about the scores are derived from the specification of the
    binary64 operations ([SpecFloat], [FloatAxioms]).

    JavaScript strings are sequences of UTF-16 code units, numbers are
    IEEE-754 binary64 values ([PrimFloat]), objects used as records are
    records and the in-flight write payload is a finite map from property
    names to values. *)

From Stdlib Require Import List ZArith NArith Bool Lia Sorting.Sorted.
From Stdlib Require Import Floats.PrimFloat.
From Stdlib Require Uint63.
From Stdlib Require FloatAxioms SpecFloat FloatOps.
From Equations Require Import Equations.
From stdpp Require Import base option list sorting strings gmap.
Import ListNotations.

Set Warnings "-register-all,-abstract-large-number,-inexact-float".

(* ===================================================================== *)
(** ** JavaScript strings *)
(* ===================================================================== *)

(** A string is its list of UTF-16 code units; [.length] is [length]. *)
Abbreviation jsstring := (list N).

(** ASCII literal to code units. *)
Definition str (s : String.string) : jsstring :=
  map Ascii.N_of_ascii (String.list_ascii_of_string s).

Definition ch_space : N := 32.
Definition ch_lt : N := 60.
Definition ch_gt : N := 62.
Arguments ch_space : simpl never.
Arguments ch_lt : simpl never.
Arguments ch_gt : simpl never.

(** The regular-expression class [\s] and the characters removed by
    [String.prototype.trim]: ECMAScript WhiteSpace and LineTerminator. *)
Definition is_space (c : N) : bool :=
  ((9 <=? c) && (c <=? 13) || (c =? 32) || (c =? 160) || (c =? 5760)
   || (8192 <=? c) && (c <=? 8202) || (c =? 8232) || (c =? 8233)
   || (c =? 8239) || (c =? 8287) || (c =? 12288) || (c =? 65279))%N.

(** Truthiness of a string: only the empty string is falsy. *)
Definition truthy_str (s : jsstring) : bool :=
  match s with [] => false | _ => true end.

Fixpoint trimStart (s : jsstring) : jsstring :=
  match s with
  | [] => []
  | c :: r => if is_space c then trimStart r else s
  end.

Definition trimEnd (s : jsstring) : jsstring := rev (trimStart (rev s)).

(** [String.prototype.trim] *)
Definition trim (s : jsstring) : jsstring := trimEnd (trimStart s).

(** [String.prototype.substring(0, n)] for [0 <= n]. *)
Definition substring0 (n : nat) (s : jsstring) : jsstring := take n s.

(* ===================================================================== *)
(** ** Errors and completions *)
(* ===================================================================== *)

(** A thrown [Error]: its message and, for provider errors, its [code]. *)
Record Error := mkError { message : jsstring; code : option jsstring }.

Definition new_Error (msg : jsstring) : Error := mkError msg None.

(** How a call completes: it returns a value or throws.  An [async]
    function's promise is fulfilled or rejected the same way. *)
Inductive completion (A : Type) : Type :=
  | Return (a : A)
  | Throw (e : Error).
Arguments Return {A} a.
Arguments Throw {A} e.

#[global] Instance completion_ret : MRet completion := λ A a, Return a.
#[global] Instance completion_fmap : FMap completion := λ A B f c,
  match c with
  | Return a => Return (f a)
  | Throw e => Throw e
  end.
#[global] Instance completion_bind : MBind completion := λ A B k c,
  match c with
  | Return a => k a
  | Throw e => Throw e
  end.

(** [try { body } catch (error) { handler }] *)
Definition try_catch {A} (body : completion A) (handler : Error → completion A)
  : completion A :=
  match body with
  | Return a => Return a
  | Throw e => handler e
  end.

(** The error kinds of the specification, as the messages the code throws. *)
Definition ProviderNotConfigured : Error :=
  new_Error (str "OpenAI client not initialized. Check your API key.").
Definition InvalidInput_text : Error :=
  new_Error (str "Text is required for embedding generation").
Definition TextTooShort : Error :=
  new_Error (str "Text too short for meaningful embedding").
Definition QuotaExceeded : Error := new_Error (str "OpenAI API quota exceeded").
Definition InvalidCredentials : Error := new_Error (str "Invalid OpenAI API key").
Definition RateLimited : Error := new_Error (str "OpenAI API rate limit exceeded").
Definition DimensionMismatch : Error :=
  new_Error (str "Invalid vectors for similarity calculation").
Definition InvalidInput_searchSimilar : Error :=
  new_Error (str "Query embedding and content type are required").
Definition InvalidInput_search : Error :=
  new_Error (str "Query and content type are required").
Definition InvalidInput_multiSearch : Error :=
  new_Error (str "Query and content types array are required").
Definition EmbeddingMissing : Error :=
  new_Error (str "Failed to generate embedding for search query").

(* ===================================================================== *)
(** ** Promise.all *)
(* ===================================================================== *)

Section PromiseAll.
Context {A : Type}.

(** The promises settle one after the other in the order [order] (a list
    of indices).  A fulfilled promise stores its value in the slot of
    its own index; the first rejected one rejects the combined promise. *)
Fixpoint settle (ps : list (completion A)) (order : list nat)
    (slots : list (option A)) : completion (list (option A)) :=
  match order with
  | [] => Return slots
  | i :: rest =>
    match ps !! i with
    | Some (Return v) => settle ps rest (<[i := Some v]> slots)
    | Some (Throw e) => Throw e
    | None => settle ps rest slots
    end
  end.

(** [Promise.all(ps)] under a completion order.  Every list [order] is a
    schedule: promises it does not mention settle after the listed ones,
    in index order, and a repeated index has no further effect. *)
Definition promise_all (order : list nat) (ps : list (completion A))
  : completion (list A) :=
  match settle ps (order ++ seq 0 (length ps)) (replicate (length ps) None) with
  | Return slots => Return (omap id slots)
  | Throw e => Throw e
  end.
End PromiseAll.

(* ===================================================================== *)
(** ** embedding-service.js: text preprocessing *)
(* ===================================================================== *)

(** [[^>]*>] : what is left of the input after its first ['>']. *)
Fixpoint match_tag_rest (s : jsstring) : option jsstring :=
  match s with
  | [] => None
  | c :: r => if (c =? ch_gt)%N then Some r else match_tag_rest r
  end.

(** [/<[^>]*>/] anchored at the head of [s]; the result is the input left
    after the match. *)
Definition match_tag (s : jsstring) : option jsstring :=
  match s with
  | [] => None
  | c :: r => if (c =? ch_lt)%N then match_tag_rest r else None
  end.

(** [/\s+/] anchored at the head of [s] (greedy). *)
Definition match_spaces (s : jsstring) : option jsstring :=
  match s with
  | [] => None
  | c :: r => if is_space c then Some (trimStart r) else None
  end.

Definition inspect {A} (a : A) : {b | a = b} := exist _ a eq_refl.

(** [text.replace(/<[^>]*>/g, ' ')]: scan left to right; where the pattern
    matches, emit one space and resume after the match, otherwise copy
    one code unit. *)
Equations? replace_tags (s : jsstring) : jsstring by wf (length s) lt :=
  replace_tags [] := [];
  replace_tags (c :: r) with inspect (match_tag (c :: r)) := {
    | exist _ (Some rest) _ := ch_space :: replace_tags rest;
    | exist _ None _ := c :: replace_tags r }.
Proof.
  - simpl in e. destruct (c =? ch_lt)%N; [|done].
    clear replace_tags. revert rest e.
    induction r as [|d r IH]; simpl; intros rest; [done|].
    destruct (d =? ch_gt)%N; [intros [= ->]; lia|].
    intros H%IH. simpl in H. lia.
  - simpl; lia.
Qed.

(** [cleanText.replace(/\s+/g, ' ')] *)
Equations? replace_spaces (s : jsstring) : jsstring by wf (length s) lt :=
  replace_spaces [] := [];
  replace_spaces (c :: r) with inspect (match_spaces (c :: r)) := {
    | exist _ (Some rest) _ := ch_space :: replace_spaces rest;
    | exist _ None _ := c :: replace_spaces r }.
Proof.
  - simpl in e. destruct (is_space c); [|done].
    injection e as <-. clear replace_spaces.
    induction r as [|d r IH]; simpl in *; [lia|].
    destruct (is_space d); simpl; lia.
  - simpl; lia.
Qed.

Definition maxLength : nat := Z.to_nat 8000.
Arguments maxLength : simpl never.

(** The text before the length cap: tags replaced, whitespace collapsed,
    ends trimmed. *)
Definition normalizedText (text : jsstring) : jsstring :=
  trim (replace_spaces (replace_tags text)).

Definition preprocessText (text : jsstring) : jsstring :=
  if negb (truthy_str text) then []
  else
    let normalized := normalizedText text in
    if maxLength <? length normalized
    then substring0 maxLength normalized ++ str "..."
    else normalized.

(* ===================================================================== *)
(** ** embedding-service.js: the embedding client *)
(* ===================================================================== *)

Abbreviation vector := (list float).

(** [this.openai]: the provider call [embeddings.create({model, input})],
    answering with [response.data[0].embedding] (possibly undefined). *)
Record OpenAI := {
  embeddings_create : jsstring → jsstring → completion (option vector)
}.

Record EmbeddingResult := {
  embedding : option vector;
  processedText : jsstring;
  originalLength : nat;
  processedLength : nat
}.

Definition embedding_model : jsstring := str "text-embedding-ada-002".

(** The [catch] block of [generateEmbedding]. *)
Definition classify_provider_error (error : Error) : Error :=
  if bool_decide (code error = Some (str "insufficient_quota")) then QuotaExceeded
  else if bool_decide (code error = Some (str "invalid_api_key")) then InvalidCredentials
  else if bool_decide (code error = Some (str "rate_limit_exceeded")) then RateLimited
  else error.

Definition generateEmbedding (openai : option OpenAI) (text : jsstring)
  : completion EmbeddingResult :=
  match openai with
  | None => Throw ProviderNotConfigured
  | Some client =>
    if negb (truthy_str text) || (length (trim text) =? 0)
    then Throw InvalidInput_text
    else
      try_catch
        (let processedText := preprocessText text in
         if length processedText <? 10 then Throw TextTooShort
         else
           embedding ← embeddings_create client embedding_model processedText;
           Return {| embedding := embedding;
                     processedText := processedText;
                     originalLength := length text;
                     processedLength := length processedText |})
        (λ error, Throw (classify_provider_error error))
  end.

Definition batchSize : nat := 10.

(** [Array.prototype.slice(i, j)] for [0 <= i <= j]. *)
Definition slice {A} (i j : nat) (l : list A) : list A := take (j - i) (drop i l).

(** The [for] loop of [generateBatchEmbeddings]; [schedule i] is the order
    in which the promises of the batch starting at [i] settle.  The delay
    between batches only waits. *)
Equations? batchLoop (openai : option OpenAI) (schedule : nat → list nat)
    (texts : list jsstring) (i : nat) (results : list EmbeddingResult)
    : completion (list EmbeddingResult) by wf (length texts - i) lt :=
  batchLoop openai schedule texts i results with inspect (i <? length texts) := {
    | exist _ true _ :=
        let batch := slice i (i + batchSize) texts in
        let batchPromises := map (generateEmbedding openai) batch in
        match promise_all (schedule i) batchPromises with
        | Return batchResults =>
            batchLoop openai schedule texts (i + batchSize) (results ++ batchResults)
        | Throw error => Throw error
        end;
    | exist _ false _ := Return results }.
Proof. apply Nat.ltb_lt in e. unfold batchSize. lia. Qed.

Definition InvalidInput_batch : Error :=
  new_Error (str "Texts array is required for batch embedding generation").

Definition generateBatchEmbeddings (openai : option OpenAI)
    (schedule : nat → list nat) (texts : list jsstring)
  : completion (list EmbeddingResult) :=
  if length texts =? 0 then Throw InvalidInput_batch
  else batchLoop openai schedule texts 0 [].

(* ===================================================================== *)
(** ** JavaScript values and stored documents *)
(* ===================================================================== *)

Inductive value : Type :=
  | VUndefined
  | VNull
  | VBool (b : bool)
  | VNumber (x : float)
  | VString (s : jsstring)
  | VArray (items : list value)
  | VObject (props : list (jsstring * value)).

(** ToBoolean *)
Definition truthy (v : value) : bool :=
  match v with
  | VUndefined | VNull => false
  | VBool b => b
  | VNumber x => negb (PrimFloat.eqb x 0) && PrimFloat.eqb x x
  | VString s => truthy_str s
  | VArray _ | VObject _ => true
  end.

(** An integer-valued Number. *)
Definition number_of_nat (n : nat) : float :=
  PrimFloat.of_uint63 (Uint63.of_Z (Z.of_nat n)).

(** A document of the store: its id, the two fields the plugin maintains
    and the remaining attributes. *)
Record Document := {
  documentId : jsstring;
  doc_embedding : option vector;
  doc_embeddingMetadata : option value;
  attributes : list (jsstring * value)
}.

(** [{ ...doc, similarityScore }] *)
Record ScoredDocument := {
  scored_doc : Document;
  similarityScore : float
}.

(* ===================================================================== *)
(** ** vector-service.js *)
(* ===================================================================== *)

(** One iteration of the accumulation loop:
    [(dotProduct, magnitudeA, magnitudeB)] after seeing [a[i], b[i]]. *)
Definition cosine_step (acc : float * float * float) (ab : float * float)
  : float * float * float :=
  let '(dotProduct, magnitudeA, magnitudeB) := acc in
  let '(a, b) := ab in
  (dotProduct + a * b, magnitudeA + a * a, magnitudeB + b * b)%float.

Definition calculateCosineSimilarity (vectorA vectorB : option vector)
  : completion float :=
  match vectorA, vectorB with
  | Some a, Some b =>
    if negb (length a =? length b) then Throw DimensionMismatch
    else
      let '(dotProduct, magnitudeA, magnitudeB) :=
        fold_left cosine_step (combine a b) (0, 0, 0)%float in
      let magnitudeA := PrimFloat.sqrt magnitudeA in
      let magnitudeB := PrimFloat.sqrt magnitudeB in
      if PrimFloat.eqb magnitudeA 0 || PrimFloat.eqb magnitudeB 0
      then Return 0%float
      else Return (dotProduct / (magnitudeA * magnitudeB))%float
  | _, _ => Throw DimensionMismatch
  end.

(** [Array.prototype.sort(compare)].  The sort is stable: an element moves
    behind a later one only when [compare] puts it after (a positive
    result; [NaN] counts as zero). *)
Section Sort.
Context {A : Type} (compare : A → A → float).

Fixpoint sort_insert (x : A) (l : list A) : list A :=
  match l with
  | [] => [x]
  | y :: l' =>
    if PrimFloat.ltb 0 (compare x y) then y :: sort_insert x l' else x :: l
  end.

Definition js_sort (l : list A) : list A := foldr sort_insert [] l.
End Sort.

(** [Array.prototype.slice(0, end)] for an integer [end]: a negative [end]
    counts from the end of the array. *)
Definition slice0 {A} (end_ : Z) (l : list A) : list A :=
  if (end_ <? 0)%Z
  then take (Z.to_nat (Z.max (Z.of_nat (length l) + end_) 0)) l
  else take (Z.to_nat end_) l.

(** The callback of [documents.map]: [None] is [null]. *)
Definition score_document (queryEmbedding : vector) (doc : Document)
  : option ScoredDocument :=
  match doc_embedding doc with
  | None => None
  | Some e =>
    match calculateCosineSimilarity (Some queryEmbedding) (Some e) with
    | Return similarity =>
        Some {| scored_doc := doc; similarityScore := similarity |}
    | Throw _ => None
    end
  end.

Definition by_score_desc (a b : ScoredDocument) : float :=
  (similarityScore b - similarityScore a)%float.

(** The candidates that were scored and reach the threshold, in the order
    of the store's answer: [documents.map(...).filter(...)]. *)
Definition scored_candidates (queryEmbedding : vector) (documents : list Document)
    (threshold : float) : list ScoredDocument :=
  List.filter (λ result, PrimFloat.leb threshold (similarityScore result))
    (omap (score_document queryEmbedding) documents).

(** [documents.map(...).filter(...).sort(...).slice(0, limit)] *)
Definition rank (queryEmbedding : vector) (documents : list Document)
    (limit : Z) (threshold : float) : list ScoredDocument :=
  slice0 limit (js_sort by_score_desc (scored_candidates queryEmbedding documents threshold)).

Record FindManyParams := {
  fm_filters : gmap (list N) value;
  fm_locale : option jsstring;
  fm_limit : Z
}.

(** The document store behind [strapi.documents(contentType)]. *)
Record Strapi := {
  findMany : jsstring → FindManyParams → completion (option (list Document))
}.

Record SearchSimilarOptions := {
  ss_limit : option Z;
  ss_threshold : option float;
  ss_filters : option (gmap (list N) value);
  ss_locale : option jsstring
}.

Definition notNull_filter : value := VObject [(str "$notNull", VBool true)].

(** [{ embedding: { $notNull: true }, ...filters }] *)
Definition with_embedding_filter (filters : gmap (list N) value)
  : gmap (list N) value :=
  filters ∪ {[ str "embedding" := notNull_filter ]}.

Definition searchSimilar (strapi : Strapi) (queryEmbedding : option vector)
    (contentType : jsstring) (options : SearchSimilarOptions)
  : completion (list ScoredDocument) :=
  match queryEmbedding with
  | Some q =>
    if negb (truthy_str contentType) then Throw InvalidInput_searchSimilar
    else
      let limit := default 10%Z (ss_limit options) in
      let threshold := default 0.1%float (ss_threshold options) in
      let filters := default ∅ (ss_filters options) in
      let locale := ss_locale options in
      try_catch
        (documents ← findMany strapi contentType
             {| fm_filters := with_embedding_filter filters;
                fm_locale := locale;
                fm_limit := 1000 |};
         match documents with
         | None | Some [] => Return []
         | Some documents => Return (rank q documents limit threshold)
         end)
        (λ error, Throw error)
  | None => Throw InvalidInput_searchSimilar
  end.

(* ===================================================================== *)
(** ** search-service.js *)
(* ===================================================================== *)

(** The [options] argument of [semanticSearch] and
    [multiContentTypeSearch]; [None] is an absent property.  The limit is
    an integer-valued Number, as [parseInt] and [Math.ceil] produce. *)
Record SearchOptions := {
  opt_limit : option Z;
  opt_threshold : option float;
  opt_filters : option (gmap (list N) value);
  opt_locale : option jsstring;
  opt_includeEmbedding : option bool;
  opt_aggregateResults : option bool
}.

(** [{ ...options, limit }] *)
Definition with_limit (limit : Z) (options : SearchOptions) : SearchOptions :=
  {| opt_limit := Some limit;
     opt_threshold := opt_threshold options;
     opt_filters := opt_filters options;
     opt_locale := opt_locale options;
     opt_includeEmbedding := opt_includeEmbedding options;
     opt_aggregateResults := opt_aggregateResults options |}.

Record QueryProcessing := {
  originalQuery : jsstring;
  qp_processedText : jsstring;
  embeddingDimensions : nat
}.

Record AppliedOptions := {
  ao_limit : Z;
  ao_threshold : float;
  ao_locale : option jsstring;
  filtersApplied : bool
}.

Record SearchMetadata := {
  totalResults : nat;
  queryProcessing : QueryProcessing;
  searchOptions : AppliedOptions
}.

Record SearchResponse := {
  resp_query : jsstring;
  resp_contentType : jsstring;
  resp_results : list ScoredDocument;
  resp_metadata : SearchMetadata
}.

(** [delete cleaned.embedding; delete cleaned.embeddingMetadata] on a copy. *)
Definition clean_result (includeEmbedding : bool) (result : ScoredDocument)
  : ScoredDocument :=
  if includeEmbedding then result
  else
    {| scored_doc :=
         {| documentId := documentId (scored_doc result);
            doc_embedding := None;
            doc_embeddingMetadata := None;
            attributes := attributes (scored_doc result) |};
       similarityScore := similarityScore result |}.

Definition semanticSearch (strapi : Strapi) (openai : option OpenAI)
    (query contentType : jsstring) (options : SearchOptions)
  : completion SearchResponse :=
  if negb (truthy_str query) || negb (truthy_str contentType)
  then Throw InvalidInput_search
  else
    let limit := default 10%Z (opt_limit options) in
    let threshold := default 0.1%float (opt_threshold options) in
    let filters := default ∅ (opt_filters options) in
    let locale := opt_locale options in
    let includeEmbedding := default false (opt_includeEmbedding options) in
    try_catch
      (queryResult ← generateEmbedding openai query;
       match embedding queryResult with
       | None => Throw EmbeddingMissing
       | Some queryEmbedding =>
         results ← searchSimilar strapi (Some queryEmbedding) contentType
             {| ss_limit := Some limit;
                ss_threshold := Some threshold;
                ss_filters := Some filters;
                ss_locale := locale |};
         let cleanResults := map (clean_result includeEmbedding) results in
         Return
           {| resp_query := query;
              resp_contentType := contentType;
              resp_results := cleanResults;
              resp_metadata :=
                {| totalResults := length cleanResults;
                   queryProcessing :=
                     {| originalQuery := query;
                        qp_processedText := processedText queryResult;
                        embeddingDimensions := length queryEmbedding |};
                   searchOptions :=
                     {| ao_limit := limit;
                        ao_threshold := threshold;
                        ao_locale := locale;
                        filtersApplied := 0 <? size filters |} |} |}
       end)
      (λ error, Throw error).

(** One element of [searchResults]: the response of a sub-search, or the
    entry its [.catch] handler builds,
    [{ query, contentType, results: [], error: error.message }]. *)
Inductive SubSearch : Type :=
  | SubResponse (response : SearchResponse)
  | SubError (query contentType : jsstring) (error : jsstring).

Definition sub_contentType (sr : SubSearch) : jsstring :=
  match sr with
  | SubResponse r => resp_contentType r
  | SubError _ contentType _ => contentType
  end.

Definition sub_results (sr : SubSearch) : list ScoredDocument :=
  match sr with
  | SubResponse r => resp_results r
  | SubError _ _ _ => []
  end.

(** [sr.error], undefined on a response. *)
Definition sub_error (sr : SubSearch) : option jsstring :=
  match sr with
  | SubResponse _ => None
  | SubError _ _ error => Some error
  end.

(** [!!sr.error] *)
Definition has_error (sr : SubSearch) : bool :=
  match sub_error sr with
  | Some error => truthy_str error
  | None => false
  end.

(** [{ ...result, contentType }] *)
Record TaggedResult := {
  tagged_result : ScoredDocument;
  tagged_contentType : jsstring
}.

Record IndividualResult := {
  ir_contentType : jsstring;
  ir_count : nat;
  ir_hasError : bool
}.

Record AggregatedMetadata := {
  agg_totalResults : nat;
  searchedContentTypes : list jsstring;
  individualResults : list IndividualResult
}.

Record SeparateMetadata := {
  totalContentTypes : nat;
  successfulSearches : nat
}.

(** The two shapes of the answer of [multiContentTypeSearch]. *)
Inductive MultiSearchResponse : Type :=
  | Aggregated (query : jsstring) (contentTypes : list jsstring)
      (results : list TaggedResult) (metadata : AggregatedMetadata)
  | Separate (query : jsstring) (contentTypes : list jsstring)
      (results : list SubSearch) (metadata : SeparateMetadata).

(** The Number that stands for an integer: the binary64 number nearest
    to it, which is the integer itself wherever it is a Number (so for
    every integer up to [2^53] in magnitude). *)
Definition number_of_Z (z : Z) : float :=
  FloatOps.SF2Prim
    (SpecFloat.binary_normalize FloatOps.prec FloatOps.emax z 0 false).

(** [Math.ceil] of a Number, as the integer it is.  The ceiling of an
    infinity is that infinity, which arises here only from a limit beyond
    [1.19e308]; as the end of a [slice], the one use the code makes of the
    result, it acts as any integer beyond the length of the array, for
    which [2^1024] (above every finite Number) stands.  [NaN] does not
    arise from an integer limit. *)
Definition Math_ceil (x : float) : Z :=
  match FloatOps.Prim2SF x with
  | SpecFloat.S754_finite s m e =>
    let n := if s then Z.neg m else Z.pos m in
    if (0 <=? e)%Z then n * 2 ^ e else - ((- n) / 2 ^ (- e))
  | SpecFloat.S754_infinity s => if s then - 2 ^ 1024 else 2 ^ 1024
  | _ => 0
  end%Z.

(** [Math.ceil(limit * 1.5)] on an integer [limit], in binary64 as the
    code computes it: the product is rounded to the nearest Number, so
    that from [3 * limit >= 2^53] on the result can differ from the exact
    ceiling of one and a half times the limit. *)
Definition ceil_1_5 (limit : Z) : Z := Math_ceil (number_of_Z limit * 1.5).

(** [this.semanticSearch(...).catch(error => ({ ... }))]: the promise of
    one collection, which never rejects. *)
Definition caught_search (strapi : Strapi) (openai : option OpenAI)
    (query : jsstring) (options : SearchOptions) (contentType : jsstring)
  : completion SubSearch :=
  try_catch
    (SubResponse <$> semanticSearch strapi openai query contentType options)
    (λ error, Return (SubError query contentType (message error))).

Definition tag_results (searchResult : SubSearch) : list TaggedResult :=
  map (λ result, {| tagged_result := result;
                    tagged_contentType := sub_contentType searchResult |})
      (sub_results searchResult).

Definition by_tagged_score_desc (a b : TaggedResult) : float :=
  (similarityScore (tagged_result b) - similarityScore (tagged_result a))%float.

Definition individual_result (sr : SubSearch) : IndividualResult :=
  {| ir_contentType := sub_contentType sr;
     ir_count := length (sub_results sr);
     ir_hasError := has_error sr |}.

(** [order] is the order in which the per-collection promises settle. *)
Definition multiContentTypeSearch (strapi : Strapi) (openai : option OpenAI)
    (order : list nat) (query : jsstring) (contentTypes : list jsstring)
    (options : SearchOptions) : completion MultiSearchResponse :=
  if negb (truthy_str query) || (length contentTypes =? 0)
  then Throw InvalidInput_multiSearch
  else
    let limit := default 10%Z (opt_limit options) in
    let aggregateResults := default true (opt_aggregateResults options) in
    try_catch
      (let searchPromises :=
         map (caught_search strapi openai query
                (with_limit (if aggregateResults then ceil_1_5 limit else limit)
                   options))
             contentTypes in
       searchResults ← promise_all order searchPromises;
       if aggregateResults then
         let allResults := concat (map tag_results searchResults) in
         let sortedResults := slice0 limit (js_sort by_tagged_score_desc allResults) in
         Return (Aggregated query contentTypes sortedResults
           {| agg_totalResults := length sortedResults;
              searchedContentTypes := contentTypes;
              individualResults := map individual_result searchResults |})
       else
         Return (Separate query contentTypes searchResults
           {| totalContentTypes := length contentTypes;
              successfulSearches :=
                length (List.filter (λ sr, negb (has_error sr)) searchResults) |}))
      (λ error, Throw error).

(* ===================================================================== *)
(** ** server/index.js: the lifecycle hook *)
(* ===================================================================== *)

Inductive LogLevel := LogDebug | LogInfo | LogWarn | LogError.

(** A call [strapi.log.<level>(text, detail)]. *)
Record LogEntry := {
  log_level : LogLevel;
  log_text : jsstring;
  log_detail : option jsstring
}.

(** What the hook can change: the [data] object of the write in flight,
    which the caller goes on to persist, and the log.  [hs_log] holds the
    lines the hook writes itself; the embedding service writes lines of
    its own to the same log, which are not listed here. *)
Record HookState := {
  hs_data : gmap (list N) value;
  hs_log : list LogEntry
}.

(** Code that reads and mutates the state and may throw.  A throw keeps
    the mutations made before it. *)
Definition Hook (A : Type) : Type := HookState → completion A * HookState.

Definition hook_ret {A} (a : A) : Hook A := λ st, (Return a, st).

Definition hook_bind {A B} (m : Hook A) (k : A → Hook B) : Hook B := λ st,
  match m st with
  | (Return a, st') => k a st'
  | (Throw e, st') => (Throw e, st')
  end.

Definition hook_lift {A} (c : completion A) : Hook A := λ st, (c, st).

Definition hook_try_catch {A} (body : Hook A) (handler : Error → Hook A) : Hook A :=
  λ st,
  match body st with
  | (Return a, st') => (Return a, st')
  | (Throw e, st') => handler e st'
  end.

Definition get_data : Hook (gmap (list N) value) := λ st, (Return (hs_data st), st).

(** [data[key] = v] *)
Definition set_data (key : jsstring) (v : value) : Hook () := λ st,
  (Return (), {| hs_data := <[key := v]> (hs_data st); hs_log := hs_log st |}).

Definition write_log (level : LogLevel) (text : jsstring) (detail : option jsstring)
  : Hook () := λ st,
  (Return (),
   {| hs_data := hs_data st;
      hs_log := hs_log st ++
        [{| log_level := level; log_text := text; log_detail := detail |}] |}).

#[global] Instance hook_mret : MRet Hook := @hook_ret.
#[global] Instance hook_mbind : MBind Hook := λ A B k m, hook_bind m k.

(** What the host provides to the hook: [JSON.stringify], the clock read
    by [new Date().toISOString()] and the plugin's validated
    [contentTypes] configuration. *)
Record Host := {
  JSON_stringify : value → completion jsstring;
  now_iso : jsstring;
  plugin_contentTypes : option (gmap (list N) (list (list N)))
}.

(** [event.model] is the uid or a model object carrying it. *)
Inductive ModelRef := ModelUid (uid : jsstring) | ModelObject (uid : jsstring).

Definition model_name (model : ModelRef) : jsstring :=
  match model with ModelUid uid | ModelObject uid => uid end.

Definition startsWith (s p : jsstring) : bool := bool_decide (p `prefix_of` s).

Definition default_textFields : list jsstring :=
  [str "title"; str "name"; str "content"; str "body"; str "summary";
   str "description"; str "excerpt"].

(** The body of [textFields.forEach]: what one field appends. *)
Definition field_text (host : Host) (with_objects : bool)
    (data : gmap (list N) value) (field : jsstring) : completion jsstring :=
  match data !! field with
  | Some v =>
    if truthy v then
      match v with
      | VString s => Return (s ++ str " ")
      | VArray _ => s ← JSON_stringify host v; Return (s ++ str " ")
      | VObject _ =>
          if with_objects then s ← JSON_stringify host v; Return (s ++ str " ")
          else Return []
      | _ => Return []
      end
    else Return []
  | None => Return []
  end.

Fixpoint extract_fields (host : Host) (with_objects : bool)
    (data : gmap (list N) value) (textFields : list jsstring)
    (textContent : jsstring) : completion jsstring :=
  match textFields with
  | [] => Return textContent
  | field :: rest =>
      piece ← field_text host with_objects data field;
      extract_fields host with_objects data rest (textContent ++ piece)
  end.

(** [extractTextContent(data, modelName, strapi)], the configurable one. *)
Definition extractTextContent (host : Host) (data : gmap (list N) value)
    (modelName : jsstring) : completion jsstring :=
  let contentTypes := default ∅ (plugin_contentTypes host) in
  let textFields := default default_textFields (contentTypes !! modelName) in
  trim <$> extract_fields host true data textFields [].

(** [extractTextContent(data)] of the first hook: the fixed field list,
    strings and arrays only. *)
Definition extractTextContent_fixed (host : Host) (data : gmap (list N) value)
    (modelName : jsstring) : completion jsstring :=
  trim <$> extract_fields host false data default_textFields [].

Definition embedding_metadata (host : Host) (dimensions : nat)
    (embeddingResult : EmbeddingResult) : value :=
  VObject
    [(str "model", VString embedding_model);
     (str "generatedAt", VString (now_iso host));
     (str "dimensions", VNumber (number_of_nat dimensions));
     (str "processedText", VString (processedText embeddingResult));
     (str "originalLength", VNumber (number_of_nat (originalLength embeddingResult)));
     (str "processedLength", VNumber (number_of_nat (processedLength embeddingResult)))].

Definition value_of_vector (v : vector) : value := VArray (map VNumber v).

(** The content types the hook leaves alone. *)
Definition is_system_model (modelName : jsstring) : bool :=
  startsWith modelName (str "admin::") || startsWith modelName (str "plugin::")
  || bool_decide (modelName = str "plugin::users-permissions.user").

Section Hook.
Context (extract : Host → gmap (list N) value → jsstring → completion jsstring).
Context (host : Host) (openai : option OpenAI).

Definition processDocumentEmbedding_with (model : ModelRef) (action : jsstring)
  : Hook () :=
  let modelName := model_name model in
  if is_system_model modelName then hook_ret ()
  else
    hook_try_catch
      (data ← get_data ;
       textContent ← hook_lift (extract host data modelName) ;
       if negb (truthy_str textContent) || (length (trim textContent) <? 10)
       then
         write_log LogDebug
           (str "Skipping embedding generation for " ++ modelName
              ++ str " - insufficient text content") None
       else
         embeddingResult ← hook_lift (generateEmbedding openai textContent) ;
         match embedding embeddingResult with
         | Some e =>
             set_data (str "embedding") (value_of_vector e) ;;
             set_data (str "embeddingMetadata")
               (embedding_metadata host (length e) embeddingResult) ;;
             write_log LogInfo
               (str "Generated embedding for " ++ modelName ++ str " document ("
                  ++ action ++ str ")") None
         | None => hook_ret ()
         end)
      (λ error,
         write_log LogError
           (str "Failed to generate embedding for " ++ modelName ++ str " document:")
           (Some (message error))).
End Hook.

(** The hook of the configurable plugin entry point and the one of the
    first entry point. *)
Definition processDocumentEmbedding := processDocumentEmbedding_with extractTextContent.
Definition processDocumentEmbedding_fixed :=
  processDocumentEmbedding_with extractTextContent_fixed.

(** [beforeCreate] / [beforeUpdate]: run the hook on the event's data; the
    result is how the hook completes, the payload handed on to the write
    and the log lines written. *)
Definition run_hook (hook : Hook ()) (data : gmap (list N) value)
  : completion () * HookState :=
  hook {| hs_data := data; hs_log := [] |}.

(* ===================================================================== *)
(** ** Notions used to state and prove the properties *)
(* ===================================================================== *)

(** A ['>'] occurs in [s]. *)
Definition has_gt (s : jsstring) : bool := existsb (λ c, (c =? ch_gt)%N) s.

(** The tag pattern matches somewhere in [s]: a ['<'] with a later ['>']. *)
Fixpoint has_tag (s : jsstring) : bool :=
  match s with
  | [] => false
  | c :: r => (c =? ch_lt)%N && has_gt r || has_tag r
  end.

Definition is_bracket (c : N) : bool := ((c =? ch_lt) || (c =? ch_gt))%N.

(** The angle brackets of [s], in order. *)
Definition brackets (s : jsstring) : jsstring := List.filter is_bracket s.

Definition head_space (s : jsstring) : bool :=
  match s with
  | [] => false
  | c :: _ => is_space c
  end.

(** Every whitespace code unit of [s] is a single space standing alone. *)
Fixpoint collapsed (s : jsstring) : bool :=
  match s with
  | [] => true
  | c :: r =>
    (if is_space c then (c =? ch_space)%N && negb (head_space r) else true)
    && collapsed r
  end.

(** While [Promise.all] runs: the slots filled so far hold the values of
    their own promises. *)
Definition slots_agree {A} (slots : list (option A)) (vs : list A) : Prop :=
  length slots = length vs ∧
  ∀ i x, slots !! i = Some (Some x) → vs !! i = Some x.

Definition filled {A} (slots : list (option A)) (i : nat) : Prop :=
  ∃ x, slots !! i = Some (Some x).

(** [magnitudeA] as [calculateCosineSimilarity] computes it: the square
    root of the running sum of squares. *)
Definition sum_squares (v : vector) (acc : float) : float :=
  fold_left (λ m x, m + x * x)%float v acc.

Definition magnitude (v : vector) : float := PrimFloat.sqrt (sum_squares v 0).

Definition dot_product (a b : vector) (acc : float) : float :=
  fold_left (λ d ab, d + fst ab * snd ab)%float (combine a b) acc.

(** A zero entry: [+0] or [-0]. *)
Definition is_zero (x : float) : Prop := x = 0%float ∨ x = (-0)%float.

(** The floats of [xs] are ordered numbers: none is [NaN], comparison is
    a total preorder on them and the sign of a difference tells the order
    of its operands.  IEEE-754 arithmetic guarantees this of every list
    without a [NaN]; on a given list it is checked by evaluation. *)
Definition ieee_ordered (xs : list float) : bool :=
  forallb (λ a, forallb (λ b,
    Bool.eqb (PrimFloat.ltb 0 (b - a)) (PrimFloat.ltb a b)
    && Bool.eqb (PrimFloat.leb b a) (negb (PrimFloat.ltb a b))
    && implb (PrimFloat.ltb a b) (PrimFloat.leb a b)
    && Bool.eqb (PrimFloat.eqb a b) (PrimFloat.leb a b && PrimFloat.leb b a)
    && forallb (λ c,
         implb (PrimFloat.leb a b && PrimFloat.leb b c) (PrimFloat.leb a c)) xs)
    xs) xs.

(** [x] may stand before [y] in a list sorted by descending score. *)
Definition desc {A} (score : A → float) (x y : A) : Prop :=
  PrimFloat.leb (score y) (score x) = true.

(** The comparison function [(a, b) => score(b) - score(a)]. *)
Definition by_score_of {A} (score : A → float) (a b : A) : float :=
  (score b - score a)%float.

(** All scores of [l] are among the numbers [xs]. *)
Definition scores_within {A} (score : A → float) (xs : list float) (l : list A)
  : Prop :=
  ∀ y, y ∈ l → score y ∈ xs.

(** The members of [l] whose score equals [s], in the order of [l]. *)
Definition with_score {A} (score : A → float) (s : float) (l : list A) : list A :=
  List.filter (λ y, PrimFloat.eqb s (score y)) l.

Definition is_return {A} (c : completion A) : bool :=
  match c with Return _ => true | Throw _ => false end.

Definition tagged_score (t : TaggedResult) : float :=
  similarityScore (tagged_result t).

(** What the promise of one collection is fulfilled with. *)
Definition sub_search (strapi : Strapi) (openai : option OpenAI)
    (query : jsstring) (options : SearchOptions) (contentType : jsstring)
  : SubSearch :=
  match semanticSearch strapi openai query contentType options with
  | Return response => SubResponse response
  | Throw error => SubError query contentType (message error)
  end.

(** [metadata.successfulSearches], a property of the separate answer only. *)
Definition reported_successfulSearches (response : MultiSearchResponse)
  : option nat :=
  match response with
  | Aggregated _ _ _ _ => None
  | Separate _ _ _ metadata => Some (successfulSearches metadata)
  end.

(** The log line of the hook's [catch] block. *)
Definition failure_entry (modelName : jsstring) (error : Error) : LogEntry :=
  {| log_level := LogError;
     log_text := str "Failed to generate embedding for " ++ modelName
                   ++ str " document:";
     log_detail := Some (message error) |}.

(* ===================================================================== *)
(** ** Sample data *)
(* ===================================================================== *)

Definition sample_document (id : jsstring) (e : option vector) : Document :=
  {| documentId := id; doc_embedding := e;
     doc_embeddingMetadata := None; attributes := [] |}.

(** Against the query [[1; 0]] the scores are 0, 1, about 0.707, 1 and,
    for the document without a vector, none. *)
Definition sample_documents : list Document :=
  [sample_document (str "a") (Some [0; 1]%float);
   sample_document (str "b") (Some [1; 0]%float);
   sample_document (str "c") (Some [1; 1]%float);
   sample_document (str "d") (Some [2; 0]%float);
   sample_document (str "e") None].

(** A store in which the query of "articles" answers with the sample
    documents and every other query throws. *)
Definition sample_strapi : Strapi :=
  {| findMany := λ contentType _,
       if bool_decide (contentType = str "articles")
       then Return (Some sample_documents)
       else Throw (new_Error (str "relation does not exist")) |}.

Definition sample_query : jsstring := str "AI and learning".

Definition no_options : SearchOptions :=
  {| opt_limit := None; opt_threshold := None; opt_filters := None;
     opt_locale := None; opt_includeEmbedding := None;
     opt_aggregateResults := None |}.

Definition separate_options : SearchOptions :=
  {| opt_limit := None; opt_threshold := None; opt_filters := None;
     opt_locale := None; opt_includeEmbedding := None;
     opt_aggregateResults := Some false |}.

Definition sample_texts : list jsstring :=
  [str "The first text of the batch";
   str "A second, longer text of the same batch";
   str "Third and last"].

(** What [sample_client] makes of a text that needs no cleaning. *)
Definition sample_result (text : jsstring) : EmbeddingResult :=
  {| embedding := Some [1; 0]%float;
     processedText := text;
     originalLength := length text;
     processedLength := length text |}.

(** A provider out of quota. *)
Definition failing_client : OpenAI :=
  {| embeddings_create := λ _ _,
       Throw (mkError (str "You exceeded your current quota")
                      (Some (str "insufficient_quota"))) |}.

Definition sample_host : Host :=
  {| JSON_stringify := λ _, Return (str "[]");
     now_iso := str "2025-01-01T00:00:00.000Z";
     plugin_contentTypes := None |}.

Definition sample_data : gmap (list N) value :=
  {[ str "title" := VString (str "An article about embeddings") ]}.

(** A provider that answers every request with the same two-dimensional
    vector. *)
Definition sample_client : OpenAI :=
  {| embeddings_create := λ _ _, Return (Some [1; 0]%float) |}.

(** A provider that refuses every input under 10 code units and answers
    the others as [sample_client] does. *)
Definition picky_client : OpenAI :=
  {| embeddings_create := λ model input,
       if length input <? 10
       then Throw (new_Error (str "input too short"))
       else embeddings_create sample_client model input |}.

(** A payload whose only text is two letters. *)
Definition short_data : gmap (list N) value :=
  {[ str "title" := VString (str "Hi") ]}.

(** A payload with a field the extraction does not read. *)
Definition tagged_data : gmap (list N) value :=
  <[ str "slug" := VString (str "an-article") ]> sample_data.

(** A store that answers the query of every collection with the sample
    documents. *)
Definition open_strapi : Strapi :=
  {| findMany := λ _ _, Return (Some sample_documents) |}.

(* ===================================================================== *)
(** ** embedding-service.js: initialisation *)
(* ===================================================================== *)

(** [init()]: [apiKey] is [process.env.OPENAI_API_KEY]; [connect] builds
    the client, [new OpenAI({ apiKey })].  Without a key the handle stays
    [null]. *)
Definition init (connect : jsstring → OpenAI) (apiKey : option jsstring)
  : option OpenAI :=
  match apiKey with
  | Some key => if truthy_str key then Some (connect key) else None
  | None => None
  end.

(* ===================================================================== *)
(** ** search-service.js: the filter shortcuts *)
(* ===================================================================== *)

(** The [filters] argument of [searchWithFilters]; [VUndefined] is an
    absent property, [customFields] an object when present. *)
Record FilterShortcuts := {
  dateFrom : value;
  dateTo : value;
  publishedAt : value;
  customFields : option (gmap (list N) value)
}.

(** [{ ...options, filters }] *)
Definition with_filters (filters : gmap (list N) value) (options : SearchOptions)
  : SearchOptions :=
  {| opt_limit := opt_limit options;
     opt_threshold := opt_threshold options;
     opt_filters := Some filters;
     opt_locale := opt_locale options;
     opt_includeEmbedding := opt_includeEmbedding options;
     opt_aggregateResults := opt_aggregateResults options |}.

(** The object [dateFilter]. *)
Definition date_filter (filters : FilterShortcuts) : value :=
  VObject
    ((if truthy (dateFrom filters) then [(str "$gte", dateFrom filters)] else [])
     ++ (if truthy (dateTo filters) then [(str "$lte", dateTo filters)] else [])).

(** The object [searchFilters] that [searchWithFilters] builds. *)
Definition build_searchFilters (filters : FilterShortcuts) : gmap (list N) value :=
  let searchFilters : gmap (list N) value := ∅ in
  let searchFilters :=
    if truthy (dateFrom filters) || truthy (dateTo filters)
    then <[str "createdAt" := date_filter filters]> searchFilters
    else searchFilters in
  let searchFilters :=
    match publishedAt filters with
    | VString status =>
      if bool_decide (status = str "published")
      then <[str "publishedAt" := VObject [(str "$notNull", VBool true)]]> searchFilters
      else if bool_decide (status = str "draft")
      then <[str "publishedAt" := VObject [(str "$null", VBool true)]]> searchFilters
      else searchFilters
    | _ => searchFilters
    end in
  match customFields filters with
  | Some custom => custom ∪ searchFilters
  | None => searchFilters
  end.

Definition searchWithFilters (strapi : Strapi) (openai : option OpenAI)
    (query contentType : jsstring) (filters : FilterShortcuts)
    (options : SearchOptions) : completion SearchResponse :=
  semanticSearch strapi openai query contentType
    (with_filters (build_searchFilters filters) options).

(* ===================================================================== *)
(** ** server/index.js: the configuration of the content types *)
(* ===================================================================== *)

(** The [contentTypes] configuration as it arrives: an object from
    content-type names to anything, or something that is no object. *)
Inductive ConfigInput : Type :=
  | ConfigObject (entries : gmap (list N) value)
  | ConfigNotObject.

Definition defaultContentTypes : gmap (list N) (list (list N)) :=
  {[ str "api::article.article" := [str "title"; str "content"; str "summary"];
     str "api::blog.blog" := [str "title"; str "body"; str "excerpt"] ]}.

(** [contentType.startsWith('api::') && contentType.includes('.')] *)
Definition valid_contentType (contentType : jsstring) : bool :=
  startsWith contentType (str "api::") && existsb (N.eqb 46) contentType.

(** [typeof field === 'string' && field.trim() !== ''], with the string. *)
Definition valid_field (field : value) : option jsstring :=
  match field with
  | VString name => if truthy_str (trim name) then Some name else None
  | _ => None
  end.

(** The body of the [forEach] of [validateConfiguration]: what is stored
    under [contentType], if anything. *)
Definition validate_entry (contentType : jsstring) (fields : value)
  : option (list jsstring) :=
  if valid_contentType contentType then
    match fields with
    | VArray items =>
      match omap valid_field items with
      | [] => None
      | validFields => Some validFields
      end
    | _ => None
    end
  else None.

Definition validateConfiguration (contentTypes : ConfigInput)
  : gmap (list N) (list (list N)) :=
  match contentTypes with
  | ConfigNotObject => defaultContentTypes
  | ConfigObject entries => map_imap validate_entry entries
  end.

(** A validated configuration written back as a configuration object. *)
Definition config_object (config : gmap (list N) (list (list N))) : ConfigInput :=
  ConfigObject ((λ fields, VArray (map VString fields)) <$> config).

(** The host once [registerEmbeddingLifecycles] has stored the validated
    configuration in the plugin. *)
Definition configured (host : Host) (contentTypes : ConfigInput) : Host :=
  {| JSON_stringify := JSON_stringify host;
     now_iso := now_iso host;
     plugin_contentTypes := Some (validateConfiguration contentTypes) |}.

(* ===================================================================== *)
(** ** vector-service.js: statistics *)
(* ===================================================================== *)

(** What [getEmbeddingStats] uses of the host: [count], the names in
    [strapi.contentTypes] and [Number.prototype.toFixed(2)]. *)
Record StatsHost := {
  count : jsstring → option (gmap (list N) value) → completion nat;
  registered_contentTypes : list jsstring;
  toFixed2 : float → jsstring
}.

Record Stats := {
  total : nat;
  withEmbeddings : nat;
  coverage : jsstring
}.

Definition embedding_notNull : gmap (list N) value :=
  {[ str "embedding" := notNull_filter ]}.

(** The two counts and the entry of one content type. *)
Definition stats_of (host : StatsHost) (contentType : jsstring) : completion Stats :=
  total ← count host contentType None;
  withEmbeddings ← count host contentType (Some embedding_notNull);
  Return
    {| total := total;
       withEmbeddings := withEmbeddings;
       coverage :=
         if 0 <? total
         then toFixed2 host
                (number_of_nat withEmbeddings / number_of_nat total * 100)%float
              ++ str "%"
         else str "0%" |}.

(** The [for] loop over all content types: a type whose counts fail is
    skipped. *)
Fixpoint stats_loop (host : StatsHost) (contentTypes : list jsstring)
    (stats : gmap (list N) Stats) : gmap (list N) Stats :=
  match contentTypes with
  | [] => stats
  | type :: rest =>
    match stats_of host type with
    | Return entry => stats_loop host rest (<[type := entry]> stats)
    | Throw _ => stats_loop host rest stats
    end
  end.

Definition getEmbeddingStats (host : StatsHost) (contentType : option jsstring)
  : completion (gmap (list N) Stats) :=
  try_catch
    (match contentType with
     | Some type =>
       if truthy_str type then
         entry ← stats_of host type; Return (<[type := entry]> ∅)
       else
         Return (stats_loop host
           (List.filter (λ type, negb (startsWith type (str "admin::"))
                                 && negb (startsWith type (str "plugin::")))
              (registered_contentTypes host)) ∅)
     | None =>
         Return (stats_loop host
           (List.filter (λ type, negb (startsWith type (str "admin::"))
                                 && negb (startsWith type (str "plugin::")))
              (registered_contentTypes host)) ∅)
     end)
    (λ error, Throw error).

(* ===================================================================== *)
(** ** controllers: the search API *)
(* ===================================================================== *)

(** What a controller leaves in [ctx]. *)
Inductive HttpResponse (A : Type) : Type :=
  | Success (data : A)
  | BadRequest (msg : jsstring)
  | InternalServerError (msg : jsstring) (error : jsstring).
Arguments Success {A} data.
Arguments BadRequest {A} msg.
Arguments InternalServerError {A} msg error.

(** [ctx.request.body] of the search route.  The limit is an integer
    Number that is written without an exponent (see [plain_integer]) and
    the threshold a Number, on which [parseInt] and [parseFloat] act as
    below. *)
Record SearchBody := {
  body_query : jsstring;
  body_contentType : jsstring;
  body_limit : option Z;
  body_threshold : option float;
  body_filters : option (gmap (list N) value)
}.

(** [parseFloat] of a Number: the number read back from its decimal
    form, which loses only the sign of zero. *)
Definition parseFloat_number (x : float) : float :=
  if PrimFloat.eqb x 0 then 0%float else x.

(** The integers that are written without an exponent, which [parseInt]
    reads back unchanged: those below [10^21] in magnitude. *)
Definition plain_integer (n : Z) : bool := (Z.abs n <? 10 ^ 21)%Z.

(** [Math.min(parseInt(limit), 50)] *)
Definition capped_limit (limit : option Z) : Z := Z.min (default 10%Z limit) 50.


(** [ctx.request.body] of the multi-search route; [aggregateResults] is
    whatever the client sent, [None] when absent. *)
Record MultiSearchBody := {
  mbody_query : jsstring;
  mbody_contentTypes : list jsstring;
  mbody_limit : option Z;
  mbody_threshold : option float;
  mbody_aggregateResults : option value
}.

(** [aggregateResults === true || aggregateResults === 'true'], after the
    default [true]. *)
Definition wants_aggregate (aggregateResults : option value) : bool :=
  match default (VBool true) aggregateResults with
  | VBool b => b
  | VString s => bool_decide (s = str "true")
  | _ => false
  end.

(** The first content type that is not registered, as the [for] loop of
    the controller finds it. *)
Fixpoint first_unknown (contentTypes : gset (list N)) (requested : list jsstring)
  : option jsstring :=
  match requested with
  | [] => None
  | contentType :: rest =>
    if bool_decide (contentType ∈ contentTypes) then first_unknown contentTypes rest
    else Some contentType
  end.

Definition multiSearch_controller (contentTypes : gset (list N)) (strapi : Strapi)
    (openai : option OpenAI) (order : list nat) (body : MultiSearchBody)
  : HttpResponse MultiSearchResponse :=
  if negb (truthy_str (mbody_query body)) then BadRequest (str "Query is required")
  else if length (mbody_contentTypes body) =? 0
  then BadRequest (str "Content types array is required")
  else
    match first_unknown contentTypes (mbody_contentTypes body) with
    | Some contentType =>
        BadRequest (str "Content type " ++ contentType ++ str " not found")
    | None =>
      let searchOptions :=
        {| opt_limit := Some (capped_limit (mbody_limit body));
           opt_threshold :=
             Some (parseFloat_number (default 0.1%float (mbody_threshold body)));
           opt_filters := None;
           opt_locale := None;
           opt_includeEmbedding := None;
           opt_aggregateResults := Some (wants_aggregate (mbody_aggregateResults body)) |} in
      match multiContentTypeSearch strapi openai order (mbody_query body)
              (mbody_contentTypes body) searchOptions with
      | Return results => Success results
      | Throw error => InternalServerError (str "Multi-search failed") (message error)
      end
    end.

Definition getStats_controller (host : StatsHost) (contentType : option jsstring)
  : HttpResponse (gmap (list N) Stats) :=
  match getEmbeddingStats host contentType with
  | Return stats => Success stats
  | Throw error => InternalServerError (str "Failed to get stats") (message error)
  end.


(* ===================================================================== *)
(** ** Sample data of the statistics and the controllers *)
(* ===================================================================== *)

(** A host with three registered types: the articles can be counted,
    four documents of which three hold a vector; the counts of the other
    types fail. *)
Definition sample_stats_host : StatsHost :=
  {| count := λ contentType filters,
       if bool_decide (contentType = str "api::article.article")
       then Return (match filters with None => 4 | Some _ => 3 end)
       else Throw (new_Error (str "relation does not exist"));
     registered_contentTypes :=
       [str "admin::user"; str "api::article.article"; str "api::broken.broken"];
     toFixed2 := λ _, str "75.00" |}.


Definition sample_body : SearchBody :=
  {| body_query := sample_query;
     body_contentType := str "articles";
     body_limit := Some 2%Z;
     body_threshold := None;
     body_filters := None |}.

Definition sample_multi_body : MultiSearchBody :=
  {| mbody_query := sample_query;
     mbody_contentTypes := [str "articles"; str "blogs"];
     mbody_limit := None;
     mbody_threshold := None;
     mbody_aggregateResults := Some (VString (str "false")) |}.

(* ===================================================================== *)
(** ** IEEE 754: the place of a number in the order *)

(** The place of a number that is not [NaN] in the order: its class
    (infinities, negative, zero, positive), then exponent and mantissa. *)
Definition float_key (x : SpecFloat.spec_float) : Z * Z * Z :=
  match x with
  | SpecFloat.S754_zero _ => (0, 0, 0)
  | SpecFloat.S754_infinity s => (if s then -2 else 2, 0, 0)
  | SpecFloat.S754_nan => (0, 0, 0)
  | SpecFloat.S754_finite s m e =>
    if s then (-1, - e, - Z.pos m) else (1, e, Z.pos m)
  end%Z.

Definition key_lt (a b : Z * Z * Z) : Prop :=
  (a.1.1 < b.1.1 ∨ a.1.1 = b.1.1 ∧ (a.1.2 < b.1.2 ∨ a.1.2 = b.1.2 ∧ a.2 < b.2))%Z.

Definition key_eq (a b : Z * Z * Z) : Prop :=
  (a.1.1 = b.1.1 ∧ a.1.2 = b.1.2 ∧ a.2 = b.2)%Z.

Definition is_nan (x : SpecFloat.spec_float) : bool :=
  match x with SpecFloat.S754_nan => true | _ => false end.

(** Rounding a non-zero integer keeps its sign: the result is a number of
    that sign or the infinity of that sign, never zero. *)
Definition nonzero_of_sign (s : bool) (x : SpecFloat.spec_float) : Prop :=
  match x with
  | SpecFloat.S754_finite s' _ _ | SpecFloat.S754_infinity s' => s' = s
  | _ => False
  end.

(** [x === x]: the number is not [NaN]. *)
Definition not_NaN (x : float) : bool := PrimFloat.eqb x x.

(* ********************************************************************* *)
(** * Properties *)
(* ********************************************************************* *)

(* ===================================================================== *)
(** ** Text preprocessing *)
(* ===================================================================== *)

Lemma replace_tags_cons c r :
  replace_tags (c :: r) =
  match match_tag (c :: r) with
  | Some rest => ch_space :: replace_tags rest
  | None => c :: replace_tags r
  end.
Proof.
  rewrite replace_tags_equation_2. unfold inspect.
  assert (H : ∀ o (e : match_tag (c :: r) = o),
    replace_tags_unfold_clause_2 c r (o ↾ e) =
    match o with
    | Some rest => ch_space :: replace_tags rest
    | None => c :: replace_tags r
    end) by (intros [?|] e; simp replace_tags; done).
  apply H.
Qed.

Lemma replace_spaces_cons c r :
  replace_spaces (c :: r) =
  if is_space c then ch_space :: replace_spaces (trimStart r)
  else c :: replace_spaces r.
Proof.
  rewrite replace_spaces_equation_2. unfold inspect.
  assert (H : ∀ o (e : match_spaces (c :: r) = o),
    replace_spaces_unfold_clause_2 c r (o ↾ e) =
    match o with
    | Some rest => ch_space :: replace_spaces rest
    | None => c :: replace_spaces r
    end) by (intros [?|] e; simp replace_spaces; done).
  rewrite H. simpl. by destruct (is_space c).
Qed.

Lemma trimStart_length s : length (trimStart s) ≤ length s.
Proof.
  induction s as [|c s IH]; simpl; [lia|].
  destruct (is_space c); simpl; lia.
Qed.

Lemma match_tag_rest_length s rest :
  match_tag_rest s = Some rest → length rest < length s.
Proof.
  revert rest. induction s as [|c s IH]; simpl; intros rest; [done|].
  destruct (c =? ch_gt)%N; [intros [= ->]; lia|].
  intros H%IH. lia.
Qed.

Lemma match_tag_rest_None s : match_tag_rest s = None ↔ has_gt s = false.
Proof.
  unfold has_gt. induction s as [|c s IH]; simpl; [done|].
  destruct (c =? ch_gt)%N; simpl; [done|apply IH].
Qed.

Lemma match_tag_None c r :
  match_tag (c :: r) = None ↔ (c =? ch_lt)%N && has_gt r = false.
Proof.
  simpl. destruct (c =? ch_lt)%N; simpl; [apply match_tag_rest_None|done].
Qed.

Lemma is_space_not_bracket c : is_space c = true → is_bracket c = false.
Proof.
  unfold is_bracket. intros Hc.
  destruct (c =? ch_lt)%N eqn:E1; [apply N.eqb_eq in E1; by subst|].
  destruct (c =? ch_gt)%N eqn:E2; [apply N.eqb_eq in E2; by subst|done].
Qed.

(** Induction on the length of a string, as the scanners recurse. *)
Lemma jsstring_length_ind (P : jsstring → Prop) :
  (∀ s, (∀ t, length t < length s → P t) → P s) → ∀ s, P s.
Proof.
  intros step s. remember (length s) as n eqn:Hn.
  revert s Hn. induction (lt_wf n) as [n _ IH]. intros s ->.
  apply step. intros t Ht. by eapply IH.
Qed.

(** *** Tags *)

(** Replacing tags never introduces a ['>']. *)
Lemma replace_tags_has_gt s : has_gt s = false → has_gt (replace_tags s) = false.
Proof.
  induction s as [s IH] using jsstring_length_ind.
  destruct s as [|c r]; [done|]. intros Hgt.
  rewrite replace_tags_cons.
  assert (Hc : (c =? ch_gt)%N = false ∧ has_gt r = false).
  { unfold has_gt in *. simpl in Hgt. by apply orb_false_elim in Hgt. }
  destruct Hc as [Hc Hr].
  assert (Hm : match_tag (c :: r) = None).
  { apply match_tag_None. rewrite Hr. apply andb_false_r. }
  rewrite Hm. unfold has_gt. simpl. rewrite Hc. simpl.
  apply IH; [simpl; lia|done].
Qed.

(** After the replacement the pattern matches nowhere. *)
Lemma replace_tags_no_tag s : has_tag (replace_tags s) = false.
Proof.
  induction s as [s IH] using jsstring_length_ind.
  destruct s as [|c r]; [done|].
  rewrite replace_tags_cons.
  destruct (match_tag (c :: r)) as [rest|] eqn:Hm.
  - simpl. apply IH. simpl in Hm.
    destruct (c =? ch_lt)%N; [|done].
    apply match_tag_rest_length in Hm. simpl. lia.
  - simpl. rewrite IH by (simpl; lia). rewrite orb_false_r.
    apply match_tag_None in Hm.
    destruct (c =? ch_lt)%N; [|done]. simpl in *.
    by apply replace_tags_has_gt.
Qed.

(** Where the pattern matches nowhere, the replacement changes nothing. *)
Lemma replace_tags_id s : has_tag s = false → replace_tags s = s.
Proof.
  induction s as [|c r IH]; [done|]. simpl.
  intros [Hc Hr]%orb_false_elim.
  rewrite replace_tags_cons.
  apply match_tag_None in Hc. rewrite Hc. by rewrite IH.
Qed.

Lemma has_gt_brackets s : has_gt (brackets s) = has_gt s.
Proof.
  unfold has_gt, brackets, is_bracket.
  induction s as [|c r IH]; [done|]. simpl.
  destruct (c =? ch_gt)%N eqn:E; simpl.
  - rewrite orb_true_r. simpl. by rewrite E.
  - rewrite orb_false_r. destruct (c =? ch_lt)%N; simpl; [by rewrite E|done].
Qed.

Lemma brackets_cons c r :
  brackets (c :: r) = if is_bracket c then c :: brackets r else brackets r.
Proof. reflexivity. Qed.

Lemma has_tag_brackets s : has_tag (brackets s) = has_tag s.
Proof.
  induction s as [|c r IH]; [done|].
  rewrite brackets_cons. unfold is_bracket. simpl.
  destruct (c =? ch_lt)%N eqn:E1; simpl.
  - rewrite E1. simpl. by rewrite has_gt_brackets, IH.
  - destruct (c =? ch_gt)%N eqn:E2; simpl; [|done].
    rewrite E1. simpl. done.
Qed.

Lemma brackets_trimStart s : brackets (trimStart s) = brackets s.
Proof.
  induction s as [|c r IH]; [done|]. cbn [trimStart].
  destruct (is_space c) eqn:E; [|done].
  by rewrite brackets_cons, (is_space_not_bracket c E).
Qed.

Lemma brackets_trimEnd s : brackets (trimEnd s) = brackets s.
Proof.
  unfold trimEnd, brackets. rewrite List.filter_rev.
  fold (brackets (trimStart (rev s))). rewrite brackets_trimStart.
  unfold brackets. by rewrite List.filter_rev, rev_involutive.
Qed.

Lemma brackets_trim s : brackets (trim s) = brackets s.
Proof. unfold trim. by rewrite brackets_trimEnd, brackets_trimStart. Qed.

Lemma brackets_replace_spaces s : brackets (replace_spaces s) = brackets s.
Proof.
  induction s as [s IH] using jsstring_length_ind.
  destruct s as [|c r]; [done|].
  rewrite replace_spaces_cons.
  destruct (is_space c) eqn:E.
  - rewrite !brackets_cons, (is_space_not_bracket c E).
    change (is_bracket ch_space) with false. simpl.
    rewrite IH; [apply brackets_trimStart|].
    pose proof (trimStart_length r). simpl. lia.
  - rewrite !brackets_cons. by rewrite IH by (simpl; lia).
Qed.

(** The normalised text contains no tag. *)
Lemma normalizedText_no_tag text : has_tag (normalizedText text) = false.
Proof.
  unfold normalizedText.
  rewrite <- has_tag_brackets, brackets_trim, brackets_replace_spaces,
    has_tag_brackets.
  apply replace_tags_no_tag.
Qed.

(** *** Whitespace *)

Lemma trimStart_id s : head_space s = false → trimStart s = s.
Proof. destruct s as [|c r]; simpl; [done|]. by intros ->. Qed.

Lemma head_space_trimStart s : head_space (trimStart s) = false.
Proof.
  induction s as [|c r IH]; [done|]. simpl.
  destruct (is_space c) eqn:E; [done|]. simpl. by rewrite E.
Qed.

(** [trimStart] keeps a suffix, [trimEnd] a prefix. *)
Lemma trimStart_suffix s : ∃ w, s = w ++ trimStart s.
Proof.
  induction s as [|c r [w IH]]; [by exists []|]. simpl.
  destruct (is_space c); [|by exists []].
  exists (c :: w). simpl. by rewrite <- IH.
Qed.

Lemma trimEnd_prefix s : ∃ w, s = trimEnd s ++ w.
Proof.
  destruct (trimStart_suffix (rev s)) as [w Hw]. exists (rev w).
  unfold trimEnd. rewrite <- rev_app_distr, <- Hw. by rewrite rev_involutive.
Qed.

Lemma head_space_trimEnd s : head_space s = false → head_space (trimEnd s) = false.
Proof.
  destruct (trimEnd_prefix s) as [w Hw]. intros Hs.
  destruct (trimEnd s) as [|c t]; [done|]. rewrite Hw in Hs. done.
Qed.

Lemma trimEnd_id s : head_space (rev s) = false → trimEnd s = s.
Proof.
  intros H. unfold trimEnd. by rewrite trimStart_id, rev_involutive.
Qed.

(** A trimmed string is a fixed point of [trim]. *)
Lemma trim_idempotent s : trim (trim s) = trim s.
Proof.
  assert (Hhead : head_space (trim s) = false).
  { apply head_space_trimEnd, head_space_trimStart. }
  assert (Hlast : head_space (rev (trim s)) = false).
  { unfold trim, trimEnd. rewrite rev_involutive. apply head_space_trimStart. }
  unfold trim at 1. rewrite (trimStart_id _ Hhead). by apply trimEnd_id.
Qed.

Lemma head_space_replace_spaces s : head_space (replace_spaces s) = head_space s.
Proof.
  destruct s as [|c r]; [done|]. rewrite replace_spaces_cons.
  destruct (is_space c) eqn:E; simpl; by rewrite ?E.
Qed.

Lemma replace_spaces_collapsed s : collapsed (replace_spaces s) = true.
Proof.
  induction s as [s IH] using jsstring_length_ind.
  destruct s as [|c r]; [done|].
  rewrite replace_spaces_cons.
  destruct (is_space c) eqn:E.
  - cbn [collapsed]. change (is_space ch_space) with true. cbv iota.
    rewrite N.eqb_refl, head_space_replace_spaces, head_space_trimStart.
    simpl. apply IH. pose proof (trimStart_length r). simpl. lia.
  - cbn [collapsed]. rewrite E. simpl. apply IH. simpl. lia.
Qed.

Lemma collapsed_replace_spaces_id s : collapsed s = true → replace_spaces s = s.
Proof.
  induction s as [|c r IH]; [done|]. cbn [collapsed].
  rewrite replace_spaces_cons.
  destruct (is_space c).
  - intros [[Hc Hr%negb_true_iff]%andb_true_iff Hcol]%andb_true_iff.
    apply N.eqb_eq in Hc. subst c.
    by rewrite (trimStart_id _ Hr), IH.
  - simpl. intros Hcol. by rewrite IH.
Qed.

Lemma collapsed_trimStart s : collapsed s = true → collapsed (trimStart s) = true.
Proof.
  induction s as [|c r IH]; [done|]. cbn [collapsed trimStart].
  destruct (is_space c) eqn:E.
  - intros [_ Hcol]%andb_true_iff. by apply IH.
  - intros Hcol. cbn [collapsed]. by rewrite E.
Qed.

Lemma collapsed_app_l p w : collapsed (p ++ w) = true → collapsed p = true.
Proof.
  induction p as [|c p IH]; [done|]. cbn [app collapsed].
  intros [Hc Hcol]%andb_true_iff. rewrite (IH Hcol), andb_true_r.
  destruct (is_space c); [|done].
  apply andb_true_iff in Hc as [-> Hc]. simpl.
  destruct p as [|d p]; [done|]. exact Hc.
Qed.

Lemma collapsed_trim s : collapsed s = true → collapsed (trim s) = true.
Proof.
  intros H%collapsed_trimStart. unfold trim.
  destruct (trimEnd_prefix (trimStart s)) as [w Hw].
  rewrite Hw in H. by apply collapsed_app_l in H.
Qed.

(** The normalised text is a fixed point of the normalisation. *)
Lemma normalizedText_idempotent text :
  normalizedText (normalizedText text) = normalizedText text.
Proof.
  unfold normalizedText at 1.
  rewrite (replace_tags_id _ (normalizedText_no_tag text)).
  rewrite collapsed_replace_spaces_id.
  - apply trim_idempotent.
  - apply collapsed_trim, replace_spaces_collapsed.
Qed.

Lemma maxLength_ge_10 : 10 ≤ maxLength.
Proof. apply Nat.leb_le. vm_compute. reflexivity. Qed.

(** The tags become spaces, the runs of whitespace one space, and the
    ends are trimmed. *)
Example preprocessText_hello :
  preprocessText (str "<p>Hello   world</p>") = str "Hello world".
Proof. vm_compute. reflexivity. Qed.

(** Below the cap, preprocessing is the normalisation. *)
Lemma preprocessText_below_cap text :
  truthy_str text = true → length (normalizedText text) ≤ maxLength →
  preprocessText text = normalizedText text.
Proof.
  unfold preprocessText. intros -> Hlen%Nat.ltb_ge.
  cbn [negb]. by rewrite Hlen.
Qed.

(** C10: for every input whose normalised form (tags replaced by a space,
    whitespace runs collapsed, ends trimmed) has at most 8000 code units,
    preprocessing the preprocessed text changes nothing. *)
Theorem preprocessText_idempotent text :
  length (normalizedText text) ≤ maxLength →
  preprocessText (preprocessText text) = preprocessText text.
Proof.
  intros Hlen.
  destruct (truthy_str text) eqn:Ht; [|by destruct text].
  rewrite (preprocessText_below_cap text Ht Hlen).
  destruct (truthy_str (normalizedText text)) eqn:Hn.
  - rewrite preprocessText_below_cap; [apply normalizedText_idempotent|done|].
    by rewrite normalizedText_idempotent.
  - by destruct (normalizedText text).
Qed.

Lemma preprocessText_idempotent_witness :
  preprocessText (preprocessText (str "<p>Hello   world</p>"))
  = preprocessText (str "<p>Hello   world</p>").
Proof.
  apply preprocessText_idempotent.
  apply Nat.leb_le. vm_compute. reflexivity.
Defined.

(* ===================================================================== *)
(** ** The embedding client *)
(* ===================================================================== *)

Lemma trim_nonempty_truthy text : trim text ≠ [] → truthy_str text = true.
Proof. by destruct text. Qed.

(** C4, as the code has it: with an initialised client, every text that is
    not blank and whose normalised form is under 10 code units is refused
    with [TextTooShort]; every text that is empty or blank is refused
    before that, with the missing-text error. *)
Theorem generateEmbedding_text_too_short client text :
  (trim text = [] →
   generateEmbedding (Some client) text = Throw InvalidInput_text) ∧
  (trim text ≠ [] →
   length (normalizedText text) < 10 →
   generateEmbedding (Some client) text = Throw TextTooShort).
Proof.
  split.
  - intros Hblank. unfold generateEmbedding. rewrite Hblank.
    cbn [length Nat.eqb]. by rewrite orb_true_r.
  - intros Hblank Hshort. unfold generateEmbedding.
    pose proof (trim_nonempty_truthy text Hblank) as Ht. rewrite Ht.
    assert (Hlen : (length (trim text) =? 0) = false).
    { apply Nat.eqb_neq. by destruct (trim text). }
    rewrite Hlen. cbn [negb orb].
    pose proof maxLength_ge_10.
    rewrite preprocessText_below_cap by (done || lia).
    apply Nat.ltb_lt in Hshort. by rewrite Hshort.
Qed.

Lemma generateEmbedding_text_too_short_witness :
  generateEmbedding (Some sample_client) (str "ab ") = Throw TextTooShort ∧
  generateEmbedding (Some sample_client) (str "   ") = Throw InvalidInput_text.
Proof.
  split.
  - apply (generateEmbedding_text_too_short sample_client (str "ab ")).
    + vm_compute. discriminate.
    + apply Nat.ltb_lt. vm_compute. reflexivity.
  - apply (generateEmbedding_text_too_short sample_client (str "   ")).
    vm_compute. reflexivity.
Defined.

(** C4 as stated fails on a blank text: its normalised form is empty, hence
    under 10 code units, but the guard on the raw text answers first, with
    the missing-text error. *)
Lemma generateEmbedding_blank_text :
  length (normalizedText (str "   ")) < 10 ∧
  generateEmbedding (Some sample_client) (str "   ") = Throw InvalidInput_text ∧
  InvalidInput_text ≠ TextTooShort.
Proof.
  split; [apply Nat.ltb_lt; vm_compute; reflexivity|].
  split; [vm_compute; reflexivity|].
  vm_compute. discriminate.
Qed.

(* ===================================================================== *)
(** ** Cosine similarity *)
(* ===================================================================== *)

(** The three accumulators of the loop, one at a time. *)
Lemma cosine_loop a b dot ma mb :
  length a = length b →
  fold_left cosine_step (combine a b) (dot, ma, mb)
  = (dot_product a b dot, sum_squares a ma, sum_squares b mb).
Proof.
  unfold dot_product, sum_squares.
  revert b dot ma mb. induction a as [|x a IH]; intros [|y b] dot ma mb Hlen;
    simpl in *; try done.
  apply IH. lia.
Qed.

Lemma calculateCosineSimilarity_eq a b :
  length a = length b →
  calculateCosineSimilarity (Some a) (Some b) =
  if PrimFloat.eqb (magnitude a) 0 || PrimFloat.eqb (magnitude b) 0
  then Return 0%float
  else Return (dot_product a b 0 / (magnitude a * magnitude b))%float.
Proof.
  intros Hlen. unfold calculateCosineSimilarity.
  apply Nat.eqb_eq in Hlen as Hlenb. rewrite Hlenb. cbn [negb].
  apply Nat.eqb_eq in Hlenb. by rewrite cosine_loop.
Qed.

(** C3, as the code has it: the similarity fails with [DimensionMismatch]
    whenever a vector is absent or the two lengths differ. *)
Theorem calculateCosineSimilarity_mismatch (vectorA vectorB : option vector) :
  (vectorA = None ∨ vectorB = None ∨
   ∃ a b, vectorA = Some a ∧ vectorB = Some b ∧ length a ≠ length b) →
  calculateCosineSimilarity vectorA vectorB = Throw DimensionMismatch.
Proof.
  intros [->|[->|(a & b & -> & -> & Hlen)]].
  - done.
  - by destruct vectorA.
  - unfold calculateCosineSimilarity.
    apply Nat.eqb_neq in Hlen. by rewrite Hlen.
Qed.

Lemma calculateCosineSimilarity_mismatch_witness :
  calculateCosineSimilarity (Some [1]%float) (Some [1; 2]%float)
  = Throw DimensionMismatch.
Proof.
  apply calculateCosineSimilarity_mismatch.
  right. right. exists [1]%float, [1; 2]%float.
  split; [reflexivity|]. split; [reflexivity|]. simpl. lia.
Defined.

(** C3 as stated fails on two empty vectors: their lengths agree, nothing
    is thrown and the zero-magnitude case answers 0. *)
Lemma calculateCosineSimilarity_empty :
  calculateCosineSimilarity (Some []) (Some []) = Return 0%float ∧
  calculateCosineSimilarity (Some []) (Some []) ≠ Throw DimensionMismatch.
Proof. split; [reflexivity|discriminate]. Qed.

(** The running sum of squares of a zero vector stays [+0]. *)
Lemma sum_squares_zero z : Forall is_zero z → sum_squares z 0 = 0%float.
Proof.
  unfold sum_squares. induction 1 as [|x z [->| ->] _ IH]; [done|..]; exact IH.
Qed.

Lemma magnitude_zero z : Forall is_zero z → PrimFloat.eqb (magnitude z) 0 = true.
Proof. intros H. unfold magnitude. by rewrite sum_squares_zero. Qed.

(** C9: for equal-length vectors, when the magnitude of either one is
    exactly zero the similarity is exactly 0; no division takes place.
    The magnitude of a vector of zeros is zero. *)
Theorem calculateCosineSimilarity_zero_magnitude a b :
  length a = length b →
  (PrimFloat.eqb (magnitude a) 0 = true ∨ PrimFloat.eqb (magnitude b) 0 = true
   ∨ Forall is_zero a ∨ Forall is_zero b) →
  calculateCosineSimilarity (Some a) (Some b) = Return 0%float.
Proof.
  intros Hlen Hzero. rewrite calculateCosineSimilarity_eq by done.
  assert (H : PrimFloat.eqb (magnitude a) 0 || PrimFloat.eqb (magnitude b) 0 = true).
  { apply orb_true_iff.
    destruct Hzero as [H|[H|[H|H]]]; auto using magnitude_zero. }
  by rewrite H.
Qed.

Lemma calculateCosineSimilarity_zero_magnitude_witness :
  calculateCosineSimilarity (Some [0; -0; 0]%float) (Some [1; 2; 3]%float)
  = Return 0%float.
Proof.
  apply calculateCosineSimilarity_zero_magnitude.
  - reflexivity.
  - right. right. left.
    repeat first [apply List.Forall_nil | apply List.Forall_cons];
      unfold is_zero; auto.
Defined.

(* ===================================================================== *)
(** ** Promise.all *)
(* ===================================================================== *)

Section PromiseAllFacts.
Context {A : Type}.
Implicit Types (vs : list A) (slots : list (option A)) (order : list nat).

Lemma slots_agree_insert slots vs i v :
  slots_agree slots vs → vs !! i = Some v →
  slots_agree (<[i := Some v]> slots) vs.
Proof.
  intros [Hlen Hslots] Hv. split; [by rewrite length_insert|].
  intros j x. destruct (decide (i = j)) as [->|Hne].
  - rewrite list_lookup_insert_eq; [congruence|].
    rewrite Hlen. by eapply lookup_lt_Some.
  - rewrite list_lookup_insert_ne by done. apply Hslots.
Qed.

Lemma filled_insert slots vs i j v :
  slots_agree slots vs → vs !! i = Some v →
  (j = i ∨ filled slots j) → filled (<[i := Some v]> slots) j.
Proof.
  intros [Hlen _] Hv Hj. unfold filled.
  destruct (decide (i = j)) as [->|Hne].
  - exists v. rewrite list_lookup_insert_eq; [done|].
    rewrite Hlen. by eapply lookup_lt_Some.
  - rewrite list_lookup_insert_ne by done.
    destruct Hj as [->|Hj]; done.
Qed.

(** When every promise is fulfilled, so is the run, whatever the order;
    it fills the slot of every promise that settled. *)
Lemma settle_fulfilled vs order slots :
  slots_agree slots vs →
  ∃ slots', settle (map Return vs) order slots = Return slots' ∧
    slots_agree slots' vs ∧
    ∀ j, j < length vs → (j ∈ order ∨ filled slots j) → filled slots' j.
Proof.
  revert slots. induction order as [|i rest IH]; intros slots Hagree.
  - exists slots. split; [done|]. split; [done|].
    intros j _ [Hin|Hj]; [by apply elem_of_nil in Hin|done].
  - cbn [settle]. rewrite list_lookup_fmap.
    destruct (vs !! i) as [v|] eqn:Hv; simpl.
    + destruct (IH _ (slots_agree_insert _ _ _ _ Hagree Hv))
        as (slots' & Hrun & Hagree' & Hfilled).
      exists slots'. split; [done|]. split; [done|].
      intros j Hj Hcase. apply Hfilled; [done|].
      destruct Hcase as [[->|Hin]%elem_of_cons|Hf].
      * right. eapply filled_insert; eauto.
      * by left.
      * right. eapply filled_insert; eauto.
    + destruct (IH _ Hagree) as (slots' & Hrun & Hagree' & Hfilled).
      exists slots'. split; [done|]. split; [done|].
      intros j Hj Hcase. apply Hfilled; [done|].
      destruct Hcase as [[->|Hin]%elem_of_cons|Hf]; [|by left|by right].
      apply lookup_lt_is_Some_2 in Hj. rewrite Hv in Hj. by destruct Hj.
Qed.

(** [Promise.all] of fulfilled promises is fulfilled with their values in
    the order of the promises, whatever the order of completion. *)
Lemma promise_all_fulfilled order vs :
  promise_all order (map Return vs) = Return vs.
Proof.
  unfold promise_all. rewrite length_map.
  destruct (settle_fulfilled vs (order ++ seq 0 (length vs))
              (replicate (length vs) None)) as (slots' & -> & [Hlen Hval] & Hfilled).
  { split; [by rewrite length_replicate|].
    intros i x [[=] _]%lookup_replicate. }
  f_equal.
  assert (Hslots : slots' = map Some vs).
  { apply list_eq. intros i. rewrite list_lookup_fmap.
    destruct (decide (i < length vs)) as [Hi|Hi].
    - destruct (Hfilled i Hi) as [x Hx].
      { left. apply elem_of_app. right. apply elem_of_seq. lia. }
      rewrite Hx. by rewrite (Hval _ _ Hx).
    - rewrite !lookup_ge_None_2; [done|lia..]. }
  rewrite Hslots. clear. induction vs as [|v vs IH]; [done|].
  simpl. f_equal. exact IH.
Qed.
End PromiseAllFacts.

(* ===================================================================== *)
(** ** Batch embedding *)
(* ===================================================================== *)

Lemma batchLoop_step openai schedule texts i results :
  batchLoop openai schedule texts i results =
  if i <? length texts then
    match promise_all (schedule i)
            (map (generateEmbedding openai) (slice i (i + batchSize) texts)) with
    | Return batchResults =>
        batchLoop openai schedule texts (i + batchSize) (results ++ batchResults)
    | Throw error => Throw error
    end
  else Return results.
Proof.
  rewrite batchLoop_equation_1. unfold inspect.
  assert (H : ∀ b (e : (i <? length texts) = b),
    batchLoop_unfold_clause_1 openai schedule texts i (b ↾ e) results =
    if b then
      match promise_all (schedule i)
              (map (generateEmbedding openai) (slice i (i + batchSize) texts)) with
      | Return batchResults =>
          batchLoop openai schedule texts (i + batchSize) (results ++ batchResults)
      | Throw error => Throw error
      end
    else Return results) by (intros [|] e; simp batchLoop; done).
  apply H.
Qed.

(** Calls that all succeed are as many fulfilled promises. *)
Lemma fulfilled_promises openai texts rs :
  Forall2 (λ t r, generateEmbedding openai t = Return r) texts rs →
  map (generateEmbedding openai) texts = map Return rs.
Proof. induction 1 as [|t r texts rs Ht _ IH]; simpl; [done|]. by rewrite Ht, IH. Qed.

(** The loop invariant: before the batch starting at [i], [results] holds
    the results of the first [i] texts. *)
Lemma batchLoop_fulfilled openai schedule texts rs n :
  Forall2 (λ t r, generateEmbedding openai t = Return r) texts rs →
  ∀ i, length texts - i ≤ n →
  batchLoop openai schedule texts i (take i rs) = Return rs.
Proof.
  intros Hall. pose proof (Forall2_length _ _ _ Hall) as Hlen.
  induction n as [|n IH]; intros i Hi; rewrite batchLoop_step.
  - assert (Hdone : (i <? length texts) = false) by (apply Nat.ltb_ge; lia).
    rewrite Hdone. f_equal. apply take_ge. lia.
  - destruct (i <? length texts) eqn:Hlt.
    + apply Nat.ltb_lt in Hlt. unfold slice.
      replace (i + batchSize - i) with batchSize by lia.
      rewrite (fulfilled_promises openai _ (take batchSize (drop i rs)))
        by by apply Forall2_take, Forall2_drop.
      rewrite promise_all_fulfilled, take_take_drop.
      apply IH. unfold batchSize. lia.
    + apply Nat.ltb_ge in Hlt. f_equal. apply take_ge. lia.
Qed.

(** C6: when every single embedding of a non-empty list of texts succeeds,
    the batch returns exactly those results, one per text and in the order
    of the texts, whatever the order in which the concurrent calls of each
    group complete; in particular result [i] carries the length of text
    [i] as its [originalLength]. *)
Theorem generateBatchEmbeddings_preserves_order openai schedule texts rs :
  texts ≠ [] →
  Forall2 (λ t r, generateEmbedding openai t = Return r) texts rs →
  generateBatchEmbeddings openai schedule texts = Return rs ∧
  length rs = length texts ∧
  ∀ i t, texts !! i = Some t →
    ∃ r, rs !! i = Some r ∧ generateEmbedding openai t = Return r ∧
         originalLength r = length t.
Proof.
  intros Hne Hall. split; [|split].
  - unfold generateBatchEmbeddings.
    destruct texts as [|t texts]; [done|]. cbn [length Nat.eqb].
    by apply (batchLoop_fulfilled openai schedule (t :: texts) rs
                (length (t :: texts)) Hall 0); lia.
  - symmetry. by eapply Forall2_length.
  - intros i t Ht.
    destruct (Forall2_lookup_l _ _ _ _ _ Hall Ht) as (r & Hr & Hgen).
    exists r. split; [done|]. split; [done|].
    unfold generateEmbedding in Hgen.
    destruct openai as [client|]; [|done].
    destruct (negb (truthy_str t) || (length (trim t) =? 0)); [done|].
    unfold try_catch in Hgen.
    destruct (length (preprocessText t) <? 10); [done|].
    destruct (embeddings_create client embedding_model (preprocessText t));
      simpl in Hgen; [|done].
    by injection Hgen as <-.
Qed.

Lemma generateBatchEmbeddings_preserves_order_witness :
  generateBatchEmbeddings (Some sample_client) (λ _, [2; 0; 1]) sample_texts
  = Return (map sample_result sample_texts) ∧
  length (map sample_result sample_texts) = length sample_texts ∧
  ∀ i t, sample_texts !! i = Some t →
    ∃ r, map sample_result sample_texts !! i = Some r ∧
         generateEmbedding (Some sample_client) t = Return r ∧
         originalLength r = length t.
Proof.
  refine (generateBatchEmbeddings_preserves_order (Some sample_client)
            (λ _, [2; 0; 1]) sample_texts (map sample_result sample_texts) _ _).
  - discriminate.
  - repeat (constructor; [vm_compute; reflexivity|]). constructor.
Defined.

(** Twelve texts make two groups; the groups complete in different orders
    and the results still follow the texts. *)
Example generateBatchEmbeddings_two_groups :
  let texts := sample_texts ++ sample_texts ++ sample_texts ++ sample_texts in
  generateBatchEmbeddings (Some sample_client)
    (λ i, if i =? 0 then [9; 3; 7; 0] else [1; 0]) texts
  = Return (map sample_result texts).
Proof. vm_compute. reflexivity. Qed.

(* ===================================================================== *)
(** ** IEEE 754: the comparisons and the sign of a difference *)

Lemma SFcompare_key x y :
  is_nan x = false → is_nan y = false →
  ∃ c, SpecFloat.SFcompare x y = Some c ∧
    match c with
    | Lt => key_lt (float_key x) (float_key y)
    | Eq => key_eq (float_key x) (float_key y)
    | Gt => key_lt (float_key y) (float_key x)
    end.
Proof.
  unfold key_lt, key_eq.
  destruct x as [sx|sx| |sx mx ex], y as [sy|sy| |sy my ey]; try discriminate;
    intros _ _; cbn [SpecFloat.SFcompare float_key];
    try (destruct sx); try (destruct sy); try (eexists; split; [reflexivity|]; cbn; lia).
  - fold (Pos.compare mx my).
    destruct (Z.compare_spec ex ey), (Pos.compare_spec mx my);
      eexists; (split; [reflexivity|]); cbn; lia.
  - fold (Pos.compare mx my).
    destruct (Z.compare_spec ex ey), (Pos.compare_spec mx my);
      eexists; (split; [reflexivity|]); cbn; lia.
Qed.

Lemma digits2_pos_bounds m :
  (2 ^ (Z.pos (SpecFloat.digits2_pos m) - 1) ≤ Z.pos m
   < 2 ^ Z.pos (SpecFloat.digits2_pos m))%Z.
Proof.
  induction m as [p IH|p IH|]; cbn [SpecFloat.digits2_pos].
  - rewrite Pos2Z.inj_succ, Z.pow_succ_r by lia.
    replace (Z.succ (Z.pos (SpecFloat.digits2_pos p)) - 1)%Z
      with (Z.succ (Z.pos (SpecFloat.digits2_pos p) - 1)) by lia.
    rewrite Z.pow_succ_r by lia. lia.
  - rewrite Pos2Z.inj_succ, Z.pow_succ_r by lia.
    replace (Z.succ (Z.pos (SpecFloat.digits2_pos p)) - 1)%Z
      with (Z.succ (Z.pos (SpecFloat.digits2_pos p) - 1)) by lia.
    rewrite Z.pow_succ_r by lia. lia.
  - cbn. lia.
Qed.

Lemma bounded_inv m e :
  SpecFloat.bounded FloatOps.prec FloatOps.emax m e = true →
  (Z.pos (SpecFloat.digits2_pos m) ≤ 53 ∧ -1074 ≤ e
   ∧ (-1074 < e → Z.pos (SpecFloat.digits2_pos m) = 53))%Z.
Proof.
  unfold SpecFloat.bounded, SpecFloat.canonical_mantissa, SpecFloat.fexp,
    SpecFloat.emin, FloatOps.prec, FloatOps.emax.
  intros [H _]%andb_true_iff. apply Z.eqb_eq in H. lia.
Qed.

Lemma bounded_mantissa m e :
  SpecFloat.bounded FloatOps.prec FloatOps.emax m e = true →
  (-1074 ≤ e ∧ Z.pos m < 2 ^ 53 ∧ (-1074 < e → 2 ^ 52 ≤ Z.pos m))%Z.
Proof.
  intros (Hd & He & Hn)%bounded_inv. pose proof (digits2_pos_bounds m) as [Hl Hu].
  split; [done|]. split.
  - eapply Z.lt_le_trans; [exact Hu|]. apply Z.pow_le_mono_r; lia.
  - intros H. rewrite (Hn H) in Hl. exact Hl.
Qed.

Lemma iter_xO m d : Z.pos (Pos.iter xO m d) = (Z.pos m * 2 ^ Z.pos d)%Z.
Proof.
  induction d as [|d IH] using Pos.peano_ind.
  - cbn. lia.
  - rewrite Pos.iter_succ, Pos2Z.inj_xO, IH, Pos2Z.inj_succ, Z.pow_succ_r by lia.
    lia.
Qed.

Lemma shl_align_fst m e e' :
  (e' ≤ e)%Z →
  Z.pos (SpecFloat.shl_align m e e').1 = (Z.pos m * 2 ^ (e - e'))%Z.
Proof.
  intros H. unfold SpecFloat.shl_align.
  destruct (e' - e)%Z as [|p|p] eqn:E; cbn [fst]; try lia.
  - replace (e - e')%Z with 0%Z by lia. lia.
  - rewrite iter_xO. f_equal. f_equal. lia.
Qed.

(** Aligned mantissas of two numbers of the format compare as the pairs of
    exponent and mantissa do. *)
Lemma aligned_compare mx ex my ey :
  SpecFloat.bounded FloatOps.prec FloatOps.emax mx ex = true →
  SpecFloat.bounded FloatOps.prec FloatOps.emax my ey = true →
  let ez := Z.min ey ex in
  let ax := (Z.pos mx * 2 ^ (ex - ez))%Z in
  let ay := (Z.pos my * 2 ^ (ey - ez))%Z in
  ((ax < ay ↔ ex < ey ∨ ex = ey ∧ Z.pos mx < Z.pos my)
   ∧ (ax = ay ↔ ex = ey ∧ Z.pos mx = Z.pos my))%Z.
Proof.
  intros (Hex & Hxu & Hxl)%bounded_mantissa (Hey & Hyu & Hyl)%bounded_mantissa.
  intros ez ax ay. subst ez ax ay.
  change (2 ^ 53)%Z with 9007199254740992%Z in *.
  change (2 ^ 52)%Z with 4503599627370496%Z in *.
  destruct (Z.lt_trichotomy ex ey) as [H|[H|H]].
  - rewrite Z.min_r by lia. replace (ex - ex)%Z with 0%Z by lia.
    assert (2 ≤ 2 ^ (ey - ex))%Z
      by (change 2%Z with (2 ^ 1)%Z at 1; apply Z.pow_le_mono_r; lia).
    specialize (Hyl ltac:(lia)). rewrite Z.pow_0_r. nia.
  - subst ey. rewrite Z.min_id. replace (ex - ex)%Z with 0%Z by lia.
    rewrite Z.pow_0_r. lia.
  - rewrite Z.min_l by lia. replace (ey - ey)%Z with 0%Z by lia.
    assert (2 ≤ 2 ^ (ex - ey))%Z
      by (change 2%Z with (2 ^ 1)%Z at 1; apply Z.pow_le_mono_r; lia).
    specialize (Hxl ltac:(lia)). rewrite Z.pow_0_r. nia.
Qed.

Lemma shr_1_pos mrs m :
  SpecFloat.shr_m mrs = Z.pos m →
  (1 < Z.pos (SpecFloat.digits2_pos m))%Z →
  ∃ m', SpecFloat.shr_m (SpecFloat.shr_1 mrs) = Z.pos m'
    ∧ (Z.pos (SpecFloat.digits2_pos m') = Z.pos (SpecFloat.digits2_pos m) - 1)%Z.
Proof.
  destruct mrs as [m0 r s]. cbn [SpecFloat.shr_m]. intros -> H.
  destruct m as [p|p|]; cbn [SpecFloat.digits2_pos] in *; [| |lia];
    exists p; cbn; lia.
Qed.

Lemma iter_shr_1_pos p : ∀ mrs m,
  SpecFloat.shr_m mrs = Z.pos m →
  (Z.pos p < Z.pos (SpecFloat.digits2_pos m))%Z →
  ∃ m', SpecFloat.shr_m (SpecFloat.iter_pos SpecFloat.shr_1 p mrs) = Z.pos m'
    ∧ (Z.pos (SpecFloat.digits2_pos m')
       = Z.pos (SpecFloat.digits2_pos m) - Z.pos p)%Z.
Proof.
  induction p as [p IH|p IH|]; intros mrs m Hm Hp; cbn [SpecFloat.iter_pos].
  - destruct (shr_1_pos mrs m Hm ltac:(lia)) as (m1 & H1 & D1).
    destruct (IH _ m1 H1 ltac:(lia)) as (m2 & H2 & D2).
    destruct (IH _ m2 H2 ltac:(lia)) as (m3 & H3 & D3).
    exists m3. split; [done|]. lia.
  - destruct (IH _ m Hm ltac:(lia)) as (m2 & H2 & D2).
    destruct (IH _ m2 H2 ltac:(lia)) as (m3 & H3 & D3).
    exists m3. split; [done|]. lia.
  - apply shr_1_pos; [done|lia].
Qed.

Lemma shr_fexp_pos m e l :
  (-1074 ≤ e)%Z →
  ∃ mrs e' m',
    SpecFloat.shr_fexp FloatOps.prec FloatOps.emax (Z.pos m) e l = (mrs, e')
    ∧ SpecFloat.shr_m mrs = Z.pos m' ∧ (-1074 ≤ e')%Z.
Proof.
  intros He. unfold SpecFloat.shr_fexp, SpecFloat.shr.
  assert (Hm : SpecFloat.shr_m (SpecFloat.shr_record_of_loc (Z.pos m) l) = Z.pos m)
    by (destruct l as [|[| |]]; reflexivity).
  cbn [SpecFloat.Zdigits2].
  destruct (SpecFloat.fexp _ _ _ - e)%Z as [|p|p] eqn:E.
  - eexists _, _, m. split; [reflexivity|]. split; [done|lia].
  - destruct (iter_shr_1_pos p _ m Hm) as (m' & H' & _).
    { revert E. unfold SpecFloat.fexp, SpecFloat.emin, FloatOps.prec, FloatOps.emax.
      lia. }
    eexists _, _, m'. split; [reflexivity|]. split; [done|lia].
  - eexists _, _, m. split; [reflexivity|]. split; [done|lia].
Qed.

Lemma round_nearest_even_pos m l :
  ∃ m', SpecFloat.round_nearest_even (Z.pos m) l = Z.pos m'.
Proof.
  destruct l as [|[| |]]; cbn [SpecFloat.round_nearest_even]; eauto.
  destruct (Z.even _); cbn; eauto.
Qed.

Lemma binary_round_aux_sign s m e l :
  (-1074 ≤ e)%Z →
  nonzero_of_sign s
    (SpecFloat.binary_round_aux FloatOps.prec FloatOps.emax s (Z.pos m) e l).
Proof.
  intros He. unfold SpecFloat.binary_round_aux.
  destruct (shr_fexp_pos m e l He) as (mrs & e' & m' & -> & Hm & He').
  rewrite Hm.
  destruct (round_nearest_even_pos m' (SpecFloat.loc_of_shr_record mrs)) as [m1 ->].
  destruct (shr_fexp_pos m1 e' SpecFloat.loc_Exact He')
    as (mrs2 & e2 & m2 & -> & Hm2 & _).
  rewrite Hm2. destruct (_ <=? _)%Z; reflexivity.
Qed.

Lemma binary_round_sign s m e :
  (-1074 ≤ e)%Z →
  nonzero_of_sign s (SpecFloat.binary_round FloatOps.prec FloatOps.emax s m e).
Proof.
  intros He. unfold SpecFloat.binary_round, SpecFloat.shl_align.
  destruct (_ - e)%Z as [|p|p] eqn:E; apply binary_round_aux_sign; [done..|].
  unfold SpecFloat.fexp, SpecFloat.emin, FloatOps.prec, FloatOps.emax. lia.
Qed.

Lemma binary_normalize_positive m e :
  (-1074 ≤ e)%Z →
  SpecFloat.SFltb (SpecFloat.S754_zero false)
    (SpecFloat.binary_normalize FloatOps.prec FloatOps.emax m e false)
  = (0 <? m)%Z.
Proof.
  intros He. destruct m as [|p|p]; cbn [SpecFloat.binary_normalize].
  - reflexivity.
  - pose proof (binary_round_sign false p e He) as H.
    destruct (SpecFloat.binary_round _ _ _ _ _) as [| | |]; cbn in H; try done;
      subst; reflexivity.
  - pose proof (binary_round_sign true p e He) as H.
    destruct (SpecFloat.binary_round _ _ _ _ _) as [| | |]; cbn in H; try done;
      subst; reflexivity.
Qed.

Lemma SFsub_positive x y :
  SpecFloat.valid_binary FloatOps.prec FloatOps.emax x = true →
  SpecFloat.valid_binary FloatOps.prec FloatOps.emax y = true →
  is_nan x = false → is_nan y = false →
  SpecFloat.SFltb (SpecFloat.S754_zero false)
    (SpecFloat.SFsub FloatOps.prec FloatOps.emax y x) = true
  ↔ key_lt (float_key x) (float_key y).
Proof.
  unfold key_lt.
  destruct x as [sx|sx| |sx mx ex], y as [sy|sy| |sy my ey]; try discriminate;
    cbn [SpecFloat.valid_binary]; intros Vx Vy _ _;
    try (destruct sx, sy; cbn; split; (discriminate || lia || done)).
  cbn [SpecFloat.SFsub].
    pose proof (bounded_mantissa _ _ Vx) as [Hex _].
    pose proof (bounded_mantissa _ _ Vy) as [Hey _].
    rewrite binary_normalize_positive by lia.
    rewrite !shl_align_fst by lia.
    pose proof (aligned_compare mx ex my ey Vx Vy) as [H1 H2]. cbn zeta in H1, H2.
    rewrite Z.ltb_lt.
    assert (0 < Z.pos mx * 2 ^ (ex - Z.min ey ex))%Z
      by (apply Z.mul_pos_pos; [lia|apply Z.pow_pos_nonneg; lia]).
    assert (0 < Z.pos my * 2 ^ (ey - Z.min ey ex))%Z
      by (apply Z.mul_pos_pos; [lia|apply Z.pow_pos_nonneg; lia]).
    pose proof (aligned_compare my ey mx ex Vy Vx) as [H3 _]. cbn zeta in H3.
    rewrite (Z.min_comm ex ey) in H3.
    destruct sx, sy; cbn [SpecFloat.cond_Zopp float_key fst snd]; lia.
Qed.

Lemma not_NaN_spec x : not_NaN x = true ↔ is_nan (FloatOps.Prim2SF x) = false.
Proof.
  unfold not_NaN. rewrite FloatAxioms.eqb_spec. unfold SpecFloat.SFeqb.
  destruct (is_nan (FloatOps.Prim2SF x)) eqn:E.
  - destruct (FloatOps.Prim2SF x); try discriminate. by cbn.
  - destruct (SFcompare_key _ _ E E) as (c & -> & Hc).
    unfold key_lt in Hc. destruct c; (split; [done|intros _]); try done; lia.
Qed.

Lemma float_order_key a b :
  not_NaN a = true → not_NaN b = true →
  let ka := float_key (FloatOps.Prim2SF a) in
  let kb := float_key (FloatOps.Prim2SF b) in
  (PrimFloat.ltb a b = true ↔ key_lt ka kb)
  ∧ (PrimFloat.leb a b = true ↔ key_lt ka kb ∨ key_eq ka kb)
  ∧ (PrimFloat.eqb a b = true ↔ key_eq ka kb)
  ∧ (PrimFloat.ltb 0 (b - a) = true ↔ key_lt ka kb).
Proof.
  intros Ha%not_NaN_spec Hb%not_NaN_spec ka kb. subst ka kb.
  rewrite FloatAxioms.ltb_spec, FloatAxioms.leb_spec, FloatAxioms.eqb_spec,
    FloatAxioms.ltb_spec, FloatAxioms.sub_spec.
  change (FloatOps.Prim2SF 0) with (SpecFloat.S754_zero false).
  unfold FloatAxioms.SF64sub.
  rewrite (SFsub_positive _ _ (FloatAxioms.Prim2SF_valid a)
             (FloatAxioms.Prim2SF_valid b) Ha Hb).
  unfold SpecFloat.SFltb, SpecFloat.SFleb, SpecFloat.SFeqb.
  destruct (SFcompare_key _ _ Ha Hb) as (c & -> & Hc).
  unfold key_lt, key_eq in *.
  destruct c; repeat split; intros; try done; lia.
Qed.

Lemma leb_not_NaN a b :
  PrimFloat.leb a b = true → not_NaN a = true ∧ not_NaN b = true.
Proof.
  rewrite FloatAxioms.leb_spec, !not_NaN_spec. unfold SpecFloat.SFleb.
  destruct (FloatOps.Prim2SF a), (FloatOps.Prim2SF b); by cbn.
Qed.

(** On numbers that are not [NaN] the comparisons and the sign of the
    difference form an order. *)
Lemma ieee_ordered_not_NaN xs :
  Forall (λ x, not_NaN x = true) xs → ieee_ordered xs = true.
Proof.
  rewrite Forall_forall. intros H. unfold ieee_ordered.
  apply forallb_forall. intros a Ha%list_elem_of_In%H.
  apply forallb_forall. intros b Hb%list_elem_of_In%H.
  destruct (float_order_key a b Ha Hb) as (Hlt & Hle & Heq & Hsub).
  destruct (float_order_key b a Hb Ha) as (Hlt' & Hle' & _ & _).
  cbn zeta in *. unfold key_lt, key_eq in *.
  repeat (apply andb_true_iff; split).
  - apply Bool.eqb_true_iff, Bool.eq_iff_eq_true. by rewrite Hsub, Hlt.
  - apply Bool.eqb_true_iff, Bool.eq_iff_eq_true.
    rewrite negb_true_iff, <- not_true_iff_false, Hle', Hlt. lia.
  - destruct (PrimFloat.ltb a b) eqn:E; [|done]. cbn [implb].
    apply Hle. left. by apply Hlt.
  - apply Bool.eqb_true_iff, Bool.eq_iff_eq_true.
    rewrite andb_true_iff, Heq, Hle, Hle'. lia.
  - apply forallb_forall. intros c Hc%list_elem_of_In%H.
    destruct (float_order_key b c Hb Hc) as (_ & Hbc & _ & _).
    destruct (float_order_key a c Ha Hc) as (_ & Hac & _ & _).
    cbn zeta in *. unfold key_lt, key_eq in *.
    destruct (PrimFloat.leb a b && PrimFloat.leb b c) eqn:E; [|done].
    cbn [implb]. apply andb_true_iff in E as [E1 E2].
    apply Hle in E1. apply Hbc in E2. apply Hac. lia.
Qed.


Lemma not_NaN_false_eqb s y : not_NaN s = false → PrimFloat.eqb s y = false.
Proof.
  intros Hs. rewrite FloatAxioms.eqb_spec.
  destruct (is_nan (FloatOps.Prim2SF s)) eqn:E.
  - by destruct (FloatOps.Prim2SF s).
  - apply not_NaN_spec in E. congruence.
Qed.

Lemma float_mul_comm (x y : float) : (x * y = y * x)%float.
Proof.
  apply FloatAxioms.Prim2SF_inj. rewrite !FloatAxioms.mul_spec.
  unfold FloatAxioms.SF64mul, SpecFloat.SFmul.
  destruct (FloatOps.Prim2SF x) as [sx|sx| |sx mx ex],
           (FloatOps.Prim2SF y) as [sy|sy| |sy my ey];
    try reflexivity; try (f_equal; apply xorb_comm).
  f_equal; [apply xorb_comm|f_equal; apply Pos.mul_comm|apply Z.add_comm].
Qed.

(* ===================================================================== *)
(** ** IEEE 754: integers, exact products and [Math.ceil] *)
(* ===================================================================== *)

Lemma iter_pos_nat {A} (f : A → A) p x :
  SpecFloat.iter_pos f p x = Nat.iter (Pos.to_nat p) f x.
Proof.
  revert x. induction p as [p IH|p IH|]; intros x; cbn [SpecFloat.iter_pos].
  - rewrite !IH, Pos2Nat.inj_xI.
    replace (S (2 * Pos.to_nat p)) with (Pos.to_nat p + S (Pos.to_nat p)) by lia.
    by rewrite Nat.iter_add, Nat.iter_succ_r.
  - rewrite !IH, Pos2Nat.inj_xO.
    replace (2 * Pos.to_nat p) with (Pos.to_nat p + Pos.to_nat p) by lia.
    by rewrite Nat.iter_add.
  - done.
Qed.

Lemma Zpos_iter_xO a k :
  Z.pos (Nat.iter k xO a) = (Z.pos a * 2 ^ Z.of_nat k)%Z.
Proof.
  induction k as [|k IH]; [cbn; lia|].
  rewrite Nat.iter_succ, Pos2Z.inj_xO, IH, Nat2Z.inj_succ, Z.pow_succ_r by lia.
  lia.
Qed.

Lemma digits_iter_xO a k :
  Z.pos (SpecFloat.digits2_pos (Nat.iter k xO a))
  = (Z.pos (SpecFloat.digits2_pos a) + Z.of_nat k)%Z.
Proof.
  induction k as [|k IH]; [cbn; lia|].
  rewrite Nat.iter_succ. cbn [SpecFloat.digits2_pos]. lia.
Qed.

Lemma digits_le a k :
  (0 ≤ k)%Z → (Z.pos a < 2 ^ k)%Z → (Z.pos (SpecFloat.digits2_pos a) ≤ k)%Z.
Proof.
  intros Hk Ha. pose proof (digits2_pos_bounds a) as [Hl _].
  assert (2 ^ (Z.pos (SpecFloat.digits2_pos a) - 1) < 2 ^ k)%Z as H by lia.
  apply Z.pow_lt_mono_r_iff in H; lia.
Qed.

Lemma digits_mono a b :
  (Z.pos a ≤ Z.pos b)%Z →
  (Z.pos (SpecFloat.digits2_pos a) ≤ Z.pos (SpecFloat.digits2_pos b))%Z.
Proof.
  intros Hab. pose proof (digits2_pos_bounds b) as [_ Hu].
  apply digits_le; lia.
Qed.

(** Shifting out zeros is exact. *)
Lemma iter_shr_1_exact a n j :
  Nat.iter n SpecFloat.shr_1
    {| SpecFloat.shr_m := Z.pos (Nat.iter (n + j) xO a);
       SpecFloat.shr_r := false; SpecFloat.shr_s := false |}
  = {| SpecFloat.shr_m := Z.pos (Nat.iter j xO a);
       SpecFloat.shr_r := false; SpecFloat.shr_s := false |}.
Proof.
  induction n as [|n IH]; [done|].
  rewrite Nat.iter_succ_r. cbn [Nat.add Nat.iter SpecFloat.shr_1 orb].
  exact IH.
Qed.

Lemma shr_fexp_canonical m e :
  Z.pos (SpecFloat.digits2_pos m) = 53%Z → (-1074 ≤ e)%Z →
  SpecFloat.shr_fexp FloatOps.prec FloatOps.emax (Z.pos m) e SpecFloat.loc_Exact
  = ({| SpecFloat.shr_m := Z.pos m;
        SpecFloat.shr_r := false; SpecFloat.shr_s := false |}, e).
Proof.
  intros Hd He. unfold SpecFloat.shr_fexp.
  cbn [SpecFloat.Zdigits2 SpecFloat.shr_record_of_loc]. rewrite Hd.
  replace (SpecFloat.fexp FloatOps.prec FloatOps.emax (53 + e) - e)%Z
    with 0%Z; [done|].
  unfold SpecFloat.fexp, SpecFloat.emin, FloatOps.prec, FloatOps.emax. lia.
Qed.

Lemma binary_round_aux_canonical s m e :
  Z.pos (SpecFloat.digits2_pos m) = 53%Z → (-1074 ≤ e ≤ 971)%Z →
  SpecFloat.binary_round_aux FloatOps.prec FloatOps.emax s (Z.pos m) e
    SpecFloat.loc_Exact
  = SpecFloat.S754_finite s m e.
Proof.
  intros Hd He. unfold SpecFloat.binary_round_aux.
  rewrite shr_fexp_canonical by (done || lia).
  cbn [SpecFloat.shr_m SpecFloat.loc_of_shr_record SpecFloat.round_nearest_even].
  rewrite shr_fexp_canonical by (done || lia). cbn [SpecFloat.shr_m].
  replace (e <=? FloatOps.emax - FloatOps.prec)%Z with true; [done|].
  symmetry. apply Z.leb_le. unfold FloatOps.prec, FloatOps.emax. lia.
Qed.

Lemma binary_round_aux_exact s a j n e :
  (Z.pos (SpecFloat.digits2_pos a) + Z.of_nat j = 53)%Z → 0 < n →
  (-1074 ≤ e + Z.of_nat n ≤ 971)%Z →
  SpecFloat.binary_round_aux FloatOps.prec FloatOps.emax s
    (Z.pos (Nat.iter (n + j) xO a)) e SpecFloat.loc_Exact
  = SpecFloat.S754_finite s (Nat.iter j xO a) (e + Z.of_nat n).
Proof.
  intros Hd Hn He.
  unfold SpecFloat.binary_round_aux, SpecFloat.shr_fexp at 1.
  cbn [SpecFloat.Zdigits2 SpecFloat.shr_record_of_loc].
  rewrite digits_iter_xO.
  replace (SpecFloat.fexp FloatOps.prec FloatOps.emax
             (Z.pos (SpecFloat.digits2_pos a) + Z.of_nat (n + j) + e) - e)%Z
    with (Z.pos (Pos.of_nat n)).
  2: { unfold SpecFloat.fexp, SpecFloat.emin, FloatOps.prec, FloatOps.emax. lia. }
  cbn [SpecFloat.shr].
  rewrite iter_pos_nat, Nat2Pos.id by lia. rewrite iter_shr_1_exact.
  cbn [SpecFloat.shr_m SpecFloat.loc_of_shr_record SpecFloat.round_nearest_even].
  replace (e + Z.pos (Pos.of_nat n))%Z with (e + Z.of_nat n)%Z by lia.
  rewrite shr_fexp_canonical by (rewrite ?digits_iter_xO; lia).
  cbn [SpecFloat.shr_m].
  replace (e + Z.of_nat n <=? FloatOps.emax - FloatOps.prec)%Z with true; [done|].
  symmetry. apply Z.leb_le. unfold FloatOps.prec, FloatOps.emax. lia.
Qed.

(** The Number of a positive integer below [2^52]: the integer itself,
    with its mantissa shifted to 53 digits. *)
Lemma Prim2SF_number_of_Z p j :
  (Z.pos (SpecFloat.digits2_pos p) + Z.of_nat j = 53)%Z → 0 < j →
  FloatOps.Prim2SF (number_of_Z (Z.pos p))
  = SpecFloat.S754_finite false (Nat.iter j xO p) (- Z.of_nat j).
Proof.
  intros Hd Hj.
  assert (Hround : SpecFloat.binary_normalize FloatOps.prec FloatOps.emax
                     (Z.pos p) 0 false
                   = SpecFloat.S754_finite false (Nat.iter j xO p) (- Z.of_nat j)).
  { cbn [SpecFloat.binary_normalize]. unfold SpecFloat.binary_round.
    replace (SpecFloat.fexp FloatOps.prec FloatOps.emax
               (Z.pos (SpecFloat.digits2_pos p) + 0))
      with (- Z.of_nat j)%Z
      by (unfold SpecFloat.fexp, SpecFloat.emin, FloatOps.prec, FloatOps.emax;
          lia).
    unfold SpecFloat.shl_align.
    replace (- Z.of_nat j - 0)%Z with (Z.neg (Pos.of_nat j)) by lia.
    rewrite Pos2Nat.inj_iter, Nat2Pos.id by lia.
    apply binary_round_aux_canonical; [rewrite digits_iter_xO|]; lia. }
  unfold number_of_Z. rewrite Hround.
  apply FloatAxioms.Prim2SF_SF2Prim. cbn [SpecFloat.valid_binary].
  unfold SpecFloat.bounded, SpecFloat.canonical_mantissa.
  rewrite digits_iter_xO. apply andb_true_iff. split.
  - apply Z.eqb_eq.
    unfold SpecFloat.fexp, SpecFloat.emin, FloatOps.prec, FloatOps.emax. lia.
  - apply Z.leb_le. unfold FloatOps.prec, FloatOps.emax. lia.
Qed.

(** Up to [3 * limit < 2^53] the product and its ceiling are exact. *)
Lemma ceil_1_5_exact limit :
  (0 ≤ limit)%Z → (3 * limit < 2 ^ 53)%Z →
  ceil_1_5 limit = ((3 * limit + 1) / 2)%Z.
Proof.
  intros Hpos Hcap. destruct limit as [|p|p]; [by vm_compute| |lia].
  set (d := Z.pos (SpecFloat.digits2_pos p)).
  set (d3 := Z.pos (SpecFloat.digits2_pos (3 * p))).
  assert (Hd3 : (d3 ≤ 53)%Z) by (apply digits_le; lia).
  assert (Hdd : (d ≤ d3)%Z) by (apply digits_mono; lia).
  assert (Hd : (d < d3)%Z).
  { pose proof (digits2_pos_bounds p) as [Hl _].
    pose proof (digits2_pos_bounds (3 * p)) as [_ Hu]. fold d in Hl. fold d3 in Hu.
    destruct (decide (d = d3)) as [E|]; [|lia]. exfalso.
    rewrite <- E in Hu.
    assert (2 ^ d = 2 * 2 ^ (d - 1))%Z
      by (rewrite <- Z.pow_succ_r by lia; f_equal; lia).
    lia. }
  set (j := Z.to_nat (53 - d)). set (j3 := Z.to_nat (53 - d3)).
  set (n := Z.to_nat (51 + d3 - d)).
  unfold ceil_1_5, Math_ceil. rewrite FloatAxioms.mul_spec.
  rewrite (Prim2SF_number_of_Z p j) by (subst j d; lia).
  change (FloatOps.Prim2SF 1.5)
    with (SpecFloat.S754_finite false 6755399441055744 (-52)).
  unfold FloatAxioms.SF64mul, SpecFloat.SFmul. cbn [xorb].
  assert (Hprod : (Nat.iter j xO p * 6755399441055744)%positive
                  = Nat.iter (n + j3) xO (3 * p)%positive).
  { apply Pos2Z.inj. rewrite Pos2Z.inj_mul, !Zpos_iter_xO, Pos2Z.inj_mul.
    change (Z.pos 6755399441055744) with (3 * 2 ^ 51)%Z.
    replace (Z.of_nat (n + j3)) with (Z.of_nat j + 51)%Z by (subst n j j3; lia).
    rewrite Z.pow_add_r by lia. lia. }
  rewrite Hprod.
  rewrite binary_round_aux_exact by (subst n j j3 d d3; lia).
  replace (- Z.of_nat j + -52 + Z.of_nat n)%Z with (- Z.of_nat (S j3))%Z
    by (subst n j j3; lia).
  replace (0 <=? - Z.of_nat (S j3))%Z with false by (symmetry; apply Z.leb_gt; lia).
  rewrite Z.opp_involutive, Zpos_iter_xO, Nat2Z.inj_succ, Z.pow_succ_r by lia.
  rewrite Pos2Z.inj_mul.
  replace (- (3 * Z.pos p * 2 ^ Z.of_nat j3))%Z
    with ((- (3 * Z.pos p)) * 2 ^ Z.of_nat j3)%Z by lia.
  rewrite Z.div_mul_cancel_r by (try apply Z.pow_nonzero; lia).
  Z.to_euclidean_division_equations. lia.
Qed.

(* ===================================================================== *)
(** ** Sorting by score *)
(* ===================================================================== *)

Section SortFacts.
Context {A : Type} (score : A → float).
Local Abbreviation by_score := (by_score_of score).

Lemma sort_insert_perm compare (x : A) l : sort_insert compare x l ≡ₚ x :: l.
Proof.
  induction l as [|y l IH]; simpl; [done|].
  destruct (PrimFloat.ltb 0 (compare x y)); [|done].
  rewrite IH. apply Permutation_swap.
Qed.

(** Sorting rearranges: nothing is lost or invented. *)
Lemma js_sort_perm compare (l : list A) : js_sort compare l ≡ₚ l.
Proof.
  induction l as [|x l IH]; simpl; [done|].
  by rewrite sort_insert_perm, IH.
Qed.

(** The order laws, unpacked for three members of the list. *)
Lemma ieee_ordered_laws xs a b c :
  ieee_ordered xs = true → a ∈ xs → b ∈ xs → c ∈ xs →
  PrimFloat.ltb 0 (b - a) = PrimFloat.ltb a b ∧
  PrimFloat.leb b a = negb (PrimFloat.ltb a b) ∧
  (PrimFloat.ltb a b = true → PrimFloat.leb a b = true) ∧
  PrimFloat.eqb a b = (PrimFloat.leb a b && PrimFloat.leb b a) ∧
  (PrimFloat.leb a b = true → PrimFloat.leb b c = true → PrimFloat.leb a c = true).
Proof.
  unfold ieee_ordered. rewrite forallb_forall.
  intros H Ha%list_elem_of_In Hb%list_elem_of_In Hc%list_elem_of_In.
  specialize (H a Ha). rewrite forallb_forall in H. specialize (H b Hb).
  apply andb_true_iff in H as [H H5]. rewrite forallb_forall in H5.
  specialize (H5 c Hc).
  apply andb_true_iff in H as [H H4].
  apply andb_true_iff in H as [H H3].
  apply andb_true_iff in H as [H1 H2].
  apply Bool.eqb_prop in H1, H2, H4.
  repeat split; try done.
  - destruct (PrimFloat.ltb a b); [|done]. by intros _.
  - intros Hab Hbc. by rewrite Hab, Hbc in H5.
Qed.

Context (xs : list float) (Hord : ieee_ordered xs = true).

Local Abbreviation within := (scores_within score xs).

Lemma sort_insert_sorted x l :
  score x ∈ xs → within l →
  StronglySorted (desc score) l →
  StronglySorted (desc score) (sort_insert by_score x l).
Proof.
  intros Hx Hl Hsorted.
  induction Hsorted as [|y l Hsl IH Hy]; simpl.
  - repeat constructor.
  - assert (Hyin : score y ∈ xs) by (apply Hl; left).
    assert (Hl' : within l) by (intros z Hz; apply Hl; by right).
    destruct (ieee_ordered_laws _ (score x) (score y) (score x) Hord Hx Hyin Hx)
      as (L1 & L2 & L3 & _ & _).
    unfold by_score_of at 1. rewrite L1.
    destruct (PrimFloat.ltb (score x) (score y)) eqn:Hlt.
    + constructor; [by apply IH|].
      rewrite sort_insert_perm.
      constructor; [by apply L3|done].
    + constructor; [by constructor|].
      constructor; [exact L2|].
      rewrite Forall_forall in Hy |- *. intros z Hz.
      destruct (ieee_ordered_laws _ (score z) (score y) (score x)
                  Hord (Hl' z Hz) Hyin Hx) as (_ & _ & _ & _ & L5).
      apply L5; [by apply Hy|exact L2].
Qed.

(** The sorted list is in descending order of score. *)
Lemma js_sort_sorted l :
  within l → StronglySorted (desc score) (js_sort by_score l).
Proof.
  induction l as [|x l IH]; intros Hl; simpl; [constructor|].
  apply sort_insert_sorted.
  - apply Hl. left.
  - intros y Hy. apply Hl. right. by rewrite <- (js_sort_perm by_score l).
  - apply IH. intros y Hy. apply Hl. by right.
Qed.

(** Two members with the score [s] are never exchanged. *)
Lemma sort_insert_stable s x l :
  s ∈ xs → score x ∈ xs → within l →
  with_score score s (sort_insert by_score x l) = with_score score s (x :: l).
Proof.
  intros Hs Hx Hl. unfold with_score.
  induction l as [|y l IH]; [done|].
  assert (Hyin : score y ∈ xs) by (apply Hl; left).
  assert (Hl' : within l) by (intros z Hz; apply Hl; by right).
  cbn [sort_insert].
  destruct (ieee_ordered_laws _ (score x) (score y) (score x) Hord Hx Hyin Hx)
    as (L1 & L2 & _ & _ & _).
  unfold by_score_of at 1. rewrite L1.
  destruct (PrimFloat.ltb (score x) (score y)) eqn:Hlt; [|done].
  cbn [List.filter]. rewrite (IH Hl'). cbn [List.filter].
  destruct (PrimFloat.eqb s (score x)) eqn:Esx; [|done].
  destruct (PrimFloat.eqb s (score y)) eqn:Esy; [|done].
  exfalso.
  destruct (ieee_ordered_laws _ s (score x) s Hord Hs Hx Hs)
    as (_ & _ & _ & L4x & _).
  destruct (ieee_ordered_laws _ s (score y) s Hord Hs Hyin Hs)
    as (_ & _ & _ & L4y & _).
  rewrite Esx in L4x. rewrite Esy in L4y.
  symmetry in L4x, L4y.
  apply andb_true_iff in L4x as [Hsx Hxs]. apply andb_true_iff in L4y as [Hsy Hys].
  destruct (ieee_ordered_laws _ (score y) s (score x) Hord Hyin Hs Hx)
    as (_ & _ & _ & _ & L5).
  rewrite (L5 Hys Hsx) in L2. done.
Qed.

(** The sort is stable: among the members of one score, the order of
    the input is kept. *)
Lemma js_sort_stable s l :
  s ∈ xs → within l →
  with_score score s (js_sort by_score l) = with_score score s l.
Proof.
  intros Hs. induction l as [|x l IH]; intros Hl; [done|]. simpl.
  rewrite sort_insert_stable; [|done|apply Hl; left|].
  - unfold with_score in *. cbn [List.filter]. rewrite IH; [done|].
    intros y Hy. apply Hl. by right.
  - intros y Hy. apply Hl. right. by rewrite <- (js_sort_perm by_score l).
Qed.
End SortFacts.

(* ===================================================================== *)
(** ** Ranking *)
(* ===================================================================== *)

Lemma slice0_prefix {A} (limit : Z) (l : list A) : slice0 limit l `prefix_of` l.
Proof. unfold slice0. destruct (limit <? 0)%Z; apply prefix_take. Qed.

Lemma slice0_length {A} (limit : Z) (l : list A) :
  (0 ≤ limit)%Z → (Z.of_nat (length (slice0 limit l)) ≤ limit)%Z.
Proof.
  intros Hlimit. unfold slice0.
  apply Z.ltb_ge in Hlimit as Hnonneg. rewrite Hnonneg, length_take. lia.
Qed.

Lemma with_score_prefix {A} (score : A → float) s (l1 l2 : list A) :
  l1 `prefix_of` l2 → with_score score s l1 `prefix_of` with_score score s l2.
Proof.
  intros [k ->]. unfold with_score. rewrite List.filter_app. by eexists.
Qed.

(** The candidates keep the order of the documents they come from. *)
Lemma scored_candidates_sublist q documents threshold :
  map scored_doc (scored_candidates q documents threshold) `sublist_of` documents.
Proof.
  unfold scored_candidates.
  induction documents as [|doc documents IH]; [done|]. simpl.
  unfold score_document at 1.
  destruct (doc_embedding doc) as [e|]; [|by apply sublist_cons].
  destruct (calculateCosineSimilarity _ _) as [similarity|]; [|by apply sublist_cons].
  simpl. destruct (PrimFloat.leb threshold similarity); simpl.
  - by apply sublist_skip.
  - by apply sublist_cons.
Qed.

Lemma scored_candidates_threshold q documents threshold :
  Forall (λ result, PrimFloat.leb threshold (similarityScore result) = true)
    (scored_candidates q documents threshold).
Proof.
  unfold scored_candidates. apply Forall_forall. intros r Hr.
  apply list_elem_of_In, List.filter_In in Hr. by destruct Hr.
Qed.

Lemma rank_within q documents limit threshold r :
  r ∈ rank q documents limit threshold →
  r ∈ scored_candidates q documents threshold.
Proof.
  unfold rank. intros Hr.
  destruct (slice0_prefix limit
              (js_sort by_score_desc (scored_candidates q documents threshold)))
    as [k Hk].
  rewrite <- (js_sort_perm by_score_desc), Hk. apply elem_of_app. by left.
Qed.

(** C5: the ranking is in descending order of score, and the results of
    one score form an initial part of the candidates of that score, taken
    in the order of the candidate list: the sort exchanges no two of them.
    The scores compared are the candidates' (numbers without [NaN], on
    which the comparison by subtraction is an order). *)
Theorem rank_sorted_stable q documents limit threshold :
  ieee_ordered (map similarityScore (scored_candidates q documents threshold)) = true →
  StronglySorted (desc similarityScore) (rank q documents limit threshold) ∧
  (∀ s, s ∈ map similarityScore (scored_candidates q documents threshold) →
     with_score similarityScore s (rank q documents limit threshold)
       `prefix_of`
     with_score similarityScore s (scored_candidates q documents threshold)) ∧
  map scored_doc (scored_candidates q documents threshold) `sublist_of` documents.
Proof.
  intros Hord. set (candidates := scored_candidates q documents threshold) in *.
  assert (Hwithin : ∀ y, y ∈ candidates →
            similarityScore y ∈ map similarityScore candidates).
  { intros y Hy. by apply list_elem_of_fmap_2. }
  split; [|split].
  - unfold rank. fold candidates.
    destruct (slice0_prefix limit (js_sort by_score_desc candidates)) as [k Hk].
    eapply (StronglySorted_app_1_l _ _ k). rewrite <- Hk.
    by apply (js_sort_sorted similarityScore _ Hord).
  - intros s Hs. unfold rank. fold candidates.
    rewrite <- (js_sort_stable similarityScore _ Hord s candidates Hs Hwithin).
    apply with_score_prefix, slice0_prefix.
  - apply scored_candidates_sublist.
Qed.

Lemma rank_sorted_stable_witness :
  StronglySorted (desc similarityScore) (rank [1; 0]%float sample_documents 2 0.1) ∧
  (∀ s, s ∈ map similarityScore (scored_candidates [1; 0]%float sample_documents 0.1) →
     with_score similarityScore s (rank [1; 0]%float sample_documents 2 0.1)
       `prefix_of`
     with_score similarityScore s (scored_candidates [1; 0]%float sample_documents 0.1)) ∧
  map scored_doc (scored_candidates [1; 0]%float sample_documents 0.1)
    `sublist_of` sample_documents.
Proof.
  apply rank_sorted_stable. vm_compute. reflexivity.
Defined.

(** The ranking of the sample documents: the two documents of score 1 in
    the order of the store, ahead of the one of score 0.707. *)
Example rank_sample :
  map (λ r, documentId (scored_doc r)) (rank [1; 0]%float sample_documents 10 0.1)
  = [str "b"; str "d"; str "c"].
Proof. vm_compute. reflexivity. Qed.

(** C8, as the code has it: for a limit that is not negative, the ranking
    has at most [limit] results, and every result reaches the threshold. *)
Theorem rank_limit_threshold q documents limit threshold :
  (0 ≤ limit)%Z →
  (Z.of_nat (length (rank q documents limit threshold)) ≤ limit)%Z ∧
  Forall (λ result, PrimFloat.leb threshold (similarityScore result) = true)
    (rank q documents limit threshold).
Proof.
  intros Hlimit. split; [by apply slice0_length|].
  apply Forall_forall. intros r Hr%rank_within.
  by eapply Forall_forall in Hr; [|apply scored_candidates_threshold].
Qed.

Lemma rank_limit_threshold_witness :
  (Z.of_nat (length (rank [1; 0]%float sample_documents 2 0.5)) ≤ 2)%Z ∧
  Forall (λ result, PrimFloat.leb 0.5 (similarityScore result) = true)
    (rank [1; 0]%float sample_documents 2 0.5).
Proof. apply rank_limit_threshold. lia. Defined.

(** C8 as stated fails on a negative limit, which the search controller
    lets through (it only caps the limit at 50 from above): [slice(0, -1)]
    drops the last candidate and keeps the others, here two results for
    the limit -1. *)
Lemma rank_negative_limit :
  length (rank [1; 0]%float sample_documents (-1) 0.1) = 2 ∧
  ¬ (Z.of_nat (length (rank [1; 0]%float sample_documents (-1) 0.1)) ≤ -1)%Z.
Proof. split; [vm_compute; reflexivity|]. vm_compute. by intros H. Qed.

(** What [searchSimilar] returns is the ranking of the store's answer. *)
Lemma searchSimilar_rank strapi q contentType options documents :
  truthy_str contentType = true →
  findMany strapi contentType
    {| fm_filters := with_embedding_filter (default ∅ (ss_filters options));
       fm_locale := ss_locale options;
       fm_limit := 1000 |} = Return documents →
  searchSimilar strapi (Some q) contentType options
  = Return (rank q (default [] documents)
              (default 10%Z (ss_limit options))
              (default 0.1%float (ss_threshold options))).
Proof.
  intros Hct Hstore. unfold searchSimilar. rewrite Hct. cbn [negb].
  rewrite Hstore. unfold try_catch. cbn [mbind completion_bind].
  assert (Hnil : ∀ limit threshold, rank q [] limit threshold = []).
  { intros limit threshold. unfold rank, slice0. cbn [js_sort foldr].
    destruct (limit <? 0)%Z; apply take_nil. }
  destruct documents as [[|doc documents]|]; cbn [default]; by rewrite ?Hnil.
Qed.

(** A failure of the store's query is the failure of [searchSimilar]. *)
Lemma searchSimilar_store_failure strapi q contentType options error :
  truthy_str contentType = true →
  findMany strapi contentType
    {| fm_filters := with_embedding_filter (default ∅ (ss_filters options));
       fm_locale := ss_locale options;
       fm_limit := 1000 |} = Throw error →
  searchSimilar strapi (Some q) contentType options = Throw error.
Proof.
  intros Hct Hstore. unfold searchSimilar. rewrite Hct. cbn [negb].
  by rewrite Hstore.
Qed.

(* ===================================================================== *)
(** ** Multi-collection search *)
(* ===================================================================== *)

#[local] Arguments generateEmbedding : simpl never.
#[local] Arguments searchSimilar : simpl never.
#[local] Arguments semanticSearch : simpl never.

(** The promise of a collection is always fulfilled. *)
Lemma caught_search_returns strapi openai query options contentType :
  caught_search strapi openai query options contentType
  = Return (sub_search strapi openai query options contentType).
Proof.
  unfold caught_search, sub_search.
  by destruct (semanticSearch strapi openai query contentType options).
Qed.

(** A response echoes the query and the collection it was asked for. *)
Lemma semanticSearch_echo strapi openai query contentType options response :
  semanticSearch strapi openai query contentType options = Return response →
  resp_query response = query ∧ resp_contentType response = contentType.
Proof.
  unfold semanticSearch.
  destruct (negb (truthy_str query) || negb (truthy_str contentType)); [done|].
  destruct (generateEmbedding openai query) as [queryResult|]; [|done]. simpl.
  destruct (embedding queryResult) as [queryEmbedding|]; [|done].
  destruct (searchSimilar _ _ _ _) as [results|]; [|done]. simpl.
  by intros [= <-].
Qed.

(** A failing store query fails the search of its collection. *)
Lemma semanticSearch_store_failure strapi openai query contentType options
    queryResult queryEmbedding error :
  truthy_str query = true → truthy_str contentType = true →
  generateEmbedding openai query = Return queryResult →
  embedding queryResult = Some queryEmbedding →
  findMany strapi contentType
    {| fm_filters := with_embedding_filter (default ∅ (opt_filters options));
       fm_locale := opt_locale options;
       fm_limit := 1000 |} = Throw error →
  semanticSearch strapi openai query contentType options = Throw error.
Proof.
  intros Hq Hct Hembed Hvector Hstore. unfold semanticSearch.
  rewrite Hq, Hct, Hembed. simpl. rewrite Hvector.
  erewrite searchSimilar_store_failure; [done|done|exact Hstore].
Qed.

(** The call never aborts: its answer is built from what each collection
    was fulfilled with, in the order of the collections. *)
Lemma multiContentTypeSearch_returns strapi openai order query contentTypes options :
  truthy_str query = true → contentTypes ≠ [] →
  let limit := default 10%Z (opt_limit options) in
  let aggregateResults := default true (opt_aggregateResults options) in
  let searchResults :=
    map (sub_search strapi openai query
           (with_limit (if aggregateResults then ceil_1_5 limit else limit) options))
        contentTypes in
  multiContentTypeSearch strapi openai order query contentTypes options =
  Return
    (if aggregateResults then
       let sortedResults :=
         slice0 limit (js_sort by_tagged_score_desc
                         (concat (map tag_results searchResults))) in
       Aggregated query contentTypes sortedResults
         {| agg_totalResults := length sortedResults;
            searchedContentTypes := contentTypes;
            individualResults := map individual_result searchResults |}
     else
       Separate query contentTypes searchResults
         {| totalContentTypes := length contentTypes;
            successfulSearches :=
              length (List.filter (λ sr, negb (has_error sr)) searchResults) |}).
Proof.
  intros Hq Hne. unfold multiContentTypeSearch. rewrite Hq.
  destruct contentTypes as [|ct cts]; [done|]. cbn [length Nat.eqb negb orb].
  set (sub := with_limit _ options).
  rewrite (map_ext _ (λ ct, Return (sub_search strapi openai query sub ct)))
    by (intros; apply caught_search_returns).
  rewrite <- (map_map (sub_search strapi openai query sub) Return).
  rewrite promise_all_fulfilled. cbn [mbind completion_bind try_catch].
  by destruct (default true (opt_aggregateResults options)).
Qed.

Lemma sub_search_cases strapi openai query options contentType :
  match semanticSearch strapi openai query contentType options with
  | Return response =>
      sub_search strapi openai query options contentType = SubResponse response ∧
      resp_contentType response = contentType
  | Throw error =>
      sub_search strapi openai query options contentType
      = SubError query contentType (message error)
  end.
Proof.
  unfold sub_search.
  destruct (semanticSearch strapi openai query contentType options) eqn:Hs; [|done].
  by apply semanticSearch_echo in Hs as [_ ?].
Qed.

(** C1, as the code has it.  A multi-collection search over a query and a
    non-empty list of collections never aborts, whichever sub-searches
    throw (here: with a non-empty error message) and in whatever order
    they complete.  In the separate mode the answer holds, per collection
    and in order, the response of the sub-search unchanged or an error
    entry with the message, and [successfulSearches] counts the
    sub-searches that returned.  In the aggregated mode, the default,
    the answer has no [successfulSearches]; its results are the results
    of the collections whose search returned, tagged with their
    collection, sorted and cut at the limit, all of them when the limit
    leaves room: a failing collection adds none and takes none away; and
    its [individualResults] hold, per collection, the number of results
    and whether it failed. *)
Theorem multiContentTypeSearch_isolates_failures
    strapi openai order query contentTypes options :
  let limit := default 10%Z (opt_limit options) in
  let aggregateResults := default true (opt_aggregateResults options) in
  let sub_options :=
    with_limit (if aggregateResults then ceil_1_5 limit else limit) options in
  let search contentType :=
    semanticSearch strapi openai query contentType sub_options in
  let returned contentType :=
    match search contentType with
    | Return r =>
        map (λ result, {| tagged_result := result;
                          tagged_contentType := contentType |})
            (resp_results r)
    | Throw _ => []
    end in
  let allResults := concat (map returned contentTypes) in
  truthy_str query = true → contentTypes ≠ [] →
  (∀ contentType error,
     contentType ∈ contentTypes → search contentType = Throw error →
     message error ≠ []) →
  ∃ response,
    multiContentTypeSearch strapi openai order query contentTypes options
    = Return response ∧
    match response with
    | Separate _ _ results metadata =>
        aggregateResults = false ∧
        Forall2 (λ contentType sr,
                   match search contentType with
                   | Return r => sr = SubResponse r
                   | Throw error => sr = SubError query contentType (message error)
                   end) contentTypes results ∧
        successfulSearches metadata
        = length (List.filter (λ contentType, is_return (search contentType))
                    contentTypes)
    | Aggregated _ _ results metadata =>
        aggregateResults = true ∧
        reported_successfulSearches response = None ∧
        results = slice0 limit (js_sort by_tagged_score_desc allResults) ∧
        ((Z.of_nat (length allResults) ≤ limit)%Z → results ≡ₚ allResults) ∧
        Forall2 (λ contentType ir,
                   match search contentType with
                   | Return r =>
                       ir = {| ir_contentType := contentType;
                               ir_count := length (resp_results r);
                               ir_hasError := false |}
                   | Throw error =>
                       ir = {| ir_contentType := contentType;
                               ir_count := 0;
                               ir_hasError := true |}
                   end) contentTypes (individualResults metadata)
    end.
Proof.
  intros limit aggregateResults sub_options search returned allResults
    Hq Hne Hmsg.
  eexists. split; [by apply multiContentTypeSearch_returns|].
  fold limit aggregateResults sub_options.
  assert (Hcases : ∀ ct, ct ∈ contentTypes →
    match search ct with
    | Return r =>
        sub_search strapi openai query sub_options ct = SubResponse r ∧
        resp_contentType r = ct
    | Throw error =>
        sub_search strapi openai query sub_options ct
        = SubError query ct (message error) ∧ truthy_str (message error) = true
    end).
  { intros ct Hct. pose proof (sub_search_cases strapi openai query sub_options ct) as H.
    specialize (Hmsg ct). unfold search in *.
    destruct (semanticSearch strapi openai query ct sub_options) as [r|error];
      [done|].
    split; [done|]. specialize (Hmsg error Hct eq_refl).
    by destruct (message error). }
  assert (Hall : concat (map tag_results
                    (map (sub_search strapi openai query sub_options)
                       contentTypes)) = allResults).
  { subst allResults. f_equal. clear Hne Hmsg.
    induction contentTypes as [|ct cts IH]; [done|]. cbn [map]. f_equal.
    - specialize (Hcases ct (list_elem_of_here _ _)). unfold returned.
      destruct (search ct) as [r|error]; destruct Hcases as [-> Hct]; [|done].
      unfold tag_results. cbn [sub_results sub_contentType]. by rewrite Hct.
    - apply IH. intros ct' Hct'. apply Hcases. by right. }
  clearbody search. clear Hmsg Hne.
  destruct aggregateResults; (split; [done|]).
  - split; [done|]. rewrite Hall. split; [done|]. split.
    { intros Hroom. unfold slice0.
      assert (Hlimit : (limit <? 0)%Z = false) by (apply Z.ltb_ge; lia).
      rewrite Hlimit, take_ge.
      - apply js_sort_perm.
      - rewrite (js_sort_perm by_tagged_score_desc allResults). lia. }
    cbn [individualResults].
    clear Hall. clearbody allResults. clear returned.
    induction contentTypes as [|ct cts IH]; [constructor|].
    cbn [map]. constructor.
    + specialize (Hcases ct (list_elem_of_here _ _)).
      unfold individual_result, has_error.
      destruct (search ct) as [r|error].
      * destruct Hcases as [-> Hct]. simpl. by rewrite Hct.
      * destruct Hcases as [-> Hmsg]. simpl. by rewrite Hmsg.
    + apply IH. intros ct' Hct'. apply Hcases. by right.
  - cbn [successfulSearches]. clear Hall. clearbody allResults. clear returned.
    split.
    + induction contentTypes as [|ct cts IH]; [constructor|].
      cbn [map]. constructor.
      * specialize (Hcases ct (list_elem_of_here _ _)).
        destruct (search ct); by destruct Hcases.
      * apply IH. intros ct' Hct'. apply Hcases. by right.
    + induction contentTypes as [|ct cts IH]; [done|].
      cbn [map List.filter].
      specialize (IH (λ ct' Hct', Hcases ct' (list_elem_of_further _ _ _ Hct'))).
      specialize (Hcases ct (list_elem_of_here _ _)).
      destruct (search ct) as [r|error]; simpl.
      * destruct Hcases as [-> _]. simpl. by rewrite IH.
      * destruct Hcases as [-> Hmsg]. unfold has_error. simpl.
        rewrite Hmsg. simpl. exact IH.
Qed.

(** The scenario of C1 in the separate mode: the query of "blogs" throws,
    "articles" answers, one search is counted as successful. *)
Lemma multiContentTypeSearch_isolates_failures_witness :
  ∃ response,
    multiContentTypeSearch sample_strapi (Some sample_client) [1; 0]
      sample_query [str "articles"; str "blogs"] separate_options
    = Return response ∧
    reported_successfulSearches response = Some 1.
Proof.
  destruct (multiContentTypeSearch_isolates_failures
              sample_strapi (Some sample_client) [1; 0]
              sample_query [str "articles"; str "blogs"] separate_options)
    as (response & Hreturn & Hresponse).
  - reflexivity.
  - discriminate.
  - intros contentType error [->|[->|Hin]%elem_of_cons]%elem_of_cons.
    + vm_compute. discriminate.
    + vm_compute. intros [= <-]. discriminate.
    + by apply elem_of_nil in Hin.
  - exists response. split; [exact Hreturn|].
    destruct response as [? ? ? ?|? ? results metadata].
    + destruct Hresponse as [Hmode _]. vm_compute in Hmode. discriminate.
    + destruct Hresponse as (_ & _ & Hcount). simpl. f_equal.
      rewrite Hcount. vm_compute. reflexivity.
Defined.

(** C1 as stated fails in the default, aggregated mode: the query of
    "blogs" throws and the call returns, but its answer carries no
    [successfulSearches]; and its results are cut at the limit, so that
    with the limit 1 the search of "articles" returns two results of
    which the answer holds one. *)
Lemma multiContentTypeSearch_default_mode :
  findMany sample_strapi (str "blogs")
    {| fm_filters := with_embedding_filter ∅; fm_locale := None; fm_limit := 1000 |}
  = Throw (new_Error (str "relation does not exist")) ∧
  is_return (semanticSearch sample_strapi (Some sample_client) sample_query
               (str "articles") (with_limit (ceil_1_5 10) no_options)) = true ∧
  reported_successfulSearches <$>
    multiContentTypeSearch sample_strapi (Some sample_client) []
      sample_query [str "articles"; str "blogs"] no_options
  = Return None ∧
  (length ∘ resp_results) <$>
    semanticSearch sample_strapi (Some sample_client) sample_query
      (str "articles") (with_limit (ceil_1_5 1) no_options)
  = Return 2 ∧
  match multiContentTypeSearch sample_strapi (Some sample_client) []
          sample_query [str "articles"; str "blogs"] (with_limit 1 no_options)
  with
  | Return (Aggregated _ _ results _) => length results = 1
  | _ => False
  end.
Proof. repeat split; vm_compute; reflexivity. Qed.

(** Where the product is exact, the sub-limit is the least integer that
    is not below one and a half times the limit. *)
Lemma ceil_1_5_spec limit :
  (0 ≤ limit)%Z → (3 * limit < 2 ^ 53)%Z →
  (3 * limit ≤ 2 * ceil_1_5 limit < 3 * limit + 2)%Z.
Proof.
  intros Hlimit Hcap. rewrite ceil_1_5_exact by done.
  pose proof (Z.div_mod (3 * limit + 1) 2 ltac:(lia)).
  pose proof (Z.mod_pos_bound (3 * limit + 1) 2 ltac:(lia)). lia.
Qed.


Lemma elem_of_tag_results t searchResults :
  t ∈ concat (map tag_results searchResults) ↔
  ∃ sr, sr ∈ searchResults ∧ tagged_contentType t = sub_contentType sr ∧
        tagged_result t ∈ sub_results sr.
Proof.
  rewrite list_elem_of_In, in_concat. split.
  - intros (l & Hl%list_elem_of_In & Ht%list_elem_of_In).
    apply list_elem_of_fmap in Hl as (sr & -> & Hsr).
    exists sr. split; [done|]. unfold tag_results in Ht.
    apply list_elem_of_fmap in Ht as (r & -> & Hr). done.
  - intros (sr & Hsr & Hct & Hr). exists (tag_results sr).
    split; [by apply list_elem_of_In, list_elem_of_fmap_2|].
    apply list_elem_of_In.
    unfold tag_results. apply list_elem_of_fmap. exists (tagged_result t).
    split; [|done]. destruct t as [r ct]. simpl in *. by rewrite Hct.
Qed.

(** C7, as the code has it.  In the aggregated mode with a global limit
    [L] that is not negative and for which the product [L * 1.5] is exact
    in binary64 ([3 * L < 2^53]), every per-collection search is made
    with the limit [Math.ceil(L * 1.5)], the least integer not below one
    and a half times [L]; the entries of the combined list are the
    results of the collections, each tagged with the collection it comes
    from; and the answer is the first [L] entries, at most, of that list
    sorted by descending score.  The scores compared are the combined
    list's (numbers without [NaN]). *)
Theorem multiContentTypeSearch_aggregated
    strapi openai order query contentTypes options :
  let limit := default 10%Z (opt_limit options) in
  let sub_limit := ceil_1_5 limit in
  let searchResults :=
    map (sub_search strapi openai query (with_limit sub_limit options))
        contentTypes in
  let allResults := concat (map tag_results searchResults) in
  truthy_str query = true → contentTypes ≠ [] →
  default true (opt_aggregateResults options) = true →
  (0 ≤ limit)%Z → (3 * limit < 2 ^ 53)%Z →
  ieee_ordered (map tagged_score allResults) = true →
  (3 * limit ≤ 2 * sub_limit < 3 * limit + 2)%Z ∧
  opt_limit (with_limit sub_limit options) = Some sub_limit ∧
  (∀ t, t ∈ allResults ↔
     ∃ sr, sr ∈ searchResults ∧ tagged_contentType t = sub_contentType sr ∧
           tagged_result t ∈ sub_results sr) ∧
  ∃ results metadata,
    multiContentTypeSearch strapi openai order query contentTypes options
    = Return (Aggregated query contentTypes results metadata) ∧
    individualResults metadata = map individual_result searchResults ∧
    results = take (Z.to_nat limit) (js_sort by_tagged_score_desc allResults) ∧
    js_sort by_tagged_score_desc allResults ≡ₚ allResults ∧
    StronglySorted (desc tagged_score) (js_sort by_tagged_score_desc allResults) ∧
    StronglySorted (desc tagged_score) results ∧
    (Z.of_nat (length results) ≤ limit)%Z.
Proof.
  intros limit sub_limit searchResults allResults Hq Hne Hmode Hlimit Hcap Hord.
  split; [by apply ceil_1_5_spec|]. split; [done|].
  split; [intros t; apply elem_of_tag_results|].
  assert (Hsorted : StronglySorted (desc tagged_score)
                      (js_sort by_tagged_score_desc allResults)).
  { apply (js_sort_sorted tagged_score _ Hord).
    intros y Hy. by apply list_elem_of_fmap_2. }
  do 2 eexists. split.
  { rewrite multiContentTypeSearch_returns by done.
    rewrite Hmode. reflexivity. }
  fold limit sub_limit searchResults allResults.
  assert (Hslice : slice0 limit (js_sort by_tagged_score_desc allResults)
                   = take (Z.to_nat limit) (js_sort by_tagged_score_desc allResults)).
  { unfold slice0. apply Z.ltb_ge in Hlimit. by rewrite Hlimit. }
  split; [done|]. split; [exact Hslice|].
  split; [apply js_sort_perm|]. split; [exact Hsorted|].
  split.
  - rewrite Hslice.
    rewrite <- (take_drop (Z.to_nat limit)) in Hsorted.
    by apply StronglySorted_app_1_l in Hsorted.
  - by apply slice0_length.
Qed.

Lemma multiContentTypeSearch_aggregated_witness :
  ∃ results metadata,
    multiContentTypeSearch sample_strapi (Some sample_client) [1; 0]
      sample_query [str "articles"; str "blogs"] no_options
    = Return (Aggregated sample_query [str "articles"; str "blogs"] results metadata) ∧
    StronglySorted (desc tagged_score) results ∧
    (Z.of_nat (length results) ≤ 10)%Z.
Proof.
  destruct (multiContentTypeSearch_aggregated
              sample_strapi (Some sample_client) [1; 0]
              sample_query [str "articles"; str "blogs"] no_options)
    as (_ & _ & _ & results & metadata & Hreturn & _ & _ & _ & _ & Hsorted & Hlen).
  - reflexivity.
  - discriminate.
  - reflexivity.
  - simpl. lia.
  - vm_compute. reflexivity.
  - vm_compute. reflexivity.
  - exists results, metadata. split; [exact Hreturn|]. split; [exact Hsorted|exact Hlen].
Defined.

(** The aggregated answer of the sample store: the results of "articles",
    tagged, in descending order of score; "blogs" is recorded as failed. *)
Example multiContentTypeSearch_sample :
  match multiContentTypeSearch sample_strapi (Some sample_client) [1; 0]
          sample_query [str "articles"; str "blogs"] no_options with
  | Return (Aggregated _ _ results metadata) =>
      map (λ t, (documentId (scored_doc (tagged_result t)), tagged_contentType t)) results
      = [(str "b", str "articles"); (str "d", str "articles"); (str "c", str "articles")]
      ∧ map ir_hasError (individualResults metadata) = [false; true]
  | _ => False
  end.
Proof. vm_compute. split; reflexivity. Qed.

(** C7 as stated fails on a negative limit, which the search controller
    lets through: with [L = -1] the answer has one entry, more than [L].
    It also fails where the product [L * 1.5] is rounded: for
    [L = 2^53 - 1] the limit of the sub-searches is 13510798882111486,
    below one and a half times [L]. *)
Lemma multiContentTypeSearch_limit_out_of_range :
  match multiContentTypeSearch sample_strapi (Some sample_client) []
          sample_query [str "articles"]
          (with_limit (-1) no_options) with
  | Return (Aggregated _ _ results _) =>
      length results = 1 ∧ ¬ (Z.of_nat (length results) ≤ -1)%Z
  | _ => False
  end ∧
  opt_limit (with_limit (ceil_1_5 (2 ^ 53 - 1)) no_options)
  = Some 13510798882111486%Z ∧
  ¬ (3 * (2 ^ 53 - 1) ≤ 2 * ceil_1_5 (2 ^ 53 - 1))%Z.
Proof.
  split; [vm_compute; split; [reflexivity|]; by intros H|].
  split; [by vm_compute|]. vm_compute. by intros H.
Qed.

(* ===================================================================== *)
(** ** The lifecycle hook *)
(* ===================================================================== *)

(** Every failure class of the provider is a failure of the client. *)
Lemma generateEmbedding_provider_failure client text error :
  truthy_str text = true → length (trim text) ≠ 0 →
  10 ≤ length (preprocessText text) →
  embeddings_create client embedding_model (preprocessText text) = Throw error →
  generateEmbedding (Some client) text = Throw (classify_provider_error error).
Proof.
  intros Ht Htrim%Nat.eqb_neq Hlen%Nat.ltb_ge Hprovider.
  unfold generateEmbedding. rewrite Ht, Htrim, Hlen. cbn [negb orb].
  by rewrite Hprovider.
Qed.

(** C2: whichever step of the hook fails, the extraction of the text or
    the embedding client (for any reason, provider failures included),
    the hook completes normally, the error is written to the log and the
    data of the write is exactly what it was.  This holds for every text
    extraction, so for the hook of both entry points. *)
Theorem processDocumentEmbedding_fail_open
    extract host openai model action data error :
  let modelName := model_name model in
  is_system_model modelName = false →
  (extract host data modelName = Throw error ∨
   ∃ textContent,
     extract host data modelName = Return textContent ∧
     truthy_str textContent = true ∧ 10 ≤ length (trim textContent) ∧
     generateEmbedding openai textContent = Throw error) →
  run_hook (processDocumentEmbedding_with extract host openai model action) data
  = (Return (), {| hs_data := data; hs_log := [failure_entry modelName error] |}).
Proof.
  intros modelName Hmodel Hfailure.
  unfold run_hook, processDocumentEmbedding_with. fold modelName.
  rewrite Hmodel.
  unfold hook_try_catch, mbind, hook_mbind, hook_bind, get_data, hook_lift.
  cbn [hs_data].
  destruct Hfailure as [->|(textContent & -> & Ht & Hlen%Nat.ltb_ge & Hembed)].
  - reflexivity.
  - rewrite Ht, Hlen. cbn [negb orb]. rewrite Hembed. reflexivity.
Qed.

Lemma processDocumentEmbedding_fail_open_witness :
  run_hook (processDocumentEmbedding sample_host (Some failing_client)
              (ModelUid (str "api::article.article")) (str "create")) sample_data
  = (Return (),
     {| hs_data := sample_data;
        hs_log := [failure_entry (str "api::article.article") QuotaExceeded] |}).
Proof.
  apply (processDocumentEmbedding_fail_open extractTextContent sample_host
           (Some failing_client) (ModelUid (str "api::article.article"))
           (str "create") sample_data QuotaExceeded).
  - vm_compute. reflexivity.
  - right. exists (str "An article about embeddings").
    split; [vm_compute; reflexivity|]. split; [reflexivity|].
    split; [apply Nat.leb_le; vm_compute; reflexivity|].
    vm_compute. reflexivity.
Defined.

(** With a provider that answers, the same write gets its vector. *)
Example processDocumentEmbedding_success :
  hs_data (snd (run_hook (processDocumentEmbedding sample_host (Some sample_client)
                            (ModelUid (str "api::article.article")) (str "create"))
                  sample_data)) !! str "embedding"
  = Some (value_of_vector [1; 0]%float).
Proof. vm_compute. reflexivity. Qed.

(* ********************************************************************* *)
(** * Further properties of the code *)
(* ********************************************************************* *)

(* ===================================================================== *)
(** ** Text preprocessing: the shape and the length of the result *)
(* ===================================================================== *)

Lemma replace_tags_length s : length (replace_tags s) ≤ length s.
Proof.
  induction s as [s IH] using jsstring_length_ind.
  destruct s as [|c r]; [done|]. rewrite replace_tags_cons.
  destruct (match_tag (c :: r)) as [rest|] eqn:Hm.
  - assert (Hrest : length rest < length r).
    { simpl in Hm. destruct (c =? ch_lt)%N; [|done].
      by apply match_tag_rest_length. }
    cbn [length]. specialize (IH rest). cbn [length] in IH. lia.
  - cbn [length]. specialize (IH r). cbn [length] in IH. lia.
Qed.

Lemma replace_spaces_length s : length (replace_spaces s) ≤ length s.
Proof.
  induction s as [s IH] using jsstring_length_ind.
  destruct s as [|c r]; [done|]. rewrite replace_spaces_cons.
  pose proof (trimStart_length r).
  destruct (is_space c); cbn [length].
  - specialize (IH (trimStart r)). cbn [length] in IH. lia.
  - specialize (IH r). cbn [length] in IH. lia.
Qed.

Lemma trim_length s : length (trim s) ≤ length s.
Proof.
  unfold trim, trimEnd. rewrite length_rev.
  pose proof (trimStart_length (rev (trimStart s))) as H1.
  rewrite length_rev in H1. pose proof (trimStart_length s). lia.
Qed.

Lemma normalizedText_length text : length (normalizedText text) ≤ length text.
Proof.
  unfold normalizedText.
  pose proof (trim_length (replace_spaces (replace_tags text))).
  pose proof (replace_spaces_length (replace_tags text)).
  pose proof (replace_tags_length text). lia.
Qed.

Lemma maxLength_pos : 0 < maxLength.
Proof. pose proof maxLength_ge_10. lia. Qed.

(** The two shapes of a preprocessed text. *)
Lemma preprocessText_cases text :
  (preprocessText text = normalizedText text ∧
   length (normalizedText text) ≤ maxLength) ∨
  (preprocessText text = take maxLength (normalizedText text) ++ str "..." ∧
   maxLength < length (normalizedText text)).
Proof.
  unfold preprocessText.
  destruct (truthy_str text) eqn:Ht; cbn [negb].
  - destruct (maxLength <? length (normalizedText text)) eqn:Hcap.
    + right. split; [done|]. by apply Nat.ltb_lt.
    + left. split; [done|]. by apply Nat.ltb_ge.
  - left. destruct text; [|done]. split; [done|].
    unfold normalizedText. rewrite replace_tags_equation_1, replace_spaces_equation_1.
    cbn. lia.
Qed.

Lemma has_gt_app p q : has_gt (p ++ q) = has_gt p || has_gt q.
Proof. unfold has_gt. apply existsb_app. Qed.

Lemma has_tag_app_l p w : has_tag (p ++ w) = false → has_tag p = false.
Proof.
  induction p as [|c p IH]; [done|]. cbn [app has_tag].
  intros [Hc Hp]%orb_false_elim. rewrite (IH Hp), orb_false_r.
  destruct (c =? ch_lt)%N; [|done]. cbn [andb] in *.
  rewrite has_gt_app in Hc. by apply orb_false_elim in Hc as [? _].
Qed.

Lemma has_tag_app_plain p q : brackets q = [] → has_tag (p ++ q) = has_tag p.
Proof.
  intros Hq. rewrite <- has_tag_brackets. unfold brackets in *.
  rewrite List.filter_app, Hq, app_nil_r. apply has_tag_brackets.
Qed.

Lemma collapsed_app_plain p q :
  collapsed p = true → collapsed q = true → head_space q = false →
  collapsed (p ++ q) = true.
Proof.
  intros Hp Hq Hhead. induction p as [|c p IH]; [done|].
  cbn [app collapsed] in *. apply andb_true_iff in Hp as [Hc Hp].
  rewrite (IH Hp), andb_true_r.
  destruct (is_space c); [|done].
  apply andb_true_iff in Hc as [-> Hc]. cbn [andb].
  destruct p as [|d p]; [cbn [app]; by rewrite Hhead|exact Hc].
Qed.

Lemma head_space_app p q : p ≠ [] → head_space (p ++ q) = head_space p.
Proof. by destruct p. Qed.

Lemma trim_id s : head_space s = false → head_space (rev s) = false → trim s = s.
Proof. intros H1 H2. unfold trim. by rewrite (trimStart_id _ H1), trimEnd_id. Qed.

Lemma normalizedText_collapsed text : collapsed (normalizedText text) = true.
Proof. apply collapsed_trim, replace_spaces_collapsed. Qed.

Lemma normalizedText_head text : head_space (normalizedText text) = false.
Proof. apply head_space_trimEnd, head_space_trimStart. Qed.

Lemma normalizedText_last text : head_space (rev (normalizedText text)) = false.
Proof.
  unfold normalizedText, trim, trimEnd. rewrite rev_involutive.
  apply head_space_trimStart.
Qed.

(** A text without tags, with single spaces only and without blank ends
    is what the normalisation leaves alone. *)
Lemma normalizedText_id s :
  has_tag s = false → collapsed s = true →
  head_space s = false → head_space (rev s) = false →
  normalizedText s = s.
Proof.
  intros Htag Hcol Hhead Hlast. unfold normalizedText.
  rewrite (replace_tags_id _ Htag), (collapsed_replace_spaces_id _ Hcol).
  by apply trim_id.
Qed.

(** The result of preprocessing is clean in the four senses. *)
Lemma preprocessText_clean text :
  has_tag (preprocessText text) = false ∧
  collapsed (preprocessText text) = true ∧
  head_space (preprocessText text) = false ∧
  head_space (rev (preprocessText text)) = false.
Proof.
  destruct (preprocessText_cases text) as [[-> _]|[-> Hlong]].
  - auto using normalizedText_no_tag, normalizedText_collapsed,
      normalizedText_head, normalizedText_last.
  - pose proof maxLength_pos.
    set (n := normalizedText text) in *.
    assert (Hn : n = take maxLength n ++ drop maxLength n)
      by (by rewrite take_drop).
    assert (Htake : take maxLength n ≠ []).
    { intros Hnil. apply (f_equal length) in Hnil.
      rewrite length_take in Hnil. cbn [length] in Hnil. lia. }
    split; [|split; [|split]].
    + rewrite has_tag_app_plain by done.
      apply (has_tag_app_l _ (drop maxLength n)). rewrite <- Hn.
      apply normalizedText_no_tag.
    + apply collapsed_app_plain; [|done..].
      apply (collapsed_app_l _ (drop maxLength n)). rewrite <- Hn.
      apply normalizedText_collapsed.
    + rewrite head_space_app by done.
      rewrite <- (head_space_app _ (drop maxLength n)) by done.
      rewrite <- Hn. apply normalizedText_head.
    + by rewrite rev_app_distr.
Qed.

(** X1: preprocessing is idempotent on every text, the truncated ones
    included: a preprocessed text, preprocessed again, is unchanged. *)
Theorem preprocessText_idempotent_always text :
  preprocessText (preprocessText text) = preprocessText text.
Proof.
  destruct (preprocessText_clean text) as (Htag & Hcol & Hhead & Hlast).
  pose proof (normalizedText_id _ Htag Hcol Hhead Hlast) as Hfix.
  destruct (preprocessText_cases text) as [[Heq Hshort]|[Heq Hlong]].
  - destruct (preprocessText_cases (preprocessText text)) as [[-> _]|[_ Hlong]];
      [done|]. rewrite Hfix, Heq in Hlong. lia.
  - destruct (preprocessText_cases (preprocessText text)) as [[_ Hshort]|[-> _]].
    + rewrite Hfix, Heq, length_app, length_take in Hshort.
      change (length (str "...")) with 3 in Hshort. lia.
    + rewrite Hfix. rewrite Heq at 1.
      rewrite take_app_le by (rewrite length_take; lia).
      rewrite take_take, Nat.min_id. by rewrite Heq.
Qed.

Lemma preprocessText_cap text : length (preprocessText text) ≤ maxLength + 3.
Proof.
  destruct (preprocessText_cases text) as [[-> Hshort]|[-> Hlong]]; [lia|].
  rewrite length_app, length_take. change (length (str "...")) with 3. lia.
Qed.

(** X2: a preprocessed text has at most 8003 code units, and at most two
    more than the raw text; below the cap it is never longer than the raw
    text. *)
Theorem preprocessText_length text :
  length (preprocessText text) ≤ maxLength + 3 ∧
  length (preprocessText text) ≤ length text + 2 ∧
  (length text ≤ maxLength → length (preprocessText text) ≤ length text).
Proof.
  pose proof (normalizedText_length text).
  destruct (preprocessText_cases text) as [[-> Hshort]|[-> Hlong]].
  - repeat split; lia.
  - rewrite length_app, length_take.
    change (length (str "...")) with 3. repeat split; lia.
Qed.

(** X3: in a preprocessed text no tag is left, every whitespace code unit
    is a space, no two of them are adjacent and none stands at either
    end. *)
Theorem preprocessText_shape text :
  replace_tags (preprocessText text) = preprocessText text ∧
  Forall (λ c, is_space c = true → c = ch_space) (preprocessText text) ∧
  (∀ i c d, preprocessText text !! i = Some c →
            preprocessText text !! S i = Some d →
            is_space c = true → is_space d = false) ∧
  trim (preprocessText text) = preprocessText text.
Proof.
  destruct (preprocessText_clean text) as (Htag & Hcol & Hhead & Hlast).
  split; [by apply replace_tags_id|].
  split; [|split; [|by apply trim_id]].
  - clear -Hcol. induction (preprocessText text) as [|c s IH]; [constructor|].
    cbn [collapsed] in Hcol. apply andb_true_iff in Hcol as [Hc Hs].
    constructor; [|by apply IH].
    intros Hsp. rewrite Hsp in Hc. apply andb_true_iff in Hc as [Hc _].
    by apply N.eqb_eq.
  - clear -Hcol. induction (preprocessText text) as [|c s IH]; [done|].
    cbn [collapsed] in Hcol. apply andb_true_iff in Hcol as [Hc Hs].
    intros [|i] c' d; simpl.
    + intros [= <-] Hd Hsp. rewrite Hsp in Hc.
      apply andb_true_iff in Hc as [_ Hc]. destruct s as [|d' s]; [done|].
      simpl in Hd. injection Hd as <-. by apply negb_true_iff.
    + by apply IH.
Qed.

(* ===================================================================== *)
(** ** The embedding client: what it returns, sends and throws *)
(* ===================================================================== *)

(** X4: a result of [generateEmbedding] describes the call: the client is
    initialised, the text is not blank, [processedText] is the
    preprocessed text, the two lengths are those of the raw and of the
    processed text, the processed length lies between 10 and 8003, and
    the vector is the provider's answer to the processed text. *)
Theorem generateEmbedding_result openai text r :
  generateEmbedding openai text = Return r →
  ∃ client,
    openai = Some client ∧ trim text ≠ [] ∧
    processedText r = preprocessText text ∧
    originalLength r = length text ∧
    processedLength r = length (processedText r) ∧
    10 ≤ processedLength r ≤ maxLength + 3 ∧
    embeddings_create client embedding_model (processedText r)
    = Return (embedding r).
Proof.
  unfold generateEmbedding. destruct openai as [client|]; [|done].
  destruct (truthy_str text) eqn:Ht; [|done]. cbn [negb orb].
  destruct (length (trim text) =? 0) eqn:Htrim; [done|].
  unfold try_catch.
  destruct (length (preprocessText text) <? 10) eqn:Hlen; [done|].
  destruct (embeddings_create client embedding_model (preprocessText text))
    as [e|] eqn:Hprovider; [|done].
  cbn. intros [= <-]. exists client. cbn.
  apply Nat.eqb_neq in Htrim. apply Nat.ltb_ge in Hlen.
  pose proof (preprocessText_cap text) as Hcap.
  repeat split; try done; try lia.
  intros Hnil. by rewrite Hnil in Htrim.
Qed.

Lemma generateEmbedding_result_witness :
  ∃ client,
    Some sample_client = Some client ∧
    trim (str "The first text of the batch") ≠ [] ∧
    processedText (sample_result (str "The first text of the batch"))
    = preprocessText (str "The first text of the batch") ∧
    originalLength (sample_result (str "The first text of the batch"))
    = length (str "The first text of the batch") ∧
    processedLength (sample_result (str "The first text of the batch"))
    = length (processedText (sample_result (str "The first text of the batch"))) ∧
    10 ≤ processedLength (sample_result (str "The first text of the batch"))
       ≤ maxLength + 3 ∧
    embeddings_create client embedding_model
      (processedText (sample_result (str "The first text of the batch")))
    = Return (embedding (sample_result (str "The first text of the batch"))).
Proof.
  apply (generateEmbedding_result (Some sample_client)
           (str "The first text of the batch")).
  vm_compute. reflexivity.
Defined.

(** X5: the provider only ever sees the fixed model and an input that is
    a preprocessed text of at least 10 code units: two providers that
    agree on those inputs cannot be told apart through
    [generateEmbedding]. *)
Theorem generateEmbedding_provider_inputs client client' text :
  (∀ raw,
     10 ≤ length (preprocessText raw) →
     embeddings_create client embedding_model (preprocessText raw)
     = embeddings_create client' embedding_model (preprocessText raw)) →
  generateEmbedding (Some client) text = generateEmbedding (Some client') text.
Proof.
  intros Hagree. unfold generateEmbedding.
  destruct (negb (truthy_str text) || (length (trim text) =? 0)); [done|].
  destruct (length (preprocessText text) <? 10) eqn:Hlen; [done|].
  apply Nat.ltb_ge in Hlen. by rewrite Hagree.
Qed.

Lemma generateEmbedding_provider_inputs_witness :
  generateEmbedding (Some sample_client) (str "ab ")
  = generateEmbedding (Some picky_client) (str "ab ").
Proof.
  apply generateEmbedding_provider_inputs.
  intros raw Hlen. unfold picky_client. cbn [embeddings_create].
  apply Nat.ltb_ge in Hlen. rewrite Hlen. reflexivity.
Defined.

Lemma classify_provider_error_code error :
  code (classify_provider_error error) ≠ Some (str "insufficient_quota") ∧
  code (classify_provider_error error) ≠ Some (str "invalid_api_key") ∧
  code (classify_provider_error error) ≠ Some (str "rate_limit_exceeded").
Proof.
  unfold classify_provider_error.
  repeat case_bool_decide; repeat split; done.
Qed.

(** X6: the provider's quota, key and rate-limit errors never reach the
    caller as they are: no error thrown by [generateEmbedding] carries
    one of the three codes. *)
Theorem generateEmbedding_error_codes openai text error :
  generateEmbedding openai text = Throw error →
  code error ≠ Some (str "insufficient_quota") ∧
  code error ≠ Some (str "invalid_api_key") ∧
  code error ≠ Some (str "rate_limit_exceeded").
Proof.
  unfold generateEmbedding. destruct openai as [client|].
  - destruct (negb (truthy_str text) || (length (trim text) =? 0)).
    + intros [= <-]. repeat split; done.
    + unfold try_catch.
      destruct (length (preprocessText text) <? 10).
      * intros [= <-]. repeat split; done.
      * destruct (embeddings_create client embedding_model (preprocessText text));
          cbn; [done|].
        intros [= <-]. apply classify_provider_error_code.
  - intros [= <-]. repeat split; done.
Qed.

Lemma generateEmbedding_error_codes_witness :
  code QuotaExceeded ≠ Some (str "insufficient_quota") ∧
  code QuotaExceeded ≠ Some (str "invalid_api_key") ∧
  code QuotaExceeded ≠ Some (str "rate_limit_exceeded").
Proof.
  apply (generateEmbedding_error_codes (Some failing_client)
           (str "An article about embeddings")).
  vm_compute. reflexivity.
Defined.

(* ===================================================================== *)
(** ** Promise.all and the batch: all or nothing *)
(* ===================================================================== *)

Lemma settle_outcome {A} (ps : list (completion A)) order slots :
  match settle ps order slots with
  | Return _ => ∀ i e, i ∈ order → ps !! i ≠ Some (Throw e)
  | Throw e => Throw e ∈ ps
  end.
Proof.
  revert slots. induction order as [|i rest IH]; intros slots; cbn [settle].
  - intros i e Hin. by apply elem_of_nil in Hin.
  - destruct (ps !! i) as [[v|e]|] eqn:Hi.
    + specialize (IH (<[i := Some v]> slots)).
      destruct (settle ps rest _); [|done].
      intros j e [->|Hin]%elem_of_cons; [congruence|by apply IH].
    + by eapply list_elem_of_lookup_2.
    + specialize (IH slots). destruct (settle ps rest slots); [|done].
      intros j e [->|Hin]%elem_of_cons; [congruence|by apply IH].
Qed.

(** [Promise.all] is fulfilled only when every promise is, and then with
    their values in order; it is rejected only with the error of one of
    its promises. *)
Lemma promise_all_outcome {A} order (ps : list (completion A)) :
  match promise_all order ps with
  | Return vs => ps = map Return vs
  | Throw e => Throw e ∈ ps
  end.
Proof.
  destruct (promise_all order ps) as [vs|e] eqn:Hall.
  - assert (Hps : ∃ vs', ps = map Return vs').
    { unfold promise_all in Hall.
      pose proof (settle_outcome ps (order ++ seq 0 (length ps))
                    (replicate (length ps) None)) as Hsettle.
      destruct (settle ps _ _) as [slots|]; [|done].
      assert (Hall' : Forall (λ p, ∃ v, p = Return v) ps).
      { apply Forall_lookup. intros i p Hi.
        destruct p as [v|e]; [by exists v|]. exfalso.
        apply (Hsettle i e); [|done].
        apply elem_of_app. right. apply elem_of_seq.
        apply lookup_lt_Some in Hi. lia. }
      clear -Hall'. induction Hall' as [|p ps [v ->] _ [vs' ->]].
      - by exists [].
      - by exists (v :: vs'). }
    destruct Hps as [vs' ->].
    rewrite promise_all_fulfilled in Hall. by injection Hall as ->.
  - unfold promise_all in Hall.
    pose proof (settle_outcome ps (order ++ seq 0 (length ps))
                  (replicate (length ps) None)) as Hsettle.
    destruct (settle ps _ _) as [slots|e']; [done|]. by injection Hall as <-.
Qed.

Lemma fulfilled_promises_inv openai texts rs :
  map (generateEmbedding openai) texts = map Return rs →
  Forall2 (λ t r, generateEmbedding openai t = Return r) texts rs.
Proof.
  revert rs. induction texts as [|t texts IH]; intros [|r rs] H;
    simpl in H; try discriminate; [constructor|].
  injection H as Ht Hrest. constructor; [done|by apply IH].
Qed.

(** What the loop does from the batch starting at [i] on. *)
Lemma batchLoop_outcome openai schedule texts n :
  ∀ i results, length texts - i ≤ n →
  match batchLoop openai schedule texts i results with
  | Return out =>
      ∃ rest, out = results ++ rest ∧
        Forall2 (λ t r, generateEmbedding openai t = Return r) (drop i texts) rest
  | Throw e => ∃ t, t ∈ drop i texts ∧ generateEmbedding openai t = Throw e
  end.
Proof.
  assert (Hend : ∀ i results, length texts ≤ i →
    ∃ rest, results = results ++ rest ∧
      Forall2 (λ t r, generateEmbedding openai t = Return r) (drop i texts) rest).
  { intros i results Hi. exists []. rewrite app_nil_r, drop_ge by done.
    split; [done|constructor]. }
  induction n as [|n IH]; intros i results Hi; rewrite batchLoop_step.
  - assert (Hdone : (i <? length texts) = false) by (apply Nat.ltb_ge; lia).
    rewrite Hdone. apply Hend. lia.
  - destruct (i <? length texts) eqn:Hlt;
      [|apply Hend; by apply Nat.ltb_ge].
    unfold slice. replace (i + batchSize - i) with batchSize by lia.
    assert (Hsplit : drop i texts
              = take batchSize (drop i texts) ++ drop (i + batchSize) texts).
    { by rewrite <- drop_drop, take_drop. }
    pose proof (promise_all_outcome (schedule i)
      (map (generateEmbedding openai) (take batchSize (drop i texts)))) as Hall.
    destruct (promise_all (schedule i) _) as [batchResults|e].
    + apply fulfilled_promises_inv in Hall.
      specialize (IH (i + batchSize) (results ++ batchResults)).
      destruct (batchLoop openai schedule texts (i + batchSize) _) as [out|e].
      * destruct IH as (rest & -> & Hrest); [unfold batchSize; lia|].
        exists (batchResults ++ rest). split; [by rewrite app_assoc|].
        rewrite Hsplit. by apply Forall2_app.
      * destruct IH as (t & Ht & Hfail); [unfold batchSize; lia|].
        exists t. split; [|done]. rewrite Hsplit. apply elem_of_app. by right.
    + apply list_elem_of_fmap in Hall as (t & Hfail & Ht).
      exists t. split; [|done]. rewrite Hsplit. apply elem_of_app. by left.
Qed.

(** X7: a batch is all or nothing.  It returns only when every single
    embedding succeeds, and then exactly their results in order; when it
    fails, the error is the one thrown for one of its texts (or, for an
    empty list, the missing-input error), whatever the completion order. *)
Theorem generateBatchEmbeddings_all_or_nothing openai schedule texts :
  match generateBatchEmbeddings openai schedule texts with
  | Return results =>
      texts ≠ [] ∧
      Forall2 (λ t r, generateEmbedding openai t = Return r) texts results
  | Throw error =>
      (texts = [] ∧ error = InvalidInput_batch) ∨
      ∃ t, t ∈ texts ∧ generateEmbedding openai t = Throw error
  end.
Proof.
  unfold generateBatchEmbeddings. destruct texts as [|t texts]; [by left|].
  cbn [length Nat.eqb].
  pose proof (batchLoop_outcome openai schedule (t :: texts)
                (length (t :: texts)) 0 [] ltac:(lia)) as Hloop.
  destruct (batchLoop openai schedule (t :: texts) 0 []) as [out|e].
  - destruct Hloop as (rest & -> & Hall). split; [done|]. exact Hall.
  - right. exact Hloop.
Qed.

(* ===================================================================== *)
(** ** Ranking: where the results come from and how the limit acts *)
(* ===================================================================== *)

Lemma elem_of_scored_candidates q documents threshold r :
  r ∈ scored_candidates q documents threshold ↔
  scored_doc r ∈ documents ∧
  score_document q (scored_doc r) = Some r ∧
  PrimFloat.leb threshold (similarityScore r) = true.
Proof.
  unfold scored_candidates.
  rewrite list_elem_of_In, List.filter_In, <- list_elem_of_In, list_elem_of_omap.
  split.
  - intros [(doc & Hdoc & Hscore) Hthr].
    assert (scored_doc r = doc) as ->.
    { unfold score_document in Hscore.
      destruct (doc_embedding doc); [|done].
      destruct (calculateCosineSimilarity _ _); [|done].
      by injection Hscore as <-. }
    done.
  - intros (Hdoc & Hscore & Hthr). split; [|done]. by exists (scored_doc r).
Qed.

Lemma score_document_Some q doc r :
  score_document q doc = Some r →
  scored_doc r = doc ∧
  ∃ e, doc_embedding doc = Some e ∧ length e = length q ∧
       calculateCosineSimilarity (Some q) (Some e) = Return (similarityScore r).
Proof.
  unfold score_document. destruct (doc_embedding doc) as [e|]; [|done].
  destruct (calculateCosineSimilarity (Some q) (Some e)) as [s|] eqn:Hcos; [|done].
  intros [= <-]. split; [done|]. exists e. split; [done|]. split; [|done].
  unfold calculateCosineSimilarity in Hcos.
  destruct (length q =? length e) eqn:Hlen; [|done].
  symmetry. by apply Nat.eqb_eq.
Qed.

(** X10: every result of the ranking is one of the documents of the
    store's answer, holds a vector of the dimension of the query, carries
    the cosine similarity of the two as its score and reaches the
    threshold.  Documents without a vector, or with one of another
    dimension, never appear. *)
Theorem rank_provenance q documents limit threshold :
  Forall (λ r,
    scored_doc r ∈ documents ∧
    PrimFloat.leb threshold (similarityScore r) = true ∧
    ∃ e, doc_embedding (scored_doc r) = Some e ∧ length e = length q ∧
         calculateCosineSimilarity (Some q) (Some e)
         = Return (similarityScore r))
    (rank q documents limit threshold).
Proof.
  apply Forall_forall. intros r Hr%rank_within.
  apply elem_of_scored_candidates in Hr as (Hdoc & Hscore & Hthr).
  split; [done|]. split; [done|].
  by apply score_document_Some in Hscore as [_ ?].
Qed.

Lemma js_sort_length {A} compare (l : list A) :
  length (js_sort compare l) = length l.
Proof. by rewrite (js_sort_perm compare l). Qed.

(** X11: for limits that are not negative the ranking under a smaller
    limit is the beginning of the ranking under a larger one, and the
    number of results is the limit or, if there are fewer, the number of
    candidates that reach the threshold. *)
Theorem rank_limit_prefix q documents threshold (limit1 limit2 : Z) :
  (0 ≤ limit1 ≤ limit2)%Z →
  rank q documents limit1 threshold `prefix_of` rank q documents limit2 threshold ∧
  length (rank q documents limit1 threshold)
  = Z.to_nat limit1 `min` length (scored_candidates q documents threshold).
Proof.
  intros [H1 H2]. unfold rank, slice0.
  assert (Hl1 : (limit1 <? 0)%Z = false) by (apply Z.ltb_ge; lia).
  assert (Hl2 : (limit2 <? 0)%Z = false) by (apply Z.ltb_ge; lia).
  rewrite Hl1, Hl2. split.
  - set (sorted := js_sort by_score_desc _).
    replace (Z.to_nat limit1) with (Z.to_nat limit1 `min` Z.to_nat limit2) by lia.
    rewrite <- take_take. apply prefix_take.
  - by rewrite length_take, js_sort_length.
Qed.

Lemma rank_limit_prefix_witness :
  rank [1; 0]%float sample_documents 1 0.1
    `prefix_of` rank [1; 0]%float sample_documents 2 0.1 ∧
  length (rank [1; 0]%float sample_documents 1 0.1)
  = Z.to_nat 1 `min` length (scored_candidates [1; 0]%float sample_documents 0.1).
Proof. apply rank_limit_prefix. lia. Defined.

(* ===================================================================== *)
(** ** Cosine similarity: when it answers *)
(* ===================================================================== *)

(** X9: the similarity throws nothing but [DimensionMismatch], and it
    answers with a number whenever both vectors are present and of one
    length, whatever numbers they hold. *)
Theorem calculateCosineSimilarity_answers vectorA vectorB :
  match calculateCosineSimilarity vectorA vectorB with
  | Return _ =>
      ∃ a b, vectorA = Some a ∧ vectorB = Some b ∧ length a = length b
  | Throw error =>
      error = DimensionMismatch ∧
      ¬ ∃ a b, vectorA = Some a ∧ vectorB = Some b ∧ length a = length b
  end.
Proof.
  destruct vectorA as [a|], vectorB as [b|];
    try (split; [done|]; intros (? & ? & ? & ? & _); done).
  destruct (decide (length a = length b)) as [Hlen|Hlen].
  - rewrite (calculateCosineSimilarity_eq a b Hlen).
    destruct (_ || _); by exists a, b.
  - unfold calculateCosineSimilarity.
    apply Nat.eqb_neq in Hlen as Hneq. rewrite Hneq. cbn [negb].
    split; [done|]. intros (a' & b' & [= <-] & [= <-] & Heq). done.
Qed.

(* ===================================================================== *)
(** ** Cosine similarity: symmetry *)
(* ===================================================================== *)

Lemma dot_product_comm a b acc : dot_product a b acc = dot_product b a acc.
Proof.
  unfold dot_product. revert b acc.
  induction a as [|x a IH]; intros [|y b] acc; try done.
  cbn [combine fold_left fst snd]. rewrite (float_mul_comm x y). apply IH.
Qed.

(** X8: the similarity does not depend on the order of its two
    arguments: the same number, or the same error, either way round. *)
Theorem calculateCosineSimilarity_symmetric vectorA vectorB :
  calculateCosineSimilarity vectorA vectorB
  = calculateCosineSimilarity vectorB vectorA.
Proof.
  destruct vectorA as [a|], vectorB as [b|]; try done.
  destruct (decide (length a = length b)) as [Hlen|Hlen].
  - rewrite (calculateCosineSimilarity_eq a b Hlen).
    rewrite (calculateCosineSimilarity_eq b a (eq_sym Hlen)).
    rewrite dot_product_comm, (float_mul_comm (magnitude a)), orb_comm. done.
  - unfold calculateCosineSimilarity.
    rewrite (Nat.eqb_sym (length b)).
    apply Nat.eqb_neq in Hlen. by rewrite Hlen.
Qed.

(* ===================================================================== *)
(** ** Ranking: the order of the results, whatever the scores *)
(* ===================================================================== *)

Lemma scored_candidates_not_NaN q documents threshold :
  Forall (λ x, not_NaN x = true)
    (map similarityScore (scored_candidates q documents threshold)).
Proof.
  apply Forall_fmap. eapply Forall_impl; [apply scored_candidates_threshold|].
  intros r Hr. cbn. by apply leb_not_NaN in Hr as [_ ?].
Qed.

Lemma rank_sorted q documents limit threshold :
  StronglySorted (desc similarityScore) (rank q documents limit threshold).
Proof.
  set (candidates := scored_candidates q documents threshold).
  pose proof (scored_candidates_not_NaN q documents threshold) as Hnum.
  fold candidates in Hnum.
  assert (Hwithin : scores_within similarityScore
                      (map similarityScore candidates) candidates)
    by (intros y Hy; by apply list_elem_of_fmap_2).
  unfold rank. fold candidates.
  destruct (slice0_prefix limit (js_sort by_score_desc candidates)) as [k Hk].
  eapply (StronglySorted_app_1_l _ _ k). rewrite <- Hk.
  by apply (js_sort_sorted similarityScore _ (ieee_ordered_not_NaN _ Hnum)).
Qed.

(** X12: the ranking is always in descending order of score, and for
    every number [s] the results of score [s] form an initial part of the
    candidates of score [s], in the order of the store's answer.  No
    condition on the scores is needed: a candidate has passed the
    threshold test, so its score is not [NaN], and on such numbers the
    comparison by subtraction is an order. *)
Theorem rank_order q documents limit threshold :
  StronglySorted (desc similarityScore) (rank q documents limit threshold) ∧
  ∀ s, with_score similarityScore s (rank q documents limit threshold)
         `prefix_of`
       with_score similarityScore s (scored_candidates q documents threshold).
Proof.
  split; [apply rank_sorted|].
  set (candidates := scored_candidates q documents threshold).
  pose proof (scored_candidates_not_NaN q documents threshold) as Hnum.
  fold candidates in Hnum.
  intros s. destruct (not_NaN s) eqn:Hs.
  - assert (Hord : ieee_ordered (s :: map similarityScore candidates) = true)
      by (apply ieee_ordered_not_NaN; by constructor).
    assert (Hwithin : scores_within similarityScore
                        (s :: map similarityScore candidates) candidates)
      by (intros y Hy; right; by apply list_elem_of_fmap_2).
    unfold rank. fold candidates.
    rewrite <- (js_sort_stable similarityScore _ Hord s candidates
                  ltac:(left) Hwithin).
    apply with_score_prefix, slice0_prefix.
  - assert (Hnone : ∀ l, with_score similarityScore s l = []).
    { intros l. unfold with_score. induction l as [|y l IH]; [done|].
      cbn [List.filter]. by rewrite (not_NaN_false_eqb s _ Hs). }
    by rewrite !Hnone.
Qed.

(** X13: no result of the ranking carries [NaN] as its score, and a
    threshold that is [NaN] (as [parseFloat] of a text that is no number)
    leaves no result at all. *)
Theorem rank_scores_numbers q documents limit threshold :
  Forall (λ r, not_NaN (similarityScore r) = true)
    (rank q documents limit threshold) ∧
  (not_NaN threshold = false → rank q documents limit threshold = []).
Proof.
  split.
  - apply Forall_forall. intros r Hr%rank_within.
    eapply Forall_forall in Hr; [|apply scored_candidates_threshold].
    by apply leb_not_NaN in Hr as [_ ?].
  - intros Hthr.
    assert (Hnone : scored_candidates q documents threshold = []).
    { destruct (scored_candidates q documents threshold) as [|r l] eqn:E; [done|].
      pose proof (scored_candidates_threshold q documents threshold) as H.
      rewrite E in H. apply Forall_cons_1 in H as [H _].
      apply leb_not_NaN in H as [H _]. congruence. }
    unfold rank. rewrite Hnone. unfold slice0. cbn [js_sort foldr].
    destruct (limit <? 0)%Z; apply take_nil.
Qed.

Lemma rank_scores_numbers_witness :
  rank [1; 0]%float sample_documents 10 nan = [].
Proof.
  apply (rank_scores_numbers [1; 0]%float sample_documents 10 nan).
  vm_compute. reflexivity.
Defined.

(* ===================================================================== *)
(** ** Semantic search: the response and the errors *)
(* ===================================================================== *)

Lemma searchSimilar_inv strapi queryEmbedding contentType options results :
  searchSimilar strapi queryEmbedding contentType options = Return results →
  ∃ q documents,
    queryEmbedding = Some q ∧ truthy_str contentType = true ∧
    findMany strapi contentType
      {| fm_filters := with_embedding_filter (default ∅ (ss_filters options));
         fm_locale := ss_locale options;
         fm_limit := 1000 |} = Return documents ∧
    results = rank q (default [] documents)
                (default 10%Z (ss_limit options))
                (default 0.1%float (ss_threshold options)).
Proof.
  intros H. destruct queryEmbedding as [q|]; [|by unfold searchSimilar in H].
  destruct (truthy_str contentType) eqn:Hct;
    [|unfold searchSimilar in H; by rewrite Hct in H].
  destruct (findMany strapi contentType
      {| fm_filters := with_embedding_filter (default ∅ (ss_filters options));
         fm_locale := ss_locale options;
         fm_limit := 1000 |}) as [documents|error] eqn:Hstore.
  - rewrite (searchSimilar_rank _ _ _ _ _ Hct Hstore) in H.
    injection H as <-. by exists q, documents.
  - by rewrite (searchSimilar_store_failure _ _ _ _ _ Hct Hstore) in H.
Qed.

Lemma searchSimilar_throws strapi queryEmbedding contentType options error :
  searchSimilar strapi queryEmbedding contentType options = Throw error →
  (error = InvalidInput_searchSimilar ∧
   (queryEmbedding = None ∨ truthy_str contentType = false)) ∨
  findMany strapi contentType
    {| fm_filters := with_embedding_filter (default ∅ (ss_filters options));
       fm_locale := ss_locale options;
       fm_limit := 1000 |} = Throw error.
Proof.
  intros H. destruct queryEmbedding as [q|]; [|left; split; [|by left]].
  - destruct (truthy_str contentType) eqn:Hct.
    + destruct (findMany strapi contentType
        {| fm_filters := with_embedding_filter (default ∅ (ss_filters options));
           fm_locale := ss_locale options;
           fm_limit := 1000 |}) as [documents|error'] eqn:Hstore.
      * by rewrite (searchSimilar_rank _ _ _ _ _ Hct Hstore) in H.
      * rewrite (searchSimilar_store_failure _ _ _ _ _ Hct Hstore) in H.
        right. congruence.
    + left. unfold searchSimilar in H. rewrite Hct in H. cbn in H.
      split; [congruence|by right].
  - unfold searchSimilar in H. congruence.
Qed.

Lemma semanticSearch_inv strapi openai query contentType options response :
  semanticSearch strapi openai query contentType options = Return response →
  ∃ queryResult q documents,
    truthy_str query = true ∧ truthy_str contentType = true ∧
    generateEmbedding openai query = Return queryResult ∧
    embedding queryResult = Some q ∧
    findMany strapi contentType
      {| fm_filters := with_embedding_filter (default ∅ (opt_filters options));
         fm_locale := opt_locale options;
         fm_limit := 1000 |} = Return documents ∧
    resp_results response
    = map (clean_result (default false (opt_includeEmbedding options)))
        (rank q (default [] documents)
           (default 10%Z (opt_limit options))
           (default 0.1%float (opt_threshold options))) ∧
    resp_metadata response
    = {| totalResults := length (resp_results response);
         queryProcessing :=
           {| originalQuery := query;
              qp_processedText := processedText queryResult;
              embeddingDimensions := length q |};
         searchOptions :=
           {| ao_limit := default 10%Z (opt_limit options);
              ao_threshold := default 0.1%float (opt_threshold options);
              ao_locale := opt_locale options;
              filtersApplied := 0 <? size (default ∅ (opt_filters options)) |} |}.
Proof.
  unfold semanticSearch.
  destruct (truthy_str query) eqn:Hq; [|done].
  destruct (truthy_str contentType) eqn:Hct; [|done]. cbn [negb orb].
  destruct (generateEmbedding openai query) as [queryResult|] eqn:Hgen; [|done].
  cbn [mbind completion_bind try_catch].
  destruct (embedding queryResult) as [q|] eqn:Hemb; [|done].
  destruct (searchSimilar _ _ _ _) as [results|] eqn:Hsim; [|done].
  cbn [mbind completion_bind try_catch]. intros [= <-].
  apply searchSimilar_inv in Hsim as (q' & documents & [= <-] & _ & Hstore & ->).
  cbn in Hstore. by exists queryResult, q, documents.
Qed.

Lemma StronglySorted_desc_map {A B} (score : A → float) (score' : B → float)
    (f : A → B) (l : list A) :
  (∀ x, score' (f x) = score x) →
  StronglySorted (desc score) l → StronglySorted (desc score') (map f l).
Proof.
  intros Hf. induction 1 as [|x l Hl IH Hx]; cbn [map]; constructor; [done|].
  apply Forall_fmap. eapply Forall_impl; [exact Hx|].
  intros y Hy. unfold desc in *. cbn. by rewrite !Hf.
Qed.

Lemma similarityScore_clean_result includeEmbedding r :
  similarityScore (clean_result includeEmbedding r) = similarityScore r.
Proof. by destruct includeEmbedding. Qed.

Lemma semanticSearch_results strapi openai query contentType options response :
  semanticSearch strapi openai query contentType options = Return response →
  let limit := default 10%Z (opt_limit options) in
  let threshold := default 0.1%float (opt_threshold options) in
  StronglySorted (desc similarityScore) (resp_results response) ∧
  Forall (λ r, PrimFloat.leb threshold (similarityScore r) = true)
    (resp_results response) ∧
  ((0 ≤ limit)%Z → (Z.of_nat (length (resp_results response)) ≤ limit)%Z) ∧
  (default false (opt_includeEmbedding options) = false →
   Forall (λ r, doc_embedding (scored_doc r) = None
                ∧ doc_embeddingMetadata (scored_doc r) = None)
     (resp_results response)).
Proof.
  intros H limit threshold.
  apply semanticSearch_inv in H
    as (queryResult & q & documents & _ & _ & _ & _ & _ & Hres & _).
  fold limit threshold in Hres. rewrite Hres.
  repeat split.
  - eapply StronglySorted_desc_map; [apply similarityScore_clean_result|].
    apply rank_sorted.
  - apply Forall_fmap, Forall_forall. intros r Hr%rank_within. cbn.
    rewrite similarityScore_clean_result.
    by eapply Forall_forall in Hr; [|apply scored_candidates_threshold].
  - intros Hlimit. rewrite length_map. by apply slice0_length.
  - intros ->. apply Forall_fmap, Forall_forall. by intros r _.
Qed.

(** X14: whatever the provider and the store answer, a response of
    [semanticSearch] echoes the query and the collection, reports the
    number of its results and the dimension of the query vector, lists
    its results in descending order of score, every score reaching the
    threshold; it holds at most [limit] results when the limit is not
    negative; and unless [includeEmbedding] was asked for, no result
    carries a vector or its metadata. *)
Theorem semanticSearch_response strapi openai query contentType options response :
  semanticSearch strapi openai query contentType options = Return response →
  let limit := default 10%Z (opt_limit options) in
  let threshold := default 0.1%float (opt_threshold options) in
  resp_query response = query ∧
  resp_contentType response = contentType ∧
  totalResults (resp_metadata response) = length (resp_results response) ∧
  originalQuery (queryProcessing (resp_metadata response)) = query ∧
  StronglySorted (desc similarityScore) (resp_results response) ∧
  Forall (λ r, PrimFloat.leb threshold (similarityScore r) = true)
    (resp_results response) ∧
  ((0 ≤ limit)%Z → (Z.of_nat (length (resp_results response)) ≤ limit)%Z) ∧
  (default false (opt_includeEmbedding options) = false →
   Forall (λ r, doc_embedding (scored_doc r) = None
                ∧ doc_embeddingMetadata (scored_doc r) = None)
     (resp_results response)).
Proof.
  intros H limit threshold.
  destruct (semanticSearch_echo _ _ _ _ _ _ H) as [Hq Hct].
  destruct (semanticSearch_results _ _ _ _ _ _ H) as (H1 & H2 & H3 & H4).
  apply semanticSearch_inv in H
    as (queryResult & q & documents & _ & _ & _ & _ & _ & _ & Hmeta).
  rewrite Hmeta. by cbn.
Qed.

Lemma semanticSearch_response_witness :
  ∃ response,
    semanticSearch sample_strapi (Some sample_client) sample_query
      (str "articles") no_options = Return response ∧
    resp_contentType response = str "articles" ∧
    StronglySorted (desc similarityScore) (resp_results response) ∧
    Forall (λ r, doc_embedding (scored_doc r) = None
                 ∧ doc_embeddingMetadata (scored_doc r) = None)
      (resp_results response).
Proof.
  destruct (semanticSearch sample_strapi (Some sample_client) sample_query
              (str "articles") no_options) as [response|] eqn:H;
    [|by vm_compute in H].
  exists response. split; [done|].
  destruct (semanticSearch_response _ _ _ _ _ _ H)
    as (_ & Hct & _ & _ & Hsorted & _ & _ & Hclean).
  split; [done|]. split; [done|]. by apply Hclean.
Defined.

(** X15: the errors of [semanticSearch] are its own two (the input
    check, the missing vector), the error of the embedding client
    unchanged, or the error of the store's query unchanged.  The
    validation error of [searchSimilar] never comes out of it; and when
    the embedding fails the store decides nothing: the same error comes
    out over every store. *)
Theorem semanticSearch_errors strapi openai query contentType options error :
  semanticSearch strapi openai query contentType options = Throw error →
  (error = InvalidInput_search ∧
   (truthy_str query = false ∨ truthy_str contentType = false)) ∨
  (generateEmbedding openai query = Throw error ∧
   ∀ strapi', semanticSearch strapi' openai query contentType options
              = Throw error) ∨
  (error = EmbeddingMissing ∧
   ∃ queryResult, generateEmbedding openai query = Return queryResult ∧
                  embedding queryResult = None) ∨
  (∃ filters, findMany strapi contentType
      {| fm_filters := filters; fm_locale := opt_locale options;
         fm_limit := 1000 |} = Throw error).
Proof.
  unfold semanticSearch.
  destruct (truthy_str query) eqn:Hq;
    [|intros [= <-]; left; split; [done|by left]].
  destruct (truthy_str contentType) eqn:Hct;
    [|intros [= <-]; left; split; [done|by right]].
  cbn [negb orb].
  destruct (generateEmbedding openai query) as [queryResult|error'] eqn:Hgen.
  - cbn [mbind completion_bind try_catch].
    destruct (embedding queryResult) as [q|] eqn:Hemb.
    + destruct (searchSimilar _ _ _ _) as [results|error'] eqn:Hsim; [done|].
      cbn [mbind completion_bind try_catch]. intros [= ->].
      apply searchSimilar_throws in Hsim as [[_ [?|?]]|Hstore]; try congruence.
      right. right. right. eexists. exact Hstore.
    + intros [= <-]. right. right. left. split; [done|]. by exists queryResult.
  - cbn [mbind completion_bind try_catch]. intros [= ->].
    right. left. split; [done|]. intros strapi'. done.
Qed.

Lemma semanticSearch_errors_witness :
  generateEmbedding (Some failing_client) sample_query = Throw QuotaExceeded ∧
  ∀ strapi', semanticSearch strapi' (Some failing_client) sample_query
               (str "articles") no_options = Throw QuotaExceeded.
Proof.
  destruct (semanticSearch_errors sample_strapi (Some failing_client)
              sample_query (str "articles") no_options QuotaExceeded)
    as [[_ [H|H]]|[H|[[H _]|[filters H]]]];
    try done; by vm_compute in H.
Defined.

(* ===================================================================== *)
(** ** Multi-collection search: the combined list, whatever the scores *)
(* ===================================================================== *)

Lemma sub_search_contentType strapi openai query options contentType :
  sub_contentType (sub_search strapi openai query options contentType)
  = contentType.
Proof.
  pose proof (sub_search_cases strapi openai query options contentType) as H.
  destruct (semanticSearch strapi openai query contentType options);
    [destruct H as [-> H]|rewrite H]; done.
Qed.

Lemma sub_search_threshold strapi openai query options contentType r :
  r ∈ sub_results (sub_search strapi openai query options contentType) →
  PrimFloat.leb (default 0.1%float (opt_threshold options)) (similarityScore r)
  = true.
Proof.
  unfold sub_search.
  destruct (semanticSearch strapi openai query contentType options)
    as [response|error] eqn:H; cbn [sub_results]; [|by intros ?%elem_of_nil].
  apply semanticSearch_inv in H
    as (queryResult & q & documents & _ & _ & _ & _ & _ & -> & _).
  intros (r' & -> & Hr)%list_elem_of_fmap.
  rewrite similarityScore_clean_result. apply rank_within in Hr.
  by eapply Forall_forall in Hr; [|apply scored_candidates_threshold].
Qed.

Lemma elem_of_all_results strapi openai query options contentTypes t :
  t ∈ concat (map tag_results
                (map (sub_search strapi openai query options) contentTypes)) →
  tagged_contentType t ∈ contentTypes ∧
  PrimFloat.leb (default 0.1%float (opt_threshold options)) (tagged_score t)
  = true.
Proof.
  intros (sr & Hsr & Hct & Hr)%elem_of_tag_results.
  apply list_elem_of_fmap in Hsr as (contentType & -> & Hin).
  rewrite sub_search_contentType in Hct. rewrite Hct. split; [done|].
  by eapply sub_search_threshold.
Qed.

Lemma all_results_sorted strapi openai query options contentTypes limit :
  StronglySorted (desc tagged_score)
    (slice0 limit
       (js_sort by_tagged_score_desc
          (concat (map tag_results
             (map (sub_search strapi openai query options) contentTypes))))).
Proof.
  set (allResults := concat _).
  assert (Hnum : Forall (λ x, not_NaN x = true) (map tagged_score allResults)).
  { apply Forall_fmap, Forall_forall.
    intros t [_ Ht]%elem_of_all_results. cbn.
    by apply leb_not_NaN in Ht as [_ ?]. }
  destruct (slice0_prefix limit (js_sort by_tagged_score_desc allResults))
    as [k Hk].
  eapply (StronglySorted_app_1_l _ _ k). rewrite <- Hk.
  apply (js_sort_sorted tagged_score _ (ieee_ordered_not_NaN _ Hnum)).
  intros y Hy. by apply list_elem_of_fmap_2.
Qed.

Lemma all_results_members strapi openai query options contentTypes limit :
  Forall (λ t, tagged_contentType t ∈ contentTypes ∧
               PrimFloat.leb (default 0.1%float (opt_threshold options))
                 (tagged_score t) = true)
    (slice0 limit
       (js_sort by_tagged_score_desc
          (concat (map tag_results
             (map (sub_search strapi openai query options) contentTypes))))).
Proof.
  set (allResults := concat _).
  destruct (slice0_prefix limit (js_sort by_tagged_score_desc allResults))
    as [k Hk].
  apply Forall_forall. intros t Ht.
  apply (elem_of_all_results strapi openai query options contentTypes).
  fold allResults.
  rewrite <- (js_sort_perm by_tagged_score_desc allResults), Hk.
  apply elem_of_app. by left.
Qed.

(** X16: in the aggregated mode the combined results are always in
    descending order of score, whatever the limit and the scores; every
    entry is tagged with one of the collections asked for and reaches
    the threshold; and [totalResults] is the number of entries
    returned. *)
Theorem multiContentTypeSearch_aggregated_order
    strapi openai order query contentTypes options :
  truthy_str query = true → contentTypes ≠ [] →
  default true (opt_aggregateResults options) = true →
  ∃ results metadata,
    multiContentTypeSearch strapi openai order query contentTypes options
    = Return (Aggregated query contentTypes results metadata) ∧
    StronglySorted (desc tagged_score) results ∧
    Forall (λ t, tagged_contentType t ∈ contentTypes ∧
                 PrimFloat.leb (default 0.1%float (opt_threshold options))
                   (tagged_score t) = true) results ∧
    agg_totalResults metadata = length results.
Proof.
  intros Hq Hne Hmode.
  rewrite multiContentTypeSearch_returns by done. rewrite Hmode.
  do 2 eexists. split; [reflexivity|]. cbn zeta.
  split; [apply all_results_sorted|]. split; [|done].
  apply (all_results_members strapi openai query
           (with_limit (ceil_1_5 (default 10%Z (opt_limit options))) options)).
Qed.

Lemma multiContentTypeSearch_aggregated_order_witness :
  ∃ results metadata,
    multiContentTypeSearch sample_strapi (Some sample_client) [1; 0]
      sample_query [str "articles"; str "blogs"] no_options
    = Return (Aggregated sample_query [str "articles"; str "blogs"]
                results metadata) ∧
    StronglySorted (desc tagged_score) results.
Proof.
  destruct (multiContentTypeSearch_aggregated_order
              sample_strapi (Some sample_client) [1; 0]
              sample_query [str "articles"; str "blogs"] no_options)
    as (results & metadata & H & Hsorted & _); [done..|].
  by exists results, metadata.
Defined.

(* ===================================================================== *)
(** ** The configuration of the content types *)
(* ===================================================================== *)

Lemma valid_field_Some field name :
  valid_field field = Some name →
  field = VString name ∧ truthy_str (trim name) = true.
Proof.
  destruct field as [| | | |s| |]; try done. cbn.
  destruct (truthy_str (trim s)) eqn:E; [|done]. by intros [= <-].
Qed.

Lemma omap_valid_field items :
  Forall (λ name, truthy_str (trim name) = true) (omap valid_field items) ∧
  map VString (omap valid_field items) `sublist_of` items.
Proof.
  induction items as [|field items [IH1 IH2]]; [by split; constructor|].
  cbn [omap list_omap]. fold (omap valid_field items).
  destruct (valid_field field) as [name|] eqn:E.
  - apply valid_field_Some in E as [-> E]. split; [by constructor|].
    cbn [map]. by constructor.
  - split; [done|]. by constructor.
Qed.

Lemma omap_valid_field_strings fields :
  Forall (λ name, truthy_str (trim name) = true) fields →
  omap valid_field (map VString fields) = fields.
Proof.
  induction 1 as [|name fields Hname _ IH]; [done|].
  cbn [map omap list_omap valid_field]. rewrite Hname.
  fold (omap valid_field (map VString fields)). by rewrite IH.
Qed.

Lemma validate_entry_Some contentType fields validFields :
  validate_entry contentType fields = Some validFields →
  valid_contentType contentType = true ∧ validFields ≠ [] ∧
  ∃ items, fields = VArray items ∧ validFields = omap valid_field items.
Proof.
  unfold validate_entry.
  destruct (valid_contentType contentType); [|done].
  destruct fields as [| | | | |items|]; try done.
  destruct (omap valid_field items) as [|name names] eqn:E; [done|].
  intros [= <-]. split; [done|]. split; [done|]. by exists items.
Qed.

Lemma defaultContentTypes_lookup contentType fields :
  defaultContentTypes !! contentType = Some fields →
  (contentType = str "api::article.article" ∧
   fields = [str "title"; str "content"; str "summary"]) ∨
  (contentType = str "api::blog.blog" ∧
   fields = [str "title"; str "body"; str "excerpt"]).
Proof.
  unfold defaultContentTypes.
  intros [[<- <-]|[_ [<- <-]%lookup_singleton_Some]]%lookup_insert_Some;
    [by left|by right].
Qed.

Lemma valid_contentType_not_system contentType :
  valid_contentType contentType = true → is_system_model contentType = false.
Proof.
  unfold valid_contentType, is_system_model, startsWith.
  intros [Hapi%bool_decide_eq_true _]%andb_true_iff.
  destruct Hapi as [rest ->].
  repeat (apply orb_false_iff; split); apply bool_decide_eq_false.
  - by intros [k Hk].
  - by intros [k Hk].
  - done.
Qed.

Lemma validateConfiguration_lookup contentTypes contentType fields :
  validateConfiguration contentTypes !! contentType = Some fields →
  valid_contentType contentType = true ∧ fields ≠ [] ∧
  Forall (λ name, truthy_str (trim name) = true) fields.
Proof.
  intros H. destruct contentTypes as [entries|]; cbn [validateConfiguration] in H.
  - rewrite map_lookup_imap in H.
    destruct (entries !! contentType) as [v|]; [|done]. cbn in H.
    apply validate_entry_Some in H as (Hct & Hne & items & -> & ->).
    split; [done|]. split; [done|]. apply omap_valid_field.
  - apply defaultContentTypes_lookup in H as [[-> ->]|[-> ->]];
      (split; [by vm_compute|]); (split; [done|]);
      repeat constructor.
Qed.

(** X17: whatever configuration is handed in, every entry of the
    validated configuration has a name of the form [api::….…], which the
    hook never takes for a system model, and a list of fields that is not
    empty and holds no blank name. *)
Theorem validateConfiguration_valid contentTypes contentType fields :
  validateConfiguration contentTypes !! contentType = Some fields →
  valid_contentType contentType = true ∧
  is_system_model contentType = false ∧
  fields ≠ [] ∧
  Forall (λ name, truthy_str (trim name) = true) fields.
Proof.
  intros H.
  assert (valid_contentType contentType = true ∧ fields ≠ [] ∧
          Forall (λ name, truthy_str (trim name) = true) fields)
    as (Hct & Hne & Hfields).
  { by apply (validateConfiguration_lookup contentTypes). }
  split; [done|]. split; [by apply valid_contentType_not_system|]. done.
Qed.

Lemma validateConfiguration_valid_witness :
  valid_contentType (str "api::blog.blog") = true ∧
  is_system_model (str "api::blog.blog") = false ∧
  [str "title"; str "body"; str "excerpt"] ≠ [] ∧
  Forall (λ name, truthy_str (trim name) = true)
    [str "title"; str "body"; str "excerpt"].
Proof.
  apply (validateConfiguration_valid ConfigNotObject).
  vm_compute. reflexivity.
Defined.

(** X18: validating a validated configuration changes nothing. *)
Theorem validateConfiguration_idempotent contentTypes :
  validateConfiguration (config_object (validateConfiguration contentTypes))
  = validateConfiguration contentTypes.
Proof.
  set (config := validateConfiguration contentTypes).
  assert (Hvalid : ∀ contentType fields,
            config !! contentType = Some fields →
            validate_entry contentType (VArray (map VString fields))
            = Some fields).
  { intros contentType fields H. subst config.
    assert (valid_contentType contentType = true ∧ fields ≠ [] ∧
            Forall (λ name, truthy_str (trim name) = true) fields)
      as (Hct & Hne & Hfields).
    { by apply (validateConfiguration_lookup contentTypes). }
    unfold validate_entry. rewrite Hct, (omap_valid_field_strings _ Hfields).
    by destruct fields. }
  unfold config_object. cbn [validateConfiguration].
  apply map_eq. intros contentType.
  rewrite map_lookup_imap, lookup_fmap.
  destruct (config !! contentType) as [fields|] eqn:E; [|done].
  cbn. by apply Hvalid.
Qed.

(** X19: of a configuration object the validation keeps only what was
    given: an entry of the result belongs to an entry of the input that
    is an array, and its fields are strings of that array in their
    order.  The defaults are not used for an object: with no valid entry
    the result is empty. *)
Theorem validateConfiguration_object entries :
  (∀ contentType fields,
     validateConfiguration (ConfigObject entries) !! contentType = Some fields →
     ∃ items, entries !! contentType = Some (VArray items) ∧
              map VString fields `sublist_of` items) ∧
  ((∀ contentType fields, entries !! contentType = Some fields →
      validate_entry contentType fields = None) →
   validateConfiguration (ConfigObject entries) = ∅).
Proof.
  cbn [validateConfiguration]. split.
  - intros contentType fields H. rewrite map_lookup_imap in H.
    destruct (entries !! contentType) as [v|]; [|done]. cbn in H.
    apply validate_entry_Some in H as (_ & _ & items & -> & ->).
    exists items. split; [done|]. apply omap_valid_field.
  - intros Hnone. apply map_eq. intros contentType.
    rewrite map_lookup_imap, lookup_empty.
    destruct (entries !! contentType) as [v|] eqn:E; [|done]. cbn.
    by apply Hnone.
Qed.

(* ===================================================================== *)
(** ** The lifecycle hook: what it reads and what it changes *)
(* ===================================================================== *)

Lemma field_text_agree host with_objects data data' field :
  data !! field = data' !! field →
  field_text host with_objects data field
  = field_text host with_objects data' field.
Proof. unfold field_text. by intros ->. Qed.

Lemma extract_fields_agree host with_objects data data' textFields textContent :
  (∀ field, field ∈ textFields → data !! field = data' !! field) →
  extract_fields host with_objects data textFields textContent
  = extract_fields host with_objects data' textFields textContent.
Proof.
  revert textContent.
  induction textFields as [|field rest IH]; intros textContent H; [done|].
  cbn [extract_fields].
  rewrite (field_text_agree _ _ data data') by (apply H; left).
  destruct (field_text host with_objects data' field) as [piece|]; [|done].
  cbn [mbind completion_bind]. apply IH. intros f Hf. apply H. by right.
Qed.

(** X20: the text extracted of a payload depends on the fields
    configured for the model only (the seven default fields if the model
    has no entry): payloads that agree on them give the same text, or the
    same error; and a text that comes out is trimmed, so that trimming it
    again, as the hook does, changes nothing. *)
Theorem extractTextContent_reads_configured_fields host data data' modelName :
  let textFields :=
    default default_textFields
      (default ∅ (plugin_contentTypes host) !! modelName) in
  (∀ field, field ∈ textFields → data !! field = data' !! field) →
  extractTextContent host data modelName
  = extractTextContent host data' modelName ∧
  ∀ textContent, extractTextContent host data modelName = Return textContent →
                 trim textContent = textContent.
Proof.
  intros textFields H. unfold extractTextContent. fold textFields. split.
  - by rewrite (extract_fields_agree _ _ data data').
  - intros textContent.
    destruct (extract_fields host true data textFields []) as [t|]; [|done].
    cbn. intros [= <-]. apply trim_idempotent.
Qed.

Lemma extractTextContent_reads_configured_fields_witness :
  extractTextContent sample_host sample_data (str "api::article.article")
  = extractTextContent sample_host tagged_data (str "api::article.article").
Proof.
  apply (extractTextContent_reads_configured_fields sample_host sample_data
           tagged_data (str "api::article.article")).
  intros field Hfield. unfold tagged_data.
  rewrite lookup_insert_ne; [done|]. intros <-.
  apply list_elem_of_In in Hfield. vm_compute in Hfield.
  intuition discriminate.
Defined.

(** The run of the hook, case by case. *)
Lemma run_hook_cases extract host openai model action data :
  let modelName := model_name model in
  run_hook (processDocumentEmbedding_with extract host openai model action) data
  = if is_system_model modelName
    then (Return (), {| hs_data := data; hs_log := [] |})
    else
      match extract host data modelName with
      | Throw error =>
          (Return (),
           {| hs_data := data; hs_log := [failure_entry modelName error] |})
      | Return textContent =>
        if negb (truthy_str textContent) || (length (trim textContent) <? 10)
        then
          (Return (),
           {| hs_data := data;
              hs_log :=
                [{| log_level := LogDebug;
                    log_text := str "Skipping embedding generation for "
                                  ++ modelName
                                  ++ str " - insufficient text content";
                    log_detail := None |}] |})
        else
          match generateEmbedding openai textContent with
          | Throw error =>
              (Return (),
               {| hs_data := data;
                  hs_log := [failure_entry modelName error] |})
          | Return embeddingResult =>
            match embedding embeddingResult with
            | Some e =>
                (Return (),
                 {| hs_data :=
                      <[str "embeddingMetadata" :=
                          embedding_metadata host (length e) embeddingResult]>
                        (<[str "embedding" := value_of_vector e]> data);
                    hs_log :=
                      [{| log_level := LogInfo;
                          log_text := str "Generated embedding for " ++ modelName
                                        ++ str " document (" ++ action ++ str ")";
                          log_detail := None |}] |})
            | None => (Return (), {| hs_data := data; hs_log := [] |})
            end
          end
      end.
Proof.
  intros modelName. unfold run_hook, processDocumentEmbedding_with.
  fold modelName. destruct (is_system_model modelName); [done|].
  unfold hook_try_catch, mbind, hook_mbind, hook_bind, get_data, hook_lift.
  cbn [hs_data].
  destruct (extract host data modelName) as [textContent|error]; [|done].
  destruct (negb (truthy_str textContent) || (length (trim textContent) <? 10));
    [done|].
  destruct (generateEmbedding openai textContent) as [embeddingResult|error];
    [|done].
  by destruct (embedding embeddingResult).
Qed.

(** X21: the hook never throws, whatever the extraction, the provider
    and the payload are.  The payload it hands on is the one it got, or
    that one with both [embedding] and [embeddingMetadata] set from one
    result of the embedding client: the two are written together or not
    at all, and no other field is touched. *)
Theorem processDocumentEmbedding_outcome extract host openai model action data :
  let run :=
    run_hook (processDocumentEmbedding_with extract host openai model action)
      data in
  run.1 = Return () ∧
  (hs_data run.2 = data ∨
   ∃ textContent embeddingResult e,
     extract host data (model_name model) = Return textContent ∧
     generateEmbedding openai textContent = Return embeddingResult ∧
     embedding embeddingResult = Some e ∧
     hs_data run.2
     = <[str "embeddingMetadata" :=
           embedding_metadata host (length e) embeddingResult]>
         (<[str "embedding" := value_of_vector e]> data)) ∧
  ∀ key, key ≠ str "embedding" → key ≠ str "embeddingMetadata" →
         hs_data run.2 !! key = data !! key.
Proof.
  intros run. subst run. rewrite run_hook_cases.
  destruct (is_system_model (model_name model)).
  { repeat split; cbn; auto. }
  destruct (extract host data (model_name model)) as [textContent|error] eqn:Hx.
  2: { repeat split; cbn; auto. }
  destruct (negb (truthy_str textContent) || (length (trim textContent) <? 10)).
  { repeat split; cbn; auto. }
  destruct (generateEmbedding openai textContent) as [embeddingResult|error]
    eqn:Hgen.
  2: { repeat split; cbn; auto. }
  destruct (embedding embeddingResult) as [e|] eqn:He.
  2: { repeat split; cbn; auto. }
  cbn. repeat split.
  - right. by exists textContent, embeddingResult, e.
  - intros key H1 H2. by rewrite !lookup_insert_ne.
Qed.

(** X22: for a model of the administration or of a plugin the hook does
    nothing at all: it neither extracts nor embeds nor logs.  The third
    test of the guard, for the users of the permissions plugin, never
    decides: the test for [plugin::] covers it. *)
Theorem processDocumentEmbedding_system_models
    extract host openai model action data :
  let modelName := model_name model in
  is_system_model modelName
  = startsWith modelName (str "admin::") || startsWith modelName (str "plugin::") ∧
  (is_system_model modelName = true →
   run_hook (processDocumentEmbedding_with extract host openai model action) data
   = (Return (), {| hs_data := data; hs_log := [] |})).
Proof.
  intros modelName. split.
  - unfold is_system_model.
    destruct (bool_decide (modelName = str "plugin::users-permissions.user"))
      eqn:E; [|by rewrite orb_false_r].
    apply bool_decide_eq_true in E. rewrite E. by vm_compute.
  - intros H. rewrite run_hook_cases. fold modelName. by rewrite H.
Qed.

Lemma processDocumentEmbedding_system_models_witness :
  run_hook (processDocumentEmbedding sample_host (Some sample_client)
              (ModelObject (str "plugin::upload.file")) (str "create"))
    sample_data
  = (Return (), {| hs_data := sample_data; hs_log := [] |}).
Proof.
  apply (processDocumentEmbedding_system_models extractTextContent sample_host
           (Some sample_client) (ModelObject (str "plugin::upload.file"))
           (str "create") sample_data).
  vm_compute. reflexivity.
Defined.

(** X23: when the extracted text is empty or shorter than ten code
    units the hook leaves the payload as it is and writes a debug line;
    the embedding client is not consulted: the outcome is the same with
    every client, configured or not. *)
Theorem processDocumentEmbedding_short_text
    extract host openai model action data textContent :
  let modelName := model_name model in
  is_system_model modelName = false →
  extract host data modelName = Return textContent →
  length (trim textContent) < 10 →
  run_hook (processDocumentEmbedding_with extract host openai model action) data
  = (Return (),
     {| hs_data := data;
        hs_log :=
          [{| log_level := LogDebug;
              log_text := str "Skipping embedding generation for " ++ modelName
                            ++ str " - insufficient text content";
              log_detail := None |}] |}).
Proof.
  intros modelName Hmodel Hx Hlen. rewrite run_hook_cases.
  fold modelName. rewrite Hmodel, Hx.
  apply Nat.ltb_lt in Hlen. rewrite Hlen. by rewrite orb_true_r.
Qed.

Lemma processDocumentEmbedding_short_text_witness :
  run_hook (processDocumentEmbedding sample_host None
              (ModelUid (str "api::article.article")) (str "update")) short_data
  = (Return (),
     {| hs_data := short_data;
        hs_log :=
          [{| log_level := LogDebug;
              log_text := str "Skipping embedding generation for "
                            ++ str "api::article.article"
                            ++ str " - insufficient text content";
              log_detail := None |}] |}).
Proof.
  apply (processDocumentEmbedding_short_text extractTextContent sample_host None
           (ModelUid (str "api::article.article")) (str "update") short_data
           (str "Hi")).
  - vm_compute. reflexivity.
  - vm_compute. reflexivity.
  - vm_compute. lia.
Defined.

(** X24: where the model has no configured fields and none of the seven
    default fields holds an object that is no array, the extraction of
    the configurable entry point gives what the one of the first entry
    point gives. *)
Theorem extractTextContent_fixed_agrees host data modelName :
  default ∅ (plugin_contentTypes host) !! modelName = None →
  (∀ field o, field ∈ default_textFields → data !! field ≠ Some (VObject o)) →
  extractTextContent host data modelName
  = extractTextContent_fixed host data modelName.
Proof.
  intros Hconfig Hobjects. unfold extractTextContent, extractTextContent_fixed.
  rewrite Hconfig. cbn [default]. f_equal.
  generalize (@nil N) as textContent.
  induction default_textFields as [|field rest IH]; intros textContent; [done|].
  cbn [extract_fields].
  assert (Hfield : field_text host true data field
                   = field_text host false data field).
  { unfold field_text.
    destruct (data !! field) as [v|] eqn:E; [|done].
    destruct v; try done. exfalso. by eapply (Hobjects field); [left|]. }
  rewrite Hfield.
  destruct (field_text host false data field) as [piece|]; [|done].
  cbn [mbind completion_bind]. apply IH.
  intros f o Hf. apply Hobjects. by right.
Qed.

Lemma extractTextContent_fixed_agrees_witness :
  extractTextContent sample_host sample_data (str "api::article.article")
  = extractTextContent_fixed sample_host sample_data (str "api::article.article").
Proof.
  apply extractTextContent_fixed_agrees.
  - reflexivity.
  - intros field o _. unfold sample_data.
    destruct (decide (field = str "title")) as [->|Hne].
    + by rewrite lookup_singleton.
    + by rewrite lookup_singleton_ne.
Defined.

(* ===================================================================== *)
(** ** Statistics *)
(* ===================================================================== *)

Lemma stats_loop_lookup host contentTypes stats type :
  stats_loop host contentTypes stats !! type
  = match stats_of host type with
    | Return entry =>
        if bool_decide (type ∈ contentTypes) then Some entry else stats !! type
    | Throw _ => stats !! type
    end.
Proof.
  revert stats. induction contentTypes as [|t rest IH]; intros stats.
  - cbn [stats_loop]. by destruct (stats_of host type).
  - cbn [stats_loop].
    destruct (decide (type = t)) as [->|Hne].
    + destruct (stats_of host t) as [entry|error] eqn:E.
      * rewrite IH, ?E, lookup_insert.
        rewrite (bool_decide_eq_true_2 (t ∈ t :: rest)) by left.
        rewrite decide_True by done. by destruct (bool_decide (t ∈ rest)).
      * by rewrite IH, ?E.
    + assert (Hin : bool_decide (type ∈ t :: rest) = bool_decide (type ∈ rest)).
      { apply bool_decide_ext. rewrite elem_of_cons. intuition congruence. }
      rewrite Hin.
      destruct (stats_of host t) as [entry|error]; rewrite IH;
        destruct (stats_of host type); try done;
        by rewrite lookup_insert_ne.
Qed.

(** X25: asked for all content types, the statistics never fail, so
    that the statistics route answers: the answer has an entry for
    exactly the registered types that are neither of the administration
    nor of a plugin and whose two counts succeed, and a type whose count
    fails is left out. *)
Theorem getEmbeddingStats_all host type :
  ∃ stats,
    getEmbeddingStats host None = Return stats ∧
    getStats_controller host None = Success stats ∧
    stats !! type
    = if bool_decide (type ∈ registered_contentTypes host)
         && negb (startsWith type (str "admin::"))
         && negb (startsWith type (str "plugin::"))
      then match stats_of host type with
           | Return entry => Some entry
           | Throw _ => None
           end
      else None.
Proof.
  eexists. split; [reflexivity|]. split; [reflexivity|].
  rewrite stats_loop_lookup, lookup_empty.
  assert (Hin : ∀ (keep : jsstring → bool) l,
            bool_decide (type ∈ List.filter keep l)
            = bool_decide (type ∈ l) && keep type).
  { intros keep l. destruct (keep type) eqn:Hkeep.
    - rewrite andb_true_r. apply bool_decide_ext.
      rewrite !list_elem_of_In, List.filter_In. intuition.
    - rewrite andb_false_r. apply bool_decide_eq_false.
      rewrite list_elem_of_In, List.filter_In. intros [_ H]. congruence. }
  rewrite Hin, andb_assoc.
  destruct (stats_of host type); [done|]. by destruct (_ && _).
Qed.

(** X26: asked for one content type, the statistics fail with the error
    of the first count that fails; otherwise the answer has the one entry
    of that type with the two counts, and for an empty collection the
    coverage is the text [0%]: nothing is divided by zero. *)
Theorem getEmbeddingStats_one host type :
  truthy_str type = true →
  match getEmbeddingStats host (Some type) with
  | Return stats =>
      ∃ entry, stats = {[ type := entry ]} ∧
        count host type None = Return (total entry) ∧
        count host type (Some embedding_notNull)
        = Return (withEmbeddings entry) ∧
        (total entry = 0 → coverage entry = str "0%")
  | Throw error =>
      count host type None = Throw error ∨
      (is_return (count host type None) = true ∧
       count host type (Some embedding_notNull) = Throw error)
  end.
Proof.
  intros Htype. unfold getEmbeddingStats, stats_of. rewrite Htype.
  destruct (count host type None) as [n|error]; [|by left].
  cbn [mbind completion_bind try_catch].
  destruct (count host type (Some embedding_notNull)) as [k|error];
    [|by right].
  cbn [mbind completion_bind try_catch].
  eexists. split; [reflexivity|]. cbn. repeat split. by intros ->.
Qed.

Lemma getEmbeddingStats_one_witness :
  ∃ stats entry,
    getEmbeddingStats sample_stats_host (Some (str "api::article.article"))
    = Return stats ∧
    stats = {[ str "api::article.article" := entry ]} ∧
    count sample_stats_host (str "api::article.article") None
    = Return (total entry).
Proof.
  pose proof (getEmbeddingStats_one sample_stats_host
                (str "api::article.article") eq_refl) as H.
  destruct (getEmbeddingStats sample_stats_host
              (Some (str "api::article.article"))) as [stats|error].
  - destruct H as (entry & Hstats & Htotal & _). by exists stats, entry.
  - exfalso. destruct H as [H|[_ H]]; by vm_compute in H.
Defined.

(* ===================================================================== *)
(** ** The controllers *)
(* ===================================================================== *)

Lemma capped_limit_le limit : (capped_limit limit ≤ 50)%Z.
Proof. unfold capped_limit. lia. Qed.

Lemma capped_limit_nonneg limit :
  (0 ≤ default 10 limit)%Z → (0 ≤ capped_limit limit)%Z.
Proof. unfold capped_limit. lia. Qed.



Lemma first_unknown_None contentTypes requested :
  first_unknown contentTypes requested = None ↔
  Forall (λ contentType, contentType ∈ contentTypes) requested.
Proof.
  induction requested as [|contentType rest IH]; cbn [first_unknown].
  - split; [constructor|done].
  - destruct (bool_decide (contentType ∈ contentTypes)) eqn:E.
    + apply bool_decide_eq_true in E. rewrite IH. split.
      * by constructor.
      * by intros [_ ?]%Forall_cons_1.
    + apply bool_decide_eq_false in E. split; [done|].
      by intros [? _]%Forall_cons_1.
Qed.

(** X28: the multi-search route never answers with the status 500: a
    request is refused before any service is called, or it is answered,
    even when the provider or every store fails.  The answer is the
    aggregated one exactly when [aggregateResults] is absent, [true] or
    the text [true]; every collection asked for is registered; and the
    aggregated results are in descending order of score, at most fifty
    when the limit asked for is not negative. *)
Theorem multiSearch_controller_outcome contentTypes strapi openai order body :
  match multiSearch_controller contentTypes strapi openai order body with
  | BadRequest msg =>
      ∀ strapi' openai' order',
        multiSearch_controller contentTypes strapi' openai' order' body
        = BadRequest msg
  | InternalServerError _ _ => False
  | Success response =>
      Forall (λ contentType, contentType ∈ contentTypes)
        (mbody_contentTypes body) ∧
      match response with
      | Aggregated query requested results metadata =>
          wants_aggregate (mbody_aggregateResults body) = true ∧
          query = mbody_query body ∧ requested = mbody_contentTypes body ∧
          StronglySorted (desc tagged_score) results ∧
          let limit := default 10%Z (mbody_limit body) in
          (plain_integer limit = true → (0 ≤ limit)%Z →
           length results ≤ 50)
      | Separate query requested results metadata =>
          wants_aggregate (mbody_aggregateResults body) = false ∧
          query = mbody_query body ∧ requested = mbody_contentTypes body ∧
          map sub_contentType results = mbody_contentTypes body
      end
  end.
Proof.
  unfold multiSearch_controller.
  destruct (truthy_str (mbody_query body)) eqn:Hq; cbn [negb]; [|done].
  destruct (length (mbody_contentTypes body) =? 0) eqn:Hlen; [done|].
  destruct (first_unknown contentTypes (mbody_contentTypes body))
    as [contentType|] eqn:Hreg; [done|].
  apply first_unknown_None in Hreg.
  assert (Hne : mbody_contentTypes body ≠ []).
  { intros E. rewrite E in Hlen. done. }
  rewrite multiContentTypeSearch_returns by done.
  cbn [opt_aggregateResults opt_limit default from_option id].
  destruct (wants_aggregate (mbody_aggregateResults body)) eqn:Hmode.
  - split; [done|]. repeat split; [apply all_results_sorted|].
    intros _ Hlimit.
    match goal with
    | |- length (slice0 ?limit ?l) ≤ 50 =>
        pose proof (slice0_length limit l (capped_limit_nonneg _ Hlimit))
    end.
    pose proof (capped_limit_le (mbody_limit body)). lia.
  - split; [done|]. repeat split.
    rewrite map_map. erewrite map_ext; [apply map_id|].
    intros contentType. apply sub_search_contentType.
Qed.

(* ===================================================================== *)
(** ** The filter shortcuts *)
(* ===================================================================== *)

Lemma with_filters_with_filters filters filters' options :
  with_filters filters (with_filters filters' options)
  = with_filters filters options.
Proof. done. Qed.

(** X29: [searchWithFilters] searches with the filters it builds and
    drops the [filters] of its options.  Every custom field is passed on
    as given and wins over the shortcut of the same name; a key of the
    filters built is [createdAt], [publishedAt] or a custom field; and a
    [publishedAt] that is neither [published] nor [draft] filters
    nothing. *)
Theorem searchWithFilters_filters strapi openai query contentType filters options :
  let searchFilters := build_searchFilters filters in
  (∀ filters',
     searchWithFilters strapi openai query contentType filters
       (with_filters filters' options)
     = searchWithFilters strapi openai query contentType filters options) ∧
  (∀ custom key v,
     customFields filters = Some custom → custom !! key = Some v →
     searchFilters !! key = Some v) ∧
  (∀ key v,
     searchFilters !! key = Some v →
     key = str "createdAt" ∨ key = str "publishedAt" ∨
     ∃ custom, customFields filters = Some custom ∧ custom !! key = Some v) ∧
  (publishedAt filters ≠ VString (str "published") →
   publishedAt filters ≠ VString (str "draft") →
   default ∅ (customFields filters) !! str "publishedAt" = None →
   searchFilters !! str "publishedAt" = None).
Proof.
  intros searchFilters. split; [done|].
  subst searchFilters. unfold build_searchFilters.
  set (dated := if truthy (dateFrom filters) || truthy (dateTo filters)
                then <[str "createdAt" := date_filter filters]> ∅ else ∅).
  set (shortcuts := match publishedAt filters with
                    | VString status => _
                    | _ => dated
                    end).
  assert (Hdated : ∀ key v, dated !! key = Some v → key = str "createdAt").
  { intros key v. subst dated. destruct (_ || _); [|by rewrite lookup_empty].
    by intros [[<- _]|[_ H]]%lookup_insert_Some. }
  assert (Hshortcuts : ∀ key v, shortcuts !! key = Some v →
            key = str "createdAt" ∨
            key = str "publishedAt" ∧
            (publishedAt filters = VString (str "published") ∨
             publishedAt filters = VString (str "draft"))).
  { intros key v. subst shortcuts.
    destruct (publishedAt filters) as [| | | |status| |];
      try (intros ?%Hdated; by left).
    destruct (bool_decide (status = str "published")) eqn:E1.
    { apply bool_decide_eq_true in E1 as ->.
      intros [[<- _]|[_ ?%Hdated]]%lookup_insert_Some; [right|left]; auto. }
    destruct (bool_decide (status = str "draft")) eqn:E2.
    { apply bool_decide_eq_true in E2 as ->.
      intros [[<- _]|[_ ?%Hdated]]%lookup_insert_Some; [right|left]; auto. }
    intros ?%Hdated. by left. }
  split; [|split].
  - intros custom key v -> Hkey. by apply lookup_union_Some_l.
  - intros key v H. destruct (customFields filters) as [custom|].
    + apply lookup_union_Some_raw in H as [H|[_ H]].
      * right. right. by exists custom.
      * apply Hshortcuts in H as [->|[-> _]]; auto.
    + apply Hshortcuts in H as [->|[-> _]]; auto.
  - intros H1 H2 Hcustom.
    assert (Hnone : shortcuts !! str "publishedAt" = None).
    { destruct (shortcuts !! str "publishedAt") as [v|] eqn:E; [|done].
      apply Hshortcuts in E as [E|[_ [E|E]]]; done. }
    destruct (customFields filters) as [custom|]; [|done].
    cbn [default from_option id] in Hcustom.
    by rewrite lookup_union, Hcustom, Hnone.
Qed.

(* ===================================================================== *)
(** ** Without a provider *)
(* ===================================================================== *)

Lemma semanticSearch_no_provider strapi query contentType options :
  ∃ error,
    semanticSearch strapi None query contentType options = Throw error ∧
    truthy_str (message error) = true ∧
    (truthy_str query = true → truthy_str contentType = true →
     error = ProviderNotConfigured).
Proof.
  unfold semanticSearch.
  destruct (truthy_str query); [|by eexists].
  destruct (truthy_str contentType); by eexists.
Qed.

(** X30: when no API key is set, the client is never built and every
    embedding request fails with [ProviderNotConfigured].  A search of
    one collection then fails with that error, whereas the aggregated
    multi-collection search still answers: with no result, and every
    collection reported with an error and a count of zero. *)
Theorem search_without_provider
    connect apiKey strapi order query contentTypes options :
  default [] apiKey = [] →
  truthy_str query = true → contentTypes ≠ [] →
  default true (opt_aggregateResults options) = true →
  let openai := init connect apiKey in
  (∀ text, generateEmbedding openai text = Throw ProviderNotConfigured) ∧
  (∀ contentType, truthy_str contentType = true →
     semanticSearch strapi openai query contentType options
     = Throw ProviderNotConfigured) ∧
  ∃ metadata,
    multiContentTypeSearch strapi openai order query contentTypes options
    = Return (Aggregated query contentTypes [] metadata) ∧
    map ir_contentType (individualResults metadata) = contentTypes ∧
    Forall (λ ir, ir_hasError ir = true ∧ ir_count ir = 0)
      (individualResults metadata).
Proof.
  intros Hkey Hq Hne Hmode openai.
  assert (Hnone : openai = None).
  { subst openai. unfold init. destruct apiKey as [key|]; [|done].
    cbn in Hkey. by rewrite Hkey. }
  rewrite Hnone. split; [done|]. split.
  { intros contentType Hct.
    destruct (semanticSearch_no_provider strapi query contentType options)
      as (error & -> & _ & Herror). f_equal. by apply Herror. }
  rewrite multiContentTypeSearch_returns by done. rewrite Hmode.
  set (sub := with_limit _ options).
  assert (Hsub : ∀ contentType,
            ∃ msg, sub_search strapi None query sub contentType
                   = SubError query contentType msg ∧ truthy_str msg = true).
  { intros contentType. unfold sub_search.
    destruct (semanticSearch_no_provider strapi query contentType sub)
      as (error & -> & Hmsg & _). by eexists. }
  assert (Hall : concat (map tag_results
                    (map (sub_search strapi None query sub) contentTypes)) = []).
  { clear Hne. induction contentTypes as [|contentType rest IH]; [done|].
    cbn [map concat]. rewrite IH.
    destruct (Hsub contentType) as (msg & -> & _). done. }
  rewrite Hall. cbn [js_sort foldr].
  assert (Hslice : ∀ limit, slice0 limit (@nil TaggedResult) = []).
  { intros limit. unfold slice0. destruct (limit <? 0)%Z; apply take_nil. }
  rewrite Hslice. eexists. split; [reflexivity|]. cbn. split.
  - rewrite !map_map. erewrite map_ext; [apply map_id|].
    intros contentType. cbn. apply sub_search_contentType.
  - apply Forall_fmap, Forall_fmap, Forall_forall. intros contentType _. cbn.
    destruct (Hsub contentType) as (msg & -> & Hmsg). cbn.
    unfold has_error. cbn. by rewrite Hmsg.
Qed.

Lemma search_without_provider_witness :
  ∃ metadata,
    multiContentTypeSearch sample_strapi (init (λ _, sample_client) None) [1; 0]
      sample_query [str "articles"; str "blogs"] no_options
    = Return (Aggregated sample_query [str "articles"; str "blogs"] []
                metadata) ∧
    Forall (λ ir, ir_hasError ir = true ∧ ir_count ir = 0)
      (individualResults metadata).
Proof.
  destruct (search_without_provider (λ _, sample_client) None sample_strapi
              [1; 0] sample_query [str "articles"; str "blogs"] no_options)
    as (_ & _ & metadata & H & _ & Hall); [done..|].
  by exists metadata.
Defined.
